(** * TikZJax: the rendering pipeline of [src/index.js], [src/run-tex.js]

    A shallow embedding of the page script (fingerprinting, cache probing,
    the batch queue, id namespacing) and of the worker script (input
    assembly, marker restoration, multi-page composition), followed by the
    properties established about them. *)

From Stdlib Require Import Ascii String.
From Stdlib Require Import List NArith ZArith Lia Bool Arith PeanoNat Permutation.
Import ListNotations.

Set Implicit Arguments.

(** ** JavaScript strings

    A JavaScript string is a sequence of UTF-16 code units.  Literals of the
    source are written as Rocq strings and injected with [lit]. *)

Definition jsstring := list N.

Definition lit (s : string) : jsstring :=
  map N_of_ascii (list_ascii_of_string s).

Definition jseqb (a b : jsstring) : bool :=
  if list_eq_dec N.eq_dec a b then true else false.

Definition jsstring_eq_dec : forall a b : jsstring, {a = b} + {a <> b} :=
  list_eq_dec N.eq_dec.

(** [s.startsWith(p)] *)
Fixpoint startsWith (p s : jsstring) : bool :=
  match p, s with
  | [], _ => true
  | _ :: _, [] => false
  | a :: p', b :: s' => N.eqb a b && startsWith p' s'
  end.

(** [s.includes(p)] *)
Fixpoint includes (p s : jsstring) : bool :=
  startsWith p s ||
  match s with
  | [] => false
  | _ :: s' => includes p s'
  end.

(** [s.split(sep)] for a one-unit separator; the result is never empty. *)
Fixpoint split (sep : N) (s : jsstring) : list jsstring :=
  match s with
  | [] => [[]]
  | c :: s' =>
      if N.eqb c sep then [] :: split sep s'
      else match split sep s' with
           | l :: ls => (c :: l) :: ls
           | [] => [[c]]
           end
  end.

(** [parts.join(sep)] *)
Fixpoint join (sep : jsstring) (parts : list jsstring) : jsstring :=
  match parts with
  | [] => []
  | [p] => p
  | p :: ps => p ++ sep ++ join sep ps
  end.

(** Character classes used by the source's regular expressions. *)
Definition inRange (lo hi c : N) : bool := N.leb lo c && N.leb c hi.
Definition isDigit (c : N) : bool := inRange 48 57 c.
Definition isUpper (c : N) : bool := inRange 65 90 c.
Definition isLower (c : N) : bool := inRange 97 122 c.
(** [\w]: letters, digits and the underscore *)
Definition isWord (c : N) : bool := isDigit c || isUpper c || isLower c || N.eqb c 95.
(** [[0-9a-f]] under the [i] flag, and [[0-9A-Fa-f]] *)
Definition isHex (c : N) : bool := isDigit c || inRange 65 70 c || inRange 97 102 c.
(** Line terminators, which [.] does not match without the [s] flag. *)
Definition isLineTerminator (c : N) : bool :=
  N.eqb c 10 || N.eqb c 13 || N.eqb c 8232 || N.eqb c 8233.

(** ASCII case mapping.  Under the [i] flag (without [u]) a code unit above
    127 never canonicalizes to an ASCII one, so comparing an ASCII pattern
    character case-insensitively is ASCII case folding. *)
Definition asciiLower (c : N) : N := if isUpper c then c + 32 else c.
Definition asciiUpper (c : N) : N := if isLower c then c - 32 else c.

(** ** Backtracking regular expressions

    The matcher follows the ECMAScript semantics: a pattern is run against
    the remaining input with a continuation, alternatives are tried in
    order, a greedy star tries an iteration before leaving the loop and a
    lazy star the other way round, and an iteration that consumes nothing
    is rejected. *)

Module Regex.

Inductive regex : Type :=
| Eps : regex
| Chr : (N -> bool) -> regex
| Seq : regex -> regex -> regex
| Alt : regex -> regex -> regex
| Star : bool -> regex -> regex      (* [true]: greedy [*], [false]: lazy [*?] *)
| NotAhead : regex -> regex          (* [(?!r)] *)
| WordB : regex                      (* [\b] *)
| Bol : regex                        (* [^] under the [m] flag *)
| Group : regex -> regex.            (* [(r)] *)

(** The state of a match: the code unit before the current position (for
    [\b]), the remaining input and the captures closed so far. *)
Record mstate : Type := MState {
  before : option N;
  rest : jsstring;
  caps : list jsstring
}.

Definition cont := mstate -> option mstate.

Definition isWordOpt (o : option N) : bool :=
  match o with Some c => isWord c | None => false end.

Definition consumed (st st' : mstate) : jsstring :=
  firstn (length (rest st) - length (rest st')) (rest st).

Fixpoint star_loop (ma : mstate -> cont -> option mstate) (greedy : bool)
    (k : cont) (fuel : nat) (st : mstate) {struct fuel} : option mstate :=
  match fuel with
  | O => None
  | S f =>
      let again st' :=
        if Nat.ltb (length (rest st')) (length (rest st))
        then star_loop ma greedy k f st' else None in
      if greedy
      then match ma st again with Some r => Some r | None => k st end
      else match k st with Some r => Some r | None => ma st again end
  end.

Fixpoint run (r : regex) : mstate -> cont -> option mstate :=
  match r with
  | Eps => fun st k => k st
  | Chr p => fun st k =>
      match rest st with
      | c :: cs => if p c then k (MState (Some c) cs (caps st)) else None
      | [] => None
      end
  | Seq a b => fun st k => run a st (fun st' => run b st' k)
  | Alt a b => fun st k =>
      match run a st k with Some r => Some r | None => run b st k end
  | Star g a => fun st k => star_loop (run a) g k (S (length (rest st))) st
  | NotAhead a => fun st k =>
      match run a st Some with Some _ => None | None => k st end
  | WordB => fun st k =>
      if xorb (isWordOpt (before st)) (isWordOpt (hd_error (rest st)))
      then k st else None
  | Bol => fun st k =>
      match before st with
      | None => k st
      | Some c => if isLineTerminator c then k st else None
      end
  | Group a => fun st k =>
      run a st (fun st' => k (MState (before st') (rest st') (caps st' ++ [consumed st st'])))
  end.

(** Derived forms. *)
Definition chr (c : N) : regex := Chr (N.eqb c).
Definition chrI (c : N) : regex := Chr (fun x => N.eqb (asciiLower x) (asciiLower c)).
Definition notChr (c : N) : regex := Chr (fun x => negb (N.eqb x c)).
Definition anyChar : regex := Chr (fun _ => true).                 (* [.] with [s] *)
Definition dot : regex := Chr (fun x => negb (isLineTerminator x)). (* [.] *)
Definition opt (r : regex) : regex := Alt r Eps.                    (* [r?] *)
Definition plus (r : regex) : regex := Seq r (Star true r).         (* [r+] *)
Fixpoint rep (n : nat) (r : regex) : regex :=                       (* [r{n}] *)
  match n with O => Eps | S n' => Seq r (rep n' r) end.
Fixpoint str (s : jsstring) : regex :=
  match s with [] => Eps | c :: s' => Seq (chr c) (str s') end.
Fixpoint strI (s : jsstring) : regex :=
  match s with [] => Eps | c :: s' => Seq (chrI c) (strI s') end.

(** One attempt at a given position: the matched text, the captures and
    the input after the match. *)
Definition exec (r : regex) (prev : option N) (s : jsstring)
  : option (jsstring * list jsstring * jsstring) :=
  match run r (MState prev s []) Some with
  | Some st' => Some (firstn (length s - length (rest st')) s, caps st', rest st')
  | None => None
  end.

(** The scan of a global ([g]) regular expression over a string: the code
    units outside matches and the matches, from left to right.  After a
    match the scan resumes at its end ([skip] counts the code units of the
    match still to pass); an empty match advances by one code unit. *)
Inductive piece : Type :=
| Unit : N -> piece
| Hit : jsstring -> list jsstring -> piece.

Fixpoint pieces (r : regex) (prev : option N) (s : jsstring) (skip : nat)
  : list piece :=
  match s with
  | [] =>
      match skip, exec r prev [] with
      | O, Some (mt, cs, _) => [Hit mt cs]
      | _, _ => []
      end
  | c :: s' =>
      match skip with
      | S n => pieces r (Some c) s' n
      | O =>
          match exec r prev s with
          | Some (mt, cs, _) =>
              match mt with
              | [] => Hit mt cs :: Unit c :: pieces r (Some c) s' 0
              | _ :: mt' => Hit mt cs :: pieces r (Some c) s' (length mt')
              end
          | None => Unit c :: pieces r (Some c) s' 0
          end
      end
  end.

Definition scan (r : regex) (s : jsstring) : list piece := pieces r None s 0.

(** [s.match(/r/g)]: the matched strings ([null] is the empty list). *)
Definition matchAll (r : regex) (s : jsstring) : list jsstring :=
  flat_map (fun p => match p with Hit mt _ => [mt] | Unit _ => [] end) (scan r s).

(** The first match at or after the start of [s], as [exec], [match] and a
    non-global [replace] find it: the text before it, the match, its
    captures and the text after it. *)
Fixpoint search (r : regex) (prev : option N) (s : jsstring)
  : option (jsstring * jsstring * list jsstring * jsstring) :=
  match exec r prev s with
  | Some (mt, cs, tl) => Some ([], mt, cs, tl)
  | None =>
      match s with
      | [] => None
      | c :: s' =>
          match search r (Some c) s' with
          | Some (pre, mt, cs, tl) => Some (c :: pre, mt, cs, tl)
          | None => None
          end
      end
  end.

(** The state after a literal has been passed. *)
Definition lastOr (pre : option N) (p : jsstring) : option N :=
  match rev p with c :: _ => Some c | [] => pre end.

(** A lazy [.] tries its continuation at every position, leftmost first. *)
Fixpoint firstFrom (k : cont) (pre : option N) (s : jsstring) (cs : list jsstring)
  : option mstate :=
  match k (MState pre s cs) with
  | Some r => Some r
  | None =>
      match s with
      | c :: s' => firstFrom k (Some c) s' cs
      | [] => None
      end
  end.

End Regex.

Open Scope N_scope.

(** ** Results of code that can throw

    [Throw] carries the error as [err.toString()] prints it: the name of
    the error, a colon and the message. *)

Inductive result (A : Type) : Type :=
| Ok : A -> result A
| Throw : jsstring -> result A.
Arguments Ok {A} _.
Arguments Throw {A} _.

Definition bind {A B : Type} (r : result A) (f : A -> result B) : result B :=
  match r with
  | Ok a => f a
  | Throw e => Throw e
  end.

(** [pieces.map(f).join('')] where [f] can throw: the first throw wins. *)
Fixpoint concatResults (l : list (result jsstring)) : result jsstring :=
  match l with
  | [] => Ok []
  | r :: l' =>
      bind r (fun a => bind (concatResults l') (fun b => Ok (a ++ b)))
  end.

(** ** Numbers and code points *)

Definition hexDigit (d : N) : N := if N.ltb d 10 then 48 + d else 87 + d.

Fixpoint toString16_aux (fuel : nat) (n : N) (acc : jsstring) : jsstring :=
  match fuel with
  | O => acc
  | S f =>
      let acc' := hexDigit (N.modulo n 16) :: acc in
      if N.eqb (N.div n 16) 0 then acc' else toString16_aux f (N.div n 16) acc'
  end.

(** [n.toString(16)] *)
Definition toString16 (n : N) : jsstring :=
  toString16_aux (S (N.size_nat n)) n [].

(** [s.padStart(len, c)] for a one-unit filler *)
Definition padStart (len : nat) (c : N) (s : jsstring) : jsstring :=
  repeat c (len - length s)%nat ++ s.

Definition hexValue (c : N) : N :=
  if isDigit c then c - 48
  else if inRange 65 70 c then c - 55
  else c - 87.

(** [parseInt(s, 16)] on a string that starts with a hexadecimal digit (as
    at both call sites): the value of the longest prefix of digits; [None]
    stands for [NaN]. *)
Fixpoint parseHexFrom (acc : N) (s : jsstring) : N :=
  match s with
  | c :: s' => if isHex c then parseHexFrom (acc * 16 + hexValue c) s' else acc
  | [] => acc
  end.

Definition parseInt16 (s : jsstring) : option N :=
  match s with
  | c :: _ => if isHex c then Some (parseHexFrom 0 s) else None
  | [] => None
  end.

Definition isHighSurrogate (c : N) : bool := inRange 55296 56319 c.
Definition isLowSurrogate (c : N) : bool := inRange 56320 57343 c.

(** [String.fromCodePoint(cp)]; a [RangeError] above U+10FFFF. *)
Definition fromCodePoint (cp : N) : result jsstring :=
  if N.leb cp 65535 then Ok [cp]
  else if N.leb cp 1114111
  then Ok [55296 + N.div (cp - 65536) 1024; 56320 + N.modulo (cp - 65536) 1024]
  else Throw (lit "RangeError: Invalid code point").

(** The strings a [for (let char of str)] loop yields: one per code point,
    a surrogate pair together, a lone surrogate alone. *)
Fixpoint stringIterator (s : jsstring) : list jsstring :=
  match s with
  | [] => []
  | c :: s' =>
      match s' with
      | d :: s'' =>
          if isHighSurrogate c && isLowSurrogate d
          then [c; d] :: stringIterator s''
          else [c] :: stringIterator s'
      | [] => [[c]]
      end
  end.

(** [char.codePointAt(0)] ([undefined] on the empty string is 0 here) *)
Definition codePointAt0 (char : jsstring) : N :=
  match char with
  | c :: d :: _ =>
      if isHighSurrogate c && isLowSurrogate d
      then 65536 + (c - 55296) * 1024 + (d - 56320)
      else c
  | [c] => c
  | [] => 0
  end.

(** White space and line terminators, as [trim] and [\s] take them. *)
Definition isWhiteSpace (c : N) : bool :=
  inRange 9 13 c || N.eqb c 32 || N.eqb c 160 || N.eqb c 5760 ||
  inRange 8192 8202 c || N.eqb c 8232 || N.eqb c 8233 || N.eqb c 8239 ||
  N.eqb c 8287 || N.eqb c 12288 || N.eqb c 65279.

Fixpoint trimStart (s : jsstring) : jsstring :=
  match s with
  | c :: s' => if isWhiteSpace c then trimStart s' else s
  | [] => []
  end.

Definition trim (s : jsstring) : jsstring :=
  rev (trimStart (rev (trimStart s))).

(** A string is truthy when it is not empty. *)
Definition truthy (s : jsstring) : bool :=
  match s with [] => false | _ :: _ => true end.

(** [String.fromCharCode(b).toUpperCase()] for a code below 256. *)
Definition toUpperCaseLatin1 (b : N) : jsstring :=
  if isLower b then [b - 32]
  else if N.eqb b 181 then [924]
  else if N.eqb b 223 then [83; 83]
  else if N.eqb b 255 then [376]
  else if inRange 224 254 b && negb (N.eqb b 247) then [b - 32]
  else [b].

(** [s.toLowerCase()] as far as the source depends on it: it is applied to
    a matched marker from which only ASCII entities are read afterwards,
    and a code unit above 127 lower-cases to text without any character of
    an entity, so such units stay as they are. *)
Definition toLowerCase (s : jsstring) : jsstring := map asciiLower s.

(** [s.toUpperCase()] on the output of [toString(16)] (digits and a-f). *)
Definition toUpperCase (s : jsstring) : jsstring := map asciiUpper s.

(** A byte as two hexadecimal digits: [b.toString(16).padStart(2, '0')] *)
Definition hexPair (b : N) : jsstring := padStart 2 48 (toString16 b).

Definition isLowerHexDigit (c : N) : bool := isDigit c || inRange 97 102 c.

(** ** The worker ([run-tex.js]): helpers shared by both variants *)

Module Worker.
Import Regex.

Infix ";;" := Seq (at level 61, right associativity).

(** [getUnicode(char)] *)
Definition getUnicode (char : jsstring) : jsstring :=
  lit "U+" ++ padStart 4 48 (toUpperCase (toString16 (codePointAt0 char))).

(** [/(?:U\+|0x)?([0-9A-Fa-f]+)/] *)
Definition unicodeRegex : regex :=
  opt (Alt (str (lit "U+")) (str (lit "0x"))) ;; Group (plus (Chr isHex)).

(** [fromUnicode(code)] *)
Definition fromUnicode (code : jsstring) : result jsstring :=
  match search unicodeRegex None code with
  | None => Throw (lit "Error: Invalid Unicode code point: " ++ code)
  | Some (_, _, cs, _) =>
      let hex := nth 0 cs [] in
      match parseInt16 hex with
      | Some codePoint => fromCodePoint codePoint
      | None => Throw (lit "RangeError: Invalid code point")
      end
  end.

(** [findNotSupportedChars(str)] *)
Definition findNotSupportedChars (str : jsstring) : list jsstring :=
  filter (fun char => N.ltb 255 (codePointAt0 char)) (stringIterator str).

(** [(?:[^&]|&(?!(#xf[0-9a-f]{3};)))*?] *)
Definition anyNotPUA : regex :=
  Star false
    (Alt (notChr 38)
         (chr 38 ;; NotAhead (Group (strI (lit "#xf") ;; rep 3 (Chr isHex) ;; chr 59)))).

(** The marker pattern of [replaceNotSupportedCharMarkers], flags [gi]. *)
Definition markerRegex : regex :=
  strI (lit "&#xf05b;") ;; anyNotPUA ;;
  strI (lit "&#xf055;") ;; anyNotPUA ;;
  strI (lit "&#xf02b;") ;;
  rep 4 (Group (anyNotPUA ;; strI (lit "&#xf0") ;; rep 2 (Chr isHex) ;; chr 59)) ;;
  anyNotPUA ;;
  strI (lit "&#xf05d;").

(** [/&#xf0[0-9a-f]{2};/gi] *)
Definition entityRegex : regex :=
  strI (lit "&#xf0") ;; rep 2 (Chr isHex) ;; chr 59.

(** [entities.slice(3, 7)] *)
Definition slice37 (A : Type) (l : list A) : list A := firstn 4 (skipn 3 l).

(** The replacement callback of [replaceNotSupportedCharMarkers]. *)
Definition restoreMarker (mt : jsstring) : result jsstring :=
  let entities := matchAll entityRegex (toLowerCase mt) in
  if negb (Nat.eqb (length entities) 8) then Ok mt
  else
    let unicode :=
      fold_left
        (fun unicode entity =>
           let hexCode := skipn 3 entity in
           let code := match parseInt16 hexCode with Some v => v | None => 0 end in
           unicode ++ toUpperCaseLatin1 (N.land code 255))
        (slice37 entities) (lit "U+") in
    fromUnicode unicode.

(** [replaceNotSupportedCharMarkers(str)] *)
Definition replaceNotSupportedCharMarkers (str : jsstring) : result jsstring :=
  concatResults
    (map (fun p => match p with
                   | Unit c => Ok [c]
                   | Hit mt _ => restoreMarker mt
                   end)
         (scan markerRegex str)).

(** [/<svg\b[^>]*>(.*?)<\/svg>/gs] *)
Definition svgRegex : regex :=
  str (lit "<svg") ;; WordB ;; Star true (notChr 62) ;; chr 62 ;;
  Group (Star false anyChar) ;; str (lit "</svg>").

(** [/<svg\b[^>]*>/i] *)
Definition openTagRegex : regex :=
  strI (lit "<svg") ;; WordB ;; Star true (notChr 62) ;; chr 62.

(** The [exec] loop of [composeToSVG]: every match with its first group. *)
Definition svgMatches (html : jsstring) : list (jsstring * jsstring) :=
  flat_map (fun p => match p with
                     | Hit mt cs => [(mt, nth 0 cs [])]
                     | Unit _ => []
                     end)
           (scan svgRegex html).

(** [composeToSVG(html)] *)
Definition composeToSVG (html : jsstring) : jsstring :=
  let matches := svgMatches html in
  match matches with
  | [] => []
  | firstMatch :: _ =>
      let firstTag := fst firstMatch in
      let contentParts := map snd matches in
      let mergedContent := concat contentParts in
      match search openTagRegex None firstTag with
      | None => []
      | Some (_, openTag, _, _) => openTag ++ mergedContent ++ lit "</svg>"
      end
  end.

(** *** Element configuration

    [elt.dataset] is a [DOMStringMap]: the element's [data-*] attributes in
    attribute order, each name once.  The worker receives a copy of it. *)

Definition dataset := list (jsstring * jsstring).

(** [dataset.key]; [None] is [undefined]. *)
Fixpoint getData (d : dataset) (key : jsstring) : option jsstring :=
  match d with
  | [] => None
  | (k, v) :: d' => if jseqb k key then Some v else getData d' key
  end.

(** Truthiness of [dataset.key]: present and not empty. *)
Definition isSet (d : dataset) (key : string) : bool :=
  match getData d (lit key) with Some v => truthy v | None => false end.

(** [dataset.key || ''] *)
Definition orEmpty (d : dataset) (key : string) : jsstring :=
  match getData d (lit key) with Some v => v | None => [] end.

(** *** Input assembly *)

(** [/\\begin\s*\{\s*document\s*\}/i] *)
Definition beginDocumentRegex : regex :=
  strI (lit "\begin") ;; Star true (Chr isWhiteSpace) ;; chr 123 ;;
  Star true (Chr isWhiteSpace) ;; strI (lit "document") ;;
  Star true (Chr isWhiteSpace) ;; chr 125.

(** [/^(?:[^%\n]|\\%)*?\\usepackage(?:\[[^\]]*\])?\s*\{\s*tikz-cd\s*\}/im] *)
Definition tikzcdRegex : regex :=
  Bol ;;
  Star false (Alt (Chr (fun c => negb (N.eqb c 37) && negb (N.eqb c 10)))
                  (str (lit "\%"))) ;;
  strI (lit "\usepackage") ;;
  opt (chr 91 ;; Star true (notChr 93) ;; chr 93) ;;
  Star true (Chr isWhiteSpace) ;; chr 123 ;;
  Star true (Chr isWhiteSpace) ;; strI (lit "tikz-cd") ;;
  Star true (Chr isWhiteSpace) ;; chr 125.

Definition isMatch (r : regex) (s : jsstring) : bool :=
  match search r None s with Some _ => true | None => false end.

Definition newline : jsstring := [10].

(** The [reduce] over [Object.entries(texPackages)]. *)
Definition usePackages (texPackages : list (jsstring * jsstring)) : jsstring :=
  fold_left
    (fun usePackageString thisPackage =>
       usePackageString ++
       lit "\usepackage" ++
       (if truthy (snd thisPackage) then lit "[" ++ snd thisPackage ++ lit "]" else []) ++
       lit "{" ++ fst thisPackage ++ lit "}" ++ newline)
    texPackages [].

(** One fallback directive, as the [reduce] over [unsupportChars] adds it. *)
Definition newunicodechar (char : jsstring) : jsstring :=
  lit "\newunicodechar{" ++ char ++ lit "}{\rlap{[" ++ getUnicode char ++
  lit "]}\phantom{xx}}" ++ newline.

Definition fallbackDirectives (unsupportChars : list jsstring) : jsstring :=
  fold_left
    (fun newunicodecharString char => newunicodecharString ++ newunicodechar char)
    unsupportChars [].

(** The preamble both variants synthesize from the options and the scan. *)
Definition preamble (texPackages : list (jsstring * jsstring)) (d : dataset)
    (unsupportChars : list jsstring) : jsstring :=
  usePackages texPackages ++
  (if isSet d "tikzLibraries"
   then lit "\usetikzlibrary{" ++ orEmpty d "tikzLibraries" ++ lit "}" ++ newline
   else []) ++
  orEmpty d "addToPreamble" ++
  (if Nat.ltb 0 (length unsupportChars)
   then lit "\usepackage{newunicodechar}" ++ newline else []) ++
  fallbackDirectives unsupportChars.

Definition wrapDocument (input : jsstring) : jsstring :=
  lit "\begin{document}" ++ newline ++ input ++ newline ++
  lit "\end{document}" ++ newline.

Module FirstVariant.

(** Line filter of the first variant: blank lines go. *)
Definition filterLines (input : jsstring) : jsstring :=
  join newline (filter (fun line => truthy (trim line)) (split 10 input)).

(** The document handed to the engine. *)
Definition assemble (texPackages : list (jsstring * jsstring)) (d : dataset)
    (input0 : jsstring) : jsstring :=
  let input := filterLines input0 in
  let unsupportChars := findNotSupportedChars input in
  lit "\tikzset{every matrix/.append style={nodes in empty cells}}" ++ newline ++
  preamble texPackages d unsupportChars ++
  (if isMatch beginDocumentRegex input then input else wrapDocument input).

End FirstVariant.

Module SecondVariant.

(** Line filter of the second variant: blank lines and every line that
    contains [\documentclass] go. *)
Definition filterLines (input : jsstring) : jsstring :=
  join newline
    (filter (fun line => truthy (trim line) && negb (includes (lit "\documentclass") line))
            (split 10 input)).

(** The document handed to the engine. *)
Definition assemble (texPackages : list (jsstring * jsstring)) (d : dataset)
    (input0 : jsstring) : jsstring :=
  let input := filterLines input0 in
  let unsupportChars := findNotSupportedChars input in
  let '(head, body) :=
    match search beginDocumentRegex None input with
    | Some (before_, mt, _, after_) => (before_, mt ++ after_)
    | None => ([], wrapDocument input)
    end in
  let head := preamble texPackages d unsupportChars ++ head in
  let head :=
    if isMatch tikzcdRegex head
    then head ++ lit "\tikzcdset{nodes in empty cells}" ++ newline else head in
  head ++ body.

End SecondVariant.

(** *** The engine run

    The [library] module (the engine's file system and its driver) and the
    converter [dvi2html] are not part of the sources: the state of the
    library and its operations are parameters.  [readFileSync] returning
    [None] stands for its throwing on a missing file, which the source
    catches for [input.dvi] only. *)

Section Engine.

Variable lib : Type.
Variable writeFileSync : jsstring -> jsstring -> lib -> lib.
Variable readFileSync : jsstring -> lib -> option (list N).
Variable deleteEverything : lib -> lib.
Variable setShowConsole : lib -> lib.
(** [setMemory], [setInput], [setFileLoader], the instantiation of the
    WebAssembly module and [executeAsync]: one run of TeX on [input.tex]. *)
Variable executeAsync : lib -> lib.
(** [new TextDecoder('utf-8').decode(log)] *)
Variable decode : list N -> jsstring.
Variable dvi2html : list N -> jsstring.
(** [JSON.parse(dataset.texPackages)] read through [Object.entries]; it
    throws on text that is not JSON. *)
Variable parsePackages : jsstring -> result (list (jsstring * jsstring)).
(** [embedFonts(html)], which fetches font files. *)
Variable embedFonts : jsstring -> jsstring.

Definition texPackagesOf (d : dataset) : result (list (jsstring * jsstring)) :=
  if isSet d "texPackages" then parsePackages (orEmpty d "texPackages") else Ok [].

(** What both variants do between the assembly of the input and the
    post-processing: write [input.tex], run TeX, read the log and the dvi,
    clean up, convert.  The result is the converter's markup. *)
Definition typeset (d : dataset) (input : jsstring) (l : lib)
  : result jsstring * lib :=
  let l := if isSet d "showConsole" then setShowConsole l else l in
  let l := writeFileSync (lit "input.tex") input l in
  let l := executeAsync l in
  match readFileSync (lit "input.log") l with
  | None => (Throw (lit "Error: file not found: input.log"), l)
  | Some logBytes =>
      let log := decode logBytes in
      match readFileSync (lit "input.dvi") l with
      | None =>
          (* Clean up the library for the next run. *)
          let l := deleteEverything l in
          (Throw (lit "Error: fail to generate dvi, log:" ++ newline ++ log), l)
      | Some dvi =>
          (* Clean up the library for the next run. *)
          let l := deleteEverything l in
          (Ok (dvi2html dvi), l)
      end
  end.

(** [texify(input, dataset)] of the first variant *)
Definition texify1 (input : jsstring) (d : dataset) (l : lib)
  : result jsstring * lib :=
  match texPackagesOf d with
  | Throw e => (Throw e, l)
  | Ok texPackages =>
      let input := FirstVariant.assemble texPackages d input in
      let '(r, l) := typeset d input l in
      (bind r replaceNotSupportedCharMarkers, l)
  end.

(** [texify(input, dataset)] of the second variant *)
Definition texify (input : jsstring) (d : dataset) (l : lib)
  : result jsstring * lib :=
  match texPackagesOf d with
  | Throw e => (Throw e, l)
  | Ok texPackages =>
      let input := SecondVariant.assemble texPackages d input in
      let '(r, l) := typeset d input l in
      (bind r (fun html =>
         bind (replaceNotSupportedCharMarkers html) (fun html =>
           let html := composeToSVG html in
           Ok (if isSet d "embedFonts" then embedFonts html else html))), l)
  end.

(** The library after the engine has run on [doc]. *)
Definition afterRun (d : dataset) (doc : jsstring) (l : lib) : lib :=
  executeAsync (writeFileSync (lit "input.tex") doc
                  (if isSet d "showConsole" then setShowConsole l else l)).

(** The error of a run that left no dvi. *)
Definition dviError (log : jsstring) : jsstring :=
  lit "Error: fail to generate dvi, log:" ++ newline ++ log.

(** Whether a result is the error of a run that left no dvi. *)
Definition isDviError (r : result jsstring) : bool :=
  match r with
  | Throw e => startsWith (lit "Error: fail to generate dvi, log:") e
  | Ok _ => false
  end.

(** The post-processing of the second variant. *)
Definition postprocess (d : dataset) (html : jsstring) : result jsstring :=
  bind (replaceNotSupportedCharMarkers html) (fun html =>
    Ok (if isSet d "embedFonts" then embedFonts (composeToSVG html)
        else composeToSVG html)).

End Engine.

End Worker.

(** ** The page script ([index.js]) *)

Module Page.
Import Regex.
Import Worker.

(** *** Fingerprints *)

(** [QuoteJSONString]: the characters JSON escapes, lone surrogates
    included; everything else stands for itself. *)
Definition jsonEscape (char : jsstring) : jsstring :=
  match char with
  | [c] =>
      if N.eqb c 8 then lit "\b"
      else if N.eqb c 9 then lit "\t"
      else if N.eqb c 10 then lit "\n"
      else if N.eqb c 12 then lit "\f"
      else if N.eqb c 13 then lit "\r"
      else if N.eqb c 34 then [92; 34]
      else if N.eqb c 92 then [92; 92]
      else if N.ltb c 32 || isHighSurrogate c || isLowSurrogate c
      then lit "\u" ++ padStart 4 48 (toString16 c)
      else [c]
  | _ => char
  end.

Definition quoteJSONString (s : jsstring) : jsstring :=
  [34] ++ concat (map jsonEscape (stringIterator s)) ++ [34].

(** [JSON.stringify(elt.dataset)]: the properties in their own order. *)
Definition JSON_stringify (d : dataset) : jsstring :=
  lit "{" ++
  join (lit ",")
       (map (fun kv => quoteJSONString (fst kv) ++ lit ":" ++ quoteJSONString (snd kv)) d) ++
  lit "}".

(** UTF-8 of one code point; a lone surrogate is encoded as U+FFFD. *)
Definition utf8CodePoint (cp : N) : list N :=
  if N.ltb cp 128 then [cp]
  else if N.ltb cp 2048 then [192 + N.div cp 64; 128 + N.modulo cp 64]
  else if isHighSurrogate cp || isLowSurrogate cp then [239; 191; 189]
  else if N.ltb cp 65536
  then [224 + N.div cp 4096; 128 + N.modulo (N.div cp 64) 64; 128 + N.modulo cp 64]
  else [240 + N.div cp 262144; 128 + N.modulo (N.div cp 4096) 64;
        128 + N.modulo (N.div cp 64) 64; 128 + N.modulo cp 64].

(** [new TextEncoder().encode(string)] *)
Definition encode (s : jsstring) : list N :=
  flat_map (fun char => utf8CodePoint (codePointAt0 char)) (stringIterator s).

(** SHA-1 (FIPS 180-4), the digest [crypto.subtle.digest('SHA-1', _)]
    computes, on 32-bit words. *)
Module SHA1.

Definition w32 (x : N) : N := N.modulo x 4294967296.
Definition add32 (x y : N) : N := w32 (x + y).
Definition rotl (n : N) (x : N) : N :=
  w32 (N.lor (N.shiftl x n) (N.shiftr (w32 x) (32 - n))).
Definition not32 (x : N) : N := 4294967295 - w32 x.

(** The message followed by 0x80, zeros, and its bit length on 64 bits. *)
Definition pad (msg : list N) : list N :=
  let len := N.of_nat (length msg) in
  let zeros := N.to_nat (N.modulo (119 - N.modulo len 64) 64) in
  let bits := len * 8 in
  msg ++ [128] ++ repeat 0 zeros ++
  map (fun i => N.modulo (N.shiftr bits (8 * (7 - i))) 256) [0; 1; 2; 3; 4; 5; 6; 7].

Fixpoint words (fuel : nat) (bytes : list N) : list N :=
  match fuel, bytes with
  | S f, a :: b :: c :: d :: tl =>
      (a * 16777216 + b * 65536 + c * 256 + d) :: words f tl
  | _, _ => []
  end.

(** The message schedule, newest word first: [W.(t)] is the head. *)
Fixpoint schedule (n : nat) (w : list N) : list N :=
  match n with
  | O => w
  | S n' =>
      let x := N.lxor (N.lxor (nth 2 w 0) (nth 7 w 0)) (N.lxor (nth 13 w 0) (nth 15 w 0)) in
      schedule n' (rotl 1 x :: w)
  end.

Definition f (t : nat) (b c d : N) : N :=
  if Nat.ltb t 20 then N.lor (N.land b c) (N.land (not32 b) d)
  else if Nat.ltb t 40 then N.lxor (N.lxor b c) d
  else if Nat.ltb t 60 then N.lor (N.lor (N.land b c) (N.land b d)) (N.land c d)
  else N.lxor (N.lxor b c) d.

Definition K (t : nat) : N :=
  if Nat.ltb t 20 then 1518500249
  else if Nat.ltb t 40 then 1859775393
  else if Nat.ltb t 60 then 2400959708
  else 3395469782.

Definition state := (N * N * N * N * N)%type.

Fixpoint rounds (t : nat) (ws : list N) (s : state) : state :=
  match ws with
  | [] => s
  | w :: ws' =>
      let '(a, b, c, d, e) := s in
      let tmp := add32 (add32 (add32 (add32 (rotl 5 a) (f t b c d)) e) (K t)) w in
      rounds (S t) ws' (tmp, a, rotl 30 b, c, d)
  end.

Definition block (h : state) (blk : list N) : state :=
  let ws := rev (schedule 64 (rev (words 16 blk))) in
  let '(a, b, c, d, e) := rounds 0 ws h in
  let '(h0, h1, h2, h3, h4) := h in
  (add32 h0 a, add32 h1 b, add32 h2 c, add32 h3 d, add32 h4 e).

Fixpoint blocks (fuel : nat) (h : state) (bytes : list N) : state :=
  match fuel, bytes with
  | S fuel', _ :: _ => blocks fuel' (block h (firstn 64 bytes)) (skipn 64 bytes)
  | _, _ => h
  end.

Definition initial : state :=
  (1732584193, 4023233417, 2562383102, 271733878, 3285377520).

Definition wordBytes (w : N) : list N :=
  [N.modulo (N.div w 16777216) 256; N.modulo (N.div w 65536) 256;
   N.modulo (N.div w 256) 256; N.modulo w 256].

(** The 20 bytes of the digest. *)
Definition digest (msg : list N) : list N :=
  let p := pad msg in
  let '(h0, h1, h2, h3, h4) := blocks (length p) initial p in
  wordBytes h0 ++ wordBytes h1 ++ wordBytes h2 ++ wordBytes h3 ++ wordBytes h4.

End SHA1.

(** [createHash(string)] *)
Definition createHash (string : jsstring) : jsstring :=
  concat (map hexPair (SHA1.digest (encode string))).

(** A renderable element: its [data-*] attributes and the text of its
    first child node. *)
Record element : Type := Element {
  data : dataset;
  nodeValue : jsstring
}.

(** [elt.sourceHash], as [loadCachedOrSetupLoader] sets it. *)
Definition sourceHash (elt : element) : jsstring :=
  createHash (JSON_stringify (data elt) ++ nodeValue elt).

(** *** Id namespacing (the post-processing of [process]) *)

Definition quote : jsstring := [34].

(** [/\bid=Qpgf[^Q]*Q/g], writing Q for the double quote *)
Definition idRegex : regex :=
  WordB ;; str (lit "id=" ++ quote ++ lit "pgf") ;; Star true (notChr 34) ;; chr 34.

(** [/id=Qpgf(G)Q/] with the group G = [.*] *)
Definition idSuffixRegex : regex :=
  str (lit "id=" ++ quote ++ lit "pgf") ;; Group (Star true dot) ;; chr 34.

(** [ids.sort((a, b) => b.length - a.length)]: a stable sort, longest
    first. *)
Fixpoint insertByLength (x : jsstring) (l : list jsstring) : list jsstring :=
  match l with
  | [] => [x]
  | y :: l' =>
      if Nat.leb (length y) (length x) then x :: l
      else y :: insertByLength x l'
  end.

Definition sortIds (ids : list jsstring) : list jsstring :=
  fold_right insertByLength [] ids.

(** [id.replace(/id=Qpgf(G)Q/, '$1')] *)
Definition pgfIdStringOf (id : jsstring) : jsstring :=
  match search idSuffixRegex None id with
  | Some (before_, _, cs, after_) => before_ ++ nth 0 cs [] ++ after_
  | None => id
  end.

(** [GetSubstitution] for a string pattern (no captures): [$$], [$&],
    [$`] and [$'] are expanded, any other [$] stands for itself. *)
Fixpoint getSubstitution (matched before_ after_ template : jsstring) : jsstring :=
  match template with
  | [] => []
  | c :: t =>
      if N.eqb c 36 then
        match t with
        | d :: t' =>
            if N.eqb d 36 then 36 :: getSubstitution matched before_ after_ t'
            else if N.eqb d 38 then matched ++ getSubstitution matched before_ after_ t'
            else if N.eqb d 96 then before_ ++ getSubstitution matched before_ after_ t'
            else if N.eqb d 39 then after_ ++ getSubstitution matched before_ after_ t'
            else c :: getSubstitution matched before_ after_ t
        | [] => [c]
        end
      else c :: getSubstitution matched before_ after_ t
  end.

(** [s.replaceAll(searchString, replaceValue)] for two strings: [pre] is
    the text already passed and [skip] the code units of a found
    occurrence still to pass. *)
Fixpoint replaceAllFrom (searchString replaceValue pre s : jsstring) (skip : nat)
  : jsstring :=
  match s with
  | [] =>
      match skip, searchString with
      | O, [] => getSubstitution [] pre [] replaceValue
      | _, _ => []
      end
  | c :: s' =>
      match skip with
      | S n => replaceAllFrom searchString replaceValue (pre ++ [c]) s' n
      | O =>
          if startsWith searchString s then
            getSubstitution searchString pre (skipn (length searchString) s) replaceValue ++
            match searchString with
            | [] => c :: replaceAllFrom searchString replaceValue (pre ++ [c]) s' 0
            | _ :: m => replaceAllFrom searchString replaceValue (pre ++ [c]) s' (length m)
            end
          else c :: replaceAllFrom searchString replaceValue (pre ++ [c]) s' 0
      end
  end.

Definition replaceAll (s searchString replaceValue : jsstring) : jsstring :=
  replaceAllFrom searchString replaceValue [] s 0.

(** Lines 110-120 of [process]: every [id=Qpgf...Q] of the engine's markup
    is rewritten, longest first, to carry the element's [sourceHash]. *)
Definition namespaceIds (sourceHash html : jsstring) : jsstring :=
  let ids := matchAll idRegex html in
  fold_left
    (fun html id =>
       let pgfIdString := pgfIdStringOf id in
       replaceAll html (lit "pgf" ++ pgfIdString)
                  (lit "pgf" ++ sourceHash ++ pgfIdString))
    (sortIds ids) html.

(** *** Batches, the queue and the element life cycle

    [processTikzScripts] is asynchronous code on one thread: between two
    suspension points ([await]) it runs without interruption, and at a
    suspension point any other batch may run.  The page is modelled as a
    transition system whose actions are the resumptions of one batch; an
    action carries what the outside world answers (the result of the
    engine, whether the cache write succeeded).  DOM operations are taken
    to succeed. *)

Inductive status : Type := success | error.

(** Effects in the order they happen.  A batch is named by the number of
    its [processTikzScripts] call and an element by its position in
    [scripts]. *)
Inductive event : Type :=
| Placeholder (b i : nat)                 (* [elt.replaceWith(elt.loader)] *)
| Injected (b i : nat) (markup : jsstring) (* [replaceWith(svg)] *)
| Broken (b i : nat)                      (* the broken-image icon *)
| LoadFinished (b i : nat)                (* [tikzjax-load-finished] *)
| RenderFinished (b i : nat) (st : status) (message : jsstring)
                                          (* [tikzjax-render-finished] *)
| EngineCall (b i : nat)                  (* [texWorker.texify(...)] *)
| CacheWrite (b i : nat)                  (* [setItem] succeeded *)
| Pushed (b : nat)                        (* [processQueue.push(...)] *)
| Shifted (b : nat).                      (* [processQueue.shift()], [resolve()] *)

Definition job := (nat * element)%type.

(** Where the asynchronous body of one [processTikzScripts] call stands. *)
Inductive pc : Type :=
| Scanning (todo texQueue : list job)     (* the [loadCachedOrSetupLoader] loop *)
| Waiting (pred : nat) (texQueue : list job) (* [await processQueue[length - 2]] *)
| Running (todo : list job)               (* the [process] loop, before [getItem] *)
| InEngine (cur : job) (todo : list job)  (* [await texWorker.texify(...)] *)
| Storing (cur : job) (svg : jsstring) (todo : list job) (* [await setItem(...)] *)
| Done.                                   (* resolved *)

Record state : Type := State {
  db : jsstring -> option jsstring;       (* the object store [svgImages] *)
  processQueue : list nat;
  batches : nat -> pc;
  nextBatch : nat;
  trace : list event                      (* newest first *)
}.

Inductive action : Type :=
| Discover (scripts : list element)       (* a call of [processTikzScripts] *)
| Scan (b : nat)                          (* one [loadCachedOrSetupLoader] *)
| AfterScan (b : nat)                     (* the end of the scan, the push *)
| Wake (b : nat)                          (* the awaited batch has resolved *)
| Probe (b : nat)                         (* [process]: the second cache look-up *)
| EngineReturn (b : nat) (r : result jsstring)
| StoreReturn (b : nat) (ok : bool)
| Finish (b : nat).                       (* the end of the [process] loop *)

Definition setBatch (bs : nat -> pc) (b : nat) (p : pc) : nat -> pc :=
  fun b' => if Nat.eqb b' b then p else bs b'.

Definition setItem (d : jsstring -> option jsstring) (key val : jsstring)
  : jsstring -> option jsstring :=
  fun k => if jseqb k key then Some val else d k.

Definition disableCache (elt : element) : bool := isSet (data elt) "disableCache".

(** [elt.dataset.disableCache ? undefined : await getItem(elt.sourceHash)],
    kept when truthy. *)
Definition savedSVG (d : jsstring -> option jsstring) (elt : element)
  : option jsstring :=
  if disableCache elt then None
  else match d (sourceHash elt) with
       | Some v => if truthy v then Some v else None
       | None => None
       end.

Definition indexed (scripts : list element) : list job :=
  combine (seq 0 (length scripts)) scripts.

Definition isDone (p : pc) : bool :=
  match p with Done => true | _ => false end.

Section Lifecycle.

(** [svg.outerHTML] of the node built from the namespaced markup wrapped in
    a [div], with its role, style and optional title. *)
Variable outerHTML : element -> jsstring -> jsstring.

Definition step (a : action) (s : state) : option state :=
  match a with
  | Discover scripts =>
      Some (State (db s) (processQueue s)
                  (setBatch (batches s) (nextBatch s) (Scanning (indexed scripts) []))
                  (S (nextBatch s)) (trace s))
  | Scan b =>
      match batches s b with
      | Scanning ((i, elt) :: todo) texQueue =>
          match savedSVG (db s) elt with
          | Some svg =>
              Some (State (db s) (processQueue s)
                          (setBatch (batches s) b (Scanning todo texQueue))
                          (nextBatch s)
                          (LoadFinished b i :: Injected b i svg :: trace s))
          | None =>
              Some (State (db s) (processQueue s)
                          (setBatch (batches s) b (Scanning todo (texQueue ++ [(i, elt)])))
                          (nextBatch s)
                          (Placeholder b i :: trace s))
          end
      | _ => None
      end
  | AfterScan b =>
      match batches s b with
      | Scanning [] [] =>
          (* End here if there is nothing to run tex on. *)
          Some (State (db s) (processQueue s) (setBatch (batches s) b Done)
                      (nextBatch s) (trace s))
      | Scanning [] texQueue =>
          let q := processQueue s ++ [b] in
          let next :=
            if Nat.ltb 1 (length q)
            then Waiting (nth (length q - 2) q O) texQueue
            else Running texQueue in
          Some (State (db s) q (setBatch (batches s) b next) (nextBatch s)
                      (Pushed b :: trace s))
      | _ => None
      end
  | Wake b =>
      match batches s b with
      | Waiting pred texQueue =>
          if isDone (batches s pred)
          then Some (State (db s) (processQueue s)
                           (setBatch (batches s) b (Running texQueue))
                           (nextBatch s) (trace s))
          else None
      | _ => None
      end
  | Probe b =>
      match batches s b with
      | Running ((i, elt) :: todo) =>
          match savedSVG (db s) elt with
          | Some svg =>
              Some (State (db s) (processQueue s)
                          (setBatch (batches s) b (Running todo)) (nextBatch s)
                          (RenderFinished b i success [] :: LoadFinished b i ::
                           Injected b i svg :: trace s))
          | None =>
              Some (State (db s) (processQueue s)
                          (setBatch (batches s) b (InEngine (i, elt) todo))
                          (nextBatch s) (EngineCall b i :: trace s))
          end
      | _ => None
      end
  | EngineReturn b r =>
      match batches s b with
      | InEngine (i, elt) todo =>
          match r with
          | Throw err =>
              Some (State (db s) (processQueue s)
                          (setBatch (batches s) b (Running todo)) (nextBatch s)
                          (RenderFinished b i error err :: Broken b i :: trace s))
          | Ok html =>
              let svg := outerHTML elt (namespaceIds (sourceHash elt) html) in
              if disableCache elt
              then Some (State (db s) (processQueue s)
                               (setBatch (batches s) b (Running todo)) (nextBatch s)
                               (RenderFinished b i success [] :: LoadFinished b i ::
                                Injected b i svg :: trace s))
              else Some (State (db s) (processQueue s)
                               (setBatch (batches s) b (Storing (i, elt) svg todo))
                               (nextBatch s) (Injected b i svg :: trace s))
          end
      | _ => None
      end
  | StoreReturn b ok =>
      match batches s b with
      | Storing (i, elt) svg todo =>
          Some (State (if ok then setItem (db s) (sourceHash elt) svg else db s)
                      (processQueue s)
                      (setBatch (batches s) b (Running todo)) (nextBatch s)
                      (RenderFinished b i success [] :: LoadFinished b i ::
                       (if ok then [CacheWrite b i] else []) ++ trace s))
      | _ => None
      end
  | Finish b =>
      match batches s b with
      | Running [] =>
          Some (State (db s) (tl (processQueue s)) (setBatch (batches s) b Done)
                      (nextBatch s) (Shifted b :: trace s))
      | _ => None
      end
  end.

Fixpoint run (acts : list action) (s : state) : option state :=
  match acts with
  | [] => Some s
  | a :: acts' =>
      match step a s with
      | Some s' => run acts' s'
      | None => None
      end
  end.

(** The page after the script has loaded: an empty queue, no batch yet. *)
Definition initial (d : jsstring -> option jsstring) : state :=
  State d [] (fun _ => Done) O [].

End Lifecycle.

End Page.

(** ** A sample library, for concrete runs

    Files in an association list, an engine that leaves a log and, when
    [dviOut] is given, a dvi, and a converter that answers with the dvi
    taken as markup. *)

Module Sample.

Definition lib := list (jsstring * list N).

Definition writeFileSync (name data : jsstring) (l : lib) : lib := (name, data) :: l.

Fixpoint readFileSync (name : jsstring) (l : lib) : option (list N) :=
  match l with
  | [] => None
  | (n, data) :: l' => if jseqb n name then Some data else readFileSync name l'
  end.

Definition deleteEverything (l : lib) : lib := [].

Definition setShowConsole (l : lib) : lib := l.

Definition executeAsync (log : jsstring) (dviOut : option (list N)) (l : lib) : lib :=
  match dviOut with
  | Some dvi => (lit "input.dvi", dvi) :: (lit "input.log", log) :: l
  | None => (lit "input.log", log) :: l
  end.

Definition decode (bytes : list N) : jsstring := bytes.
Definition dvi2html (dvi : list N) : jsstring := dvi.
Definition parsePackages (s : jsstring) : result (list (jsstring * jsstring)) := Ok [].
Definition embedFonts (html : jsstring) : jsstring := html.

(** The second variant's [texify] on the sample library. *)
Definition texify (log : jsstring) (dviOut : option (list N)) :=
  Worker.texify writeFileSync readFileSync deleteEverything setShowConsole
                (executeAsync log dviOut) decode dvi2html parsePackages embedFonts.

(** The first variant's. *)
Definition texify1 (log : jsstring) (dviOut : option (list N)) :=
  Worker.texify1 writeFileSync readFileSync deleteEverything setShowConsole
                 (executeAsync log dviOut) decode dvi2html parsePackages.

(** [[U+GGGG]] as the engine's font encodes it: a marker whose four digits
    are no hexadecimal digits. *)
Definition badMarker : jsstring :=
  lit "&#xf05b;&#xf055;&#xf02b;&#xf047;&#xf047;&#xf047;&#xf047;&#xf05d;".

End Sample.

(** ** Vocabulary for the statements about markup *)

(** The text before the first [d] of a string and the text after it. *)
Fixpoint splitAt (d : N) (s : jsstring) : option (jsstring * jsstring) :=
  match s with
  | [] => None
  | c :: s' =>
      if N.eqb c d then Some ([], s')
      else match splitAt d s' with
           | Some (a, t) => Some (c :: a, t)
           | None => None
           end
  end.

(** The text before the first occurrence of [p] in a string and the text
    after it. *)
Fixpoint findFirst (p s : jsstring) : option (jsstring * jsstring) :=
  if startsWith p s then Some ([], skipn (length p) s)
  else match s with
       | [] => None
       | c :: s' =>
           match findFirst p s' with
           | Some (b, t) => Some (c :: b, t)
           | None => None
           end
       end.

Definition closeTag : jsstring := lit "</svg>".

(** A page container: its opening tag with attributes [attrs], its body. *)
Definition container (attrs body : jsstring) : jsstring :=
  lit "<svg" ++ attrs ++ lit ">" ++ body ++ closeTag.

(** What the container pattern of [composeToSVG] finds at the start of a
    string: the attributes, the body and the text after the container. *)
Definition parseContainer (s : jsstring) : option (jsstring * jsstring * jsstring) :=
  if startsWith (lit "<svg") s then
    let r := skipn 4 s in
    if negb (Regex.isWordOpt (hd_error r)) then
      match splitAt 62 r with
      | Some (attrs, r') =>
          match findFirst closeTag r' with
          | Some (body, t) => Some (attrs, body, t)
          | None => None
          end
      | None => None
      end
    else None
  else None.

(** The matches of the [exec] loop, read off a scan. *)
Definition hitsOf (ps : list Regex.piece) : list (jsstring * jsstring) :=
  flat_map (fun p => match p with
                     | Regex.Hit mt cs => [(mt, nth 0 cs [])]
                     | Regex.Unit _ => []
                     end) ps.



(** Attributes as an opening tag can carry them: no [>], and no word
    character right after [<svg]. *)
Definition attrsOk (attrs : jsstring) : bool :=
  negb (existsb (N.eqb 62) attrs) && negb (Regex.isWordOpt (hd_error attrs)).




(** ** The fallback marker in the converter's markup

    The engine sets the marker [[U+XXXX]] in a font whose characters the
    converter writes as private-use entities, the character of code [c] as
    [&#xf0hh;] with [hh] the code in hexadecimal: this is the shape the
    marker pattern of [replaceNotSupportedCharMarkers] reads back. *)

Definition entity (c : N) : jsstring :=
  lit "&#xf0" ++ padStart 2 48 (toString16 c) ++ lit ";".

(** The marker of a character, as the fallback directive spells it. *)
Definition marker (char : jsstring) : jsstring :=
  lit "[" ++ Worker.getUnicode char ++ lit "]".

Definition renderedMarker (char : jsstring) : jsstring :=
  concat (map entity (marker char)).

(** The entities of a marker with text in between: entity, text, entity,
    text, and so on. *)
Fixpoint spread (entities gaps : list jsstring) : jsstring :=
  match entities with
  | [] => []
  | e :: es =>
      match gaps with
      | [] => e ++ spread es []
      | g :: gs => e ++ g ++ spread es gs
      end
  end.

(** Text without an ampersand: no entity starts in it. *)
Definition plain (s : jsstring) : bool := negb (existsb (N.eqb 38) s).

(** The digits of [getUnicode]. *)
Definition isUpperHexDigit (c : N) : bool := isDigit c || inRange 65 70 c.

(** A check of [n] numbers in a row, and of every number below a bound. *)
Fixpoint allFrom (start : N) (n : nat) (p : N -> bool) : bool :=
  match n with
  | O => true
  | S m => p start && allFrom (N.succ start) m p
  end.

Definition allBelow (bound : N) (p : N -> bool) : bool :=
  allFrom 0 (N.to_nat bound) p.

(** What reading an entity back relies on, for one code: two hexadecimal
    digits in lower case, and the code recovered from them as
    [restoreMarker] does it. *)
Definition entityCode (e : jsstring) : N :=
  N.land (match parseInt16 (skipn 3 e) with Some v => v | None => 0 end) 255.

Definition entityOk (c : N) : bool :=
  match hexPair c with
  | [x; y] =>
      isHex x && isHex y && N.eqb (asciiLower x) x && N.eqb (asciiLower y) y &&
      N.eqb (entityCode (entity c)) c &&
      implb (isUpperHexDigit c) (jseqb (toUpperCaseLatin1 c) [c])
  | _ => false
  end.

(** What restoring a marker relies on, for one code point: four digits
    after the prefix, and [fromUnicode] reading them back. *)
Definition unicodeOk (cp : N) : bool :=
  match Worker.getUnicode [cp] with
  | [u; p; c1; c2; c3; c4] =>
      N.eqb u 85 && N.eqb p 43 &&
      isUpperHexDigit c1 && isUpperHexDigit c2 && isUpperHexDigit c3 &&
      isUpperHexDigit c4 &&
      match Worker.fromUnicode (Worker.getUnicode [cp]) with
      | Ok s => jseqb s [cp]
      | Throw _ => false
      end
  | _ => false
  end.

(** ** Id tokens

    What the id pattern of [process] finds: the attribute [id] with a
    value that starts with [pgf], up to its closing quote. *)

Definition idPrefix : jsstring := lit "id=" ++ Page.quote ++ lit "pgf".

Definition idToken (name : jsstring) : jsstring := idPrefix ++ name ++ Page.quote.

(** The name of a token and the text after it, at the start of a string
    that follows the code unit [prev]. *)
Definition parseId (prev : option N) (s : jsstring) : option (jsstring * jsstring) :=
  if xorb (Regex.isWordOpt prev) (Regex.isWordOpt (hd_error s)) then
    if startsWith idPrefix s then splitAt 34 (skipn 7 s) else None
  else None.

(** The text of a token between the prefix and the closing quote. *)
Definition idName (id : jsstring) : jsstring := removelast (skipn 7 id).

(** A literal in which the apostrophe stands for the double quote. *)
Definition q34 (s : string) : jsstring :=
  map (fun c => if N.eqb c 39 then 34 else c) (lit s).

Unset Implicit Arguments.

(** ** Reading a trace *)

Module Trace.
Import Page.

(** The batch an event belongs to. *)
Definition batchOf (e : event) : nat :=
  match e with
  | Placeholder b _ | Injected b _ _ | Broken b _ | LoadFinished b _
  | RenderFinished b _ _ _ | EngineCall b _ | CacheWrite b _
  | Pushed b | Shifted b => b
  end.

(** Whether an event concerns element [i] of batch [b]. *)
Definition about (b i : nat) (e : event) : bool :=
  match e with
  | Placeholder b' i' | Injected b' i' _ | Broken b' i' | LoadFinished b' i'
  | RenderFinished b' i' _ _ | EngineCall b' i' | CacheWrite b' i' =>
      Nat.eqb b' b && Nat.eqb i' i
  | Pushed _ | Shifted _ => false
  end.

(** The events of one element, newest first. *)
Definition eventsOf (b i : nat) (tr : list event) : list event :=
  filter (about b i) tr.


Definition isLoadFinished (e : event) : bool :=
  match e with LoadFinished _ _ => true | _ => false end.



(** How often [tikzjax-load-finished] was fired for an element. *)
Definition loads (b i : nat) (tr : list event) : nat :=
  length (filter isLoadFinished (eventsOf b i tr)).


(** The batches pushed onto [processQueue] and those shifted off it, in
    the order it happened. *)
Definition pushed (tr : list event) : list nat :=
  rev (flat_map (fun e => match e with Pushed b => [b] | _ => [] end) tr).

Definition shifted (tr : list event) : list nat :=
  rev (flat_map (fun e => match e with Shifted b => [b] | _ => [] end) tr).

(** A batch is at work when it is in its [process] loop. *)
Definition atWork (p : pc) : bool :=
  match p with
  | Running _ | InEngine _ _ | Storing _ _ _ => true
  | _ => false
  end.

Definition inEngine (p : pc) : bool :=
  match p with InEngine _ _ => true | _ => false end.

End Trace.

(** ** The stages of an element

    Where an element of a batch stands, read off the batch's program
    counter, and the events an element can have behind it at each stage. *)

Module Stage.
Import Page Trace.

Definition memb (i : nat) (l : list job) : bool :=
  existsb (fun j => Nat.eqb (fst j) i) l.

Inductive stage : Type :=
| Unscanned                 (* not yet looked up *)
| Awaiting                  (* on [texQueue], placeholder shown *)
| Calling                   (* the engine is running on it *)
| Saving (svg : jsstring)   (* injected, its cache write is pending *)
| Handled.                  (* nothing more will happen to it *)

Definition stageOf (p : pc) (i : nat) : stage :=
  match p with
  | Scanning todo texQueue =>
      if memb i todo then Unscanned
      else if memb i texQueue then Awaiting else Handled
  | Waiting _ texQueue => if memb i texQueue then Awaiting else Handled
  | Running todo => if memb i todo then Awaiting else Handled
  | InEngine cur todo =>
      if Nat.eqb (fst cur) i then Calling
      else if memb i todo then Awaiting else Handled
  | Storing cur svg todo =>
      if Nat.eqb (fst cur) i then Saving svg
      else if memb i todo then Awaiting else Handled
  | Done => Handled
  end.

(** The positions a batch still has to deal with. *)
Definition jobsOf (p : pc) : list nat :=
  match p with
  | Scanning todo texQueue => map fst todo ++ map fst texQueue
  | Waiting _ texQueue => map fst texQueue
  | Running todo => map fst todo
  | InEngine cur todo => fst cur :: map fst todo
  | Storing cur _ todo => fst cur :: map fst todo
  | Done => []
  end.

(** The complete histories of an element, newest event first: none (no
    such element), a cache hit on discovery, a cache hit in [process], an
    engine failure, a render without and with a cache write. *)
Definition complete (b i : nat) (evs : list event) : Prop :=
  evs = [] \/
  (exists svg, evs = [LoadFinished b i; Injected b i svg]) \/
  (exists svg, evs = [RenderFinished b i success []; LoadFinished b i;
                      Injected b i svg; Placeholder b i]) \/
  (exists err, evs = [RenderFinished b i error err; Broken b i;
                      EngineCall b i; Placeholder b i]) \/
  (exists svg, evs = [RenderFinished b i success []; LoadFinished b i;
                      Injected b i svg; EngineCall b i; Placeholder b i]) \/
  (exists svg, evs = [RenderFinished b i success []; LoadFinished b i;
                      CacheWrite b i; Injected b i svg; EngineCall b i;
                      Placeholder b i]).

Definition history (b i : nat) (st : stage) (evs : list event) : Prop :=
  match st with
  | Unscanned => evs = []
  | Awaiting => evs = [Placeholder b i]
  | Calling => evs = [EngineCall b i; Placeholder b i]
  | Saving svg => evs = [Injected b i svg; EngineCall b i; Placeholder b i]
  | Handled => complete b i evs
  end.

(** What holds of every element in every state the page can reach. *)
Record elementsOk (s : state) : Prop := {
  e_history : forall b i,
    history b i (stageOf (batches s b) i) (eventsOf b i (trace s));
  e_nodup : forall b, NoDup (jobsOf (batches s b));
  e_fresh : forall b, (nextBatch s <= b)%nat ->
    batches s b = Done /\ forall i, eventsOf b i (trace s) = []
}.

End Stage.

(** ** A sample page, for concrete runs *)

Module Scenario.
Import Page.

(** The serialization of the injected node, reduced to the wrapping. *)
Definition outerHTML (elt : element) (html : jsstring) : jsstring :=
  lit "<div>" ++ html ++ lit "</div>".

Definition picture : element := Element [] (lit "\draw (0,0) -- (1,1);").

Definition engineMarkup : jsstring :=
  q34 "<svg><clipPath id='pgfcp1'/><g clip-path='url(#pgfcp1)'/></svg>".

(** The element is discovered with an empty cache, rendered and stored;
    then the same markup is discovered again. *)
Definition rediscovery : list action :=
  [Discover [picture]; Scan 0; AfterScan 0; Probe 0;
   EngineReturn 0 (Ok engineMarkup); StoreReturn 0 true; Finish 0;
   Discover [picture]; Scan 1; AfterScan 1].

(** Three batches A, B, C discovered one after the other while A is with
    the engine. *)
Definition threeBatches : list action :=
  [Discover [picture]; Scan 0; AfterScan 0; Probe 0;
   Discover [Element [] (lit "B")]; Scan 1; AfterScan 1;
   Discover [Element [] (lit "C")]; Scan 2; AfterScan 2;
   EngineReturn 0 (Ok engineMarkup); StoreReturn 0 true; Finish 0;
   Wake 1; Probe 1].

Definition emptyDb : jsstring -> option jsstring := fun _ => None.

(** The same two bindings in the two attribute orders. *)
Definition cfgA : Worker.dataset := [(lit "width", lit "10"); (lit "height", lit "20")].
Definition cfgB : Worker.dataset := [(lit "height", lit "20"); (lit "width", lit "10")].

End Scenario.

(** ** The queue discipline, as properties of a trace *)

Module Queue.
Import Page Trace.

(** What the queue needs to know of a batch. *)
Inductive kind : Type :=
| Scans                      (* not pushed yet *)
| Waits (pred : nat)         (* pushed, waiting for [pred] *)
| Works                      (* pushed, in its [process] loop *)
| Over.                      (* resolved, or not born yet *)

Definition kindOf (p : pc) : kind :=
  match p with
  | Scanning _ _ => Scans
  | Waiting pred _ => Waits pred
  | Running _ | InEngine _ _ | Storing _ _ _ => Works
  | Done => Over
  end.

(** Every engine call was made by the oldest batch not yet shifted off the
    queue: at that moment the batches pushed so far were the batches shifted
    so far, then the caller, then the batches waiting behind it. *)
Fixpoint callsOrdered (tr : list event) : Prop :=
  match tr with
  | [] => True
  | e :: older =>
      match e with
      | EngineCall b _ => exists q, pushed older = shifted older ++ b :: q
      | _ => True
      end /\ callsOrdered older
  end.

(** No event belongs to a batch that had been shifted off the queue
    before. *)
Fixpoint quiet (tr : list event) : Prop :=
  match tr with
  | [] => True
  | e :: older => ~ In (batchOf e) (shifted older) /\ quiet older
  end.

(** What holds of the queue in every state the page can reach. *)
Record queueOk (s : state) : Prop := {
  q_order : pushed (trace s) = shifted (trace s) ++ processQueue s;
  q_nodup : NoDup (pushed (trace s));
  q_works : forall b, kindOf (batches s b) = Works ->
    hd_error (processQueue s) = Some b;
  q_waits : forall b pred, kindOf (batches s b) = Waits pred ->
    hd_error (processQueue s) = Some b \/
    exists q1 q2, processQueue s = q1 ++ pred :: b :: q2;
  q_members : forall b, In b (processQueue s) ->
    kindOf (batches s b) = Works \/ exists pred, kindOf (batches s b) = Waits pred;
  q_scans : forall b, kindOf (batches s b) = Scans -> ~ In b (pushed (trace s));
  q_over : forall b, In b (shifted (trace s)) -> kindOf (batches s b) = Over;
  q_fresh : forall b, (nextBatch s <= b)%nat ->
    kindOf (batches s b) = Over /\ ~ In b (pushed (trace s));
  q_calls : callsOrdered (trace s);
  q_quiet : quiet (trace s)
}.

Definition isElementEvent (e : event) : bool :=
  match e with Pushed _ | Shifted _ => false | _ => true end.

Definition isEngineCall (e : event) : bool :=
  match e with EngineCall _ _ => true | _ => false end.

End Queue.

(** ** Matches as pieces of the input *)

(** [t] is what is left of [s] after some of it has been passed. *)
Definition suffixOf (t s : jsstring) : Prop := exists x, s = x ++ t.

(** ** The cache, as properties of a run

    A run of the page is a list of actions from the initial state.  Batch
    [b] is the [b]-th call of [processTikzScripts] and its element [i] the
    [i]-th of the scripts it was called with. *)

Module Cache.
Import Page.

Definition scriptsOf (acts : list action) : list (list element) :=
  flat_map (fun a => match a with Discover scripts => [scripts] | _ => [] end) acts.

Definition elementAt (acts : list action) (b i : nat) : option element :=
  nth_error (nth b (scriptsOf acts) []) i.

(** The markups the engine has returned. *)
Definition engineResults (acts : list action) : list jsstring :=
  flat_map (fun a => match a with EngineReturn _ (Ok html) => [html] | _ => [] end) acts.

(** The elements a batch still holds. *)
Definition jobsIn (p : pc) : list job :=
  match p with
  | Scanning todo texQueue => todo ++ texQueue
  | Waiting _ texQueue => texQueue
  | Running todo => todo
  | InEngine cur todo => cur :: todo
  | Storing cur _ todo => cur :: todo
  | Done => []
  end.

(** The element a batch has with the engine or is storing. *)
Definition current (p : pc) : option element :=
  match p with
  | InEngine cur _ => Some (snd cur)
  | Storing cur _ _ => Some (snd cur)
  | _ => None
  end.

(** Whether the object store has a usable entry under a key. *)
Definition cached (d : jsstring -> option jsstring) (key : jsstring) : bool :=
  match d key with Some v => truthy v | None => false end.

Section Render.

Variable outerHTML : element -> jsstring -> jsstring.

(** What [process] injects for an element from the engine's markup. *)
Definition rendered (elt : element) (html : jsstring) : jsstring :=
  outerHTML elt (namespaceIds (sourceHash elt) html).

(** [svg] is what [process] injected for an element of the run with the
    fingerprint [key] and the cache enabled, from markup the engine
    returned. *)
Definition renderOf (acts : list action) (key svg : jsstring) : Prop :=
  exists b i elt html,
    elementAt acts b i = Some elt /\ sourceHash elt = key /\
    disableCache elt = false /\ In html (engineResults acts) /\
    svg = rendered elt html.

(** Where injected markup comes from: the element's own render, or, with
    the cache enabled, the store as it was at the start or the render of
    an element with the same fingerprint. *)
Definition provenance (d0 : jsstring -> option jsstring) (acts : list action)
    (elt : element) (svg : jsstring) : Prop :=
  (exists html, In html (engineResults acts) /\ svg = rendered elt html) \/
  (disableCache elt = false /\
   (d0 (sourceHash elt) = Some svg \/ renderOf acts (sourceHash elt) svg)).

(** What holds of the store in every state of a run. *)
Record cacheOk (d0 : jsstring -> option jsstring) (acts : list action)
    (s : state) : Prop := {
  k_next : length (scriptsOf acts) = nextBatch s;
  k_jobs : forall b i elt,
    In (i, elt) (jobsIn (batches s b)) -> elementAt acts b i = Some elt;
  k_storing : forall b i elt svg todo,
    batches s b = Storing (i, elt) svg todo ->
    disableCache elt = false /\
    exists html, In html (engineResults acts) /\ svg = rendered elt html;
  k_db : forall key v,
    db s key = Some v -> d0 key = Some v \/ renderOf acts key v;
  k_injected : forall b i svg,
    In (Injected b i svg) (trace s) ->
    exists elt, elementAt acts b i = Some elt /\ provenance d0 acts elt svg
}.

(** An engine call for an element with the cache enabled is never made
    after a cache write for an element with the same fingerprint. *)
Fixpoint noRerender (acts : list action) (tr : list event) : Prop :=
  match tr with
  | [] => True
  | e :: older =>
      match e with
      | EngineCall b' i' =>
          forall b i elt elt',
            In (CacheWrite b i) older ->
            elementAt acts b i = Some elt -> elementAt acts b' i' = Some elt' ->
            sourceHash elt = sourceHash elt' -> disableCache elt' = true
      | _ => True
      end /\ noRerender acts older
  end.

(** What holds of stored renders in every state of a run. *)
Record storedOk (acts : list action) (s : state) : Prop := {
  r_busy : forall b elt,
    current (batches s b) = Some elt -> disableCache elt = false ->
    cached (db s) (sourceHash elt) = false;
  r_written : forall b i elt,
    In (CacheWrite b i) (trace s) -> elementAt acts b i = Some elt ->
    cached (db s) (sourceHash elt) = true;
  r_order : noRerender acts (trace s)
}.

End Render.

End Cache.

(** ** Start-up ([index.js])

    [initializeWorker] derives the place of the other files from the
    address the script was loaded from. *)

Module Startup.
Import Regex.

Definition scriptName : jsstring := lit "/tikzjax.js".

(** The pattern of [initializeWorker]: the script name, an optional
    question mark followed by any code units but line terminators, and
    [$].  Without the [m] flag [$] holds exactly where no code unit
    follows, which is the look-ahead for no code unit. *)
Definition scriptRegex : regex :=
  Seq (str scriptName)
      (Seq (opt (Seq (chr 63) (Star true dot))) (NotAhead anyChar)).

(** [url.href.replace(pattern, '')] *)
Definition urlRoot (href : jsstring) : jsstring :=
  match search scriptRegex None href with
  | Some (before_, _, _, after_) => before_ ++ after_
  | None => href
  end.

(** The address of the worker script: [urlRoot] followed by [/run-tex.js]. *)
Definition workerUrl (href : jsstring) : jsstring :=
  urlRoot href ++ lit "/run-tex.js".

End Startup.

(** What may follow the script name in its address: nothing, or a query
    without a line break. *)
Definition isQuery (q : jsstring) : bool :=
  match q with
  | [] => true
  | c :: query => N.eqb c 63 && negb (existsb isLineTerminator query)
  end.

(** ** Reading a code point

    What the pattern of [fromUnicode] finds at the start of a string: the
    longest run of hexadecimal digits, after [U+] or [0x] when the run
    follows one of them. *)

Fixpoint takeWhile (p : N -> bool) (s : jsstring) : jsstring :=
  match s with
  | c :: s' => if p c then c :: takeWhile p s' else []
  | [] => []
  end.

Fixpoint dropWhile (p : N -> bool) (s : jsstring) : jsstring :=
  match s with
  | c :: s' => if p c then dropWhile p s' else s
  | [] => []
  end.

(** The digits at the start of a string and the text after them. *)
Definition hexAt (s : jsstring) : option (jsstring * jsstring) :=
  match s with
  | c :: _ => if isHex c then Some (takeWhile isHex s, dropWhile isHex s) else None
  | [] => None
  end.

(** The match, its digits and the text after it. *)
Definition parseUnicode (s : jsstring) : option (jsstring * jsstring * jsstring) :=
  match (if startsWith (lit "U+") s then hexAt (skipn 2 s) else None) with
  | Some (digits, t) => Some (lit "U+" ++ digits, digits, t)
  | None =>
      match (if startsWith (lit "0x") s then hexAt (skipn 2 s) else None) with
      | Some (digits, t) => Some (lit "0x" ++ digits, digits, t)
      | None =>
          match hexAt s with
          | Some (digits, t) => Some (digits, digits, t)
          | None => None
          end
      end
  end.

(** The digits [getUnicode] writes for a code point. *)
Definition unicodeDigits (cp : N) : jsstring :=
  padStart 4 48 (toUpperCase (toString16 cp)).

(** A string of the model is a JavaScript string when its code units are
    16-bit numbers. *)
Definition isString (s : jsstring) : bool := forallb (fun c => N.ltb c 65536) s.

(** ** The assembled document *)

(** The line the second variant adds for [tikz-cd]. *)
Definition tikzcdFix : jsstring :=
  lit "\tikzcdset{nodes in empty cells}" ++ Worker.newline.

(** The line the package option writes for one package. *)
Definition usePackageLine (thisPackage : jsstring * jsstring) : jsstring :=
  lit "\usepackage" ++
  (if truthy (snd thisPackage) then lit "[" ++ snd thisPackage ++ lit "]" else []) ++
  lit "{" ++ fst thisPackage ++ lit "}" ++ Worker.newline.

(** ** Font embedding ([run-tex.js], second variant) *)

Module Fonts.
Import Regex.

Definition isQuoteMark (c : N) : bool := N.eqb c 34 || N.eqb c 39.

(** The class of the group of [fontFamilyRegex]: anything but a semicolon
    and the two quotation marks. *)
Definition isFamilyUnit (c : N) : bool :=
  negb (N.eqb c 59) && negb (N.eqb c 34) && negb (N.eqb c 39).

(** The pattern of [embedFonts] for the attribute [font-family], flags
    [gi]: the name, white space around the equals sign, an optional
    quotation mark, the group of family units and an optional quotation
    mark. *)
Definition fontFamilyRegex : regex :=
  Seq (strI (lit "font-family"))
   (Seq (Star true (Chr isWhiteSpace))
     (Seq (chr 61)
       (Seq (Star true (Chr isWhiteSpace))
         (Seq (opt (Chr isQuoteMark))
           (Seq (Group (plus (Chr isFamilyUnit)))
                (opt (Chr isQuoteMark))))))).

(** [/<svg[^>]*>/] *)
Definition svgOpenTagRegex : regex :=
  Seq (str (lit "<svg")) (Seq (Star true (notChr 62)) (chr 62)).

(** [[...new Set(items)]]: the items in the order of their first
    occurrence. *)
Definition distinct (items : list jsstring) : list jsstring :=
  fold_left
    (fun seen item => if existsb (jseqb item) seen then seen else seen ++ [item])
    items [].

(** [[...html.matchAll(fontFamilyRegex)].map(m => m[1].trim())] *)
Definition familyNames (html : jsstring) : list jsstring :=
  flat_map (fun p => match p with
                     | Hit _ cs => [trim (nth 0 cs [])]
                     | Unit _ => []
                     end)
           (scan fontFamilyRegex html).

Definition fontFamilies (html : jsstring) : list jsstring :=
  distinct (familyNames html).

(** The rule written for a family whose font has been loaded. *)
Definition fontFaceCSS (fontFamily base64 : jsstring) : jsstring :=
  lit "@font-face" ++
  lit "{ font-family:" ++ [34] ++ fontFamily ++ [34] ++
  lit "; src:url(data:font/woff2;base64," ++ base64 ++
  lit ") format('woff2'); }".

Section Embed.

(** The address the worker was started with. *)
Variable urlRoot : jsstring.

(** The body of the [try] block up to [btoa]: the font file fetched from
    an address, read and encoded in base 64; [None] when any of it
    throws, which the source catches. *)
Variable loadFont : jsstring -> option jsstring.

Definition fontUrl (fontFamily : jsstring) : jsstring :=
  urlRoot ++ lit "/fonts/" ++ fontFamily ++ lit ".woff2".

(** The loop over the families: the rules of those that load. *)
Definition fontFaces (fontFamilies : list jsstring) : list jsstring :=
  flat_map (fun fontFamily =>
              match loadFont (fontUrl fontFamily) with
              | Some base64 => [fontFaceCSS fontFamily base64]
              | None => []
              end)
           fontFamilies.

Definition styleTag (fontFaces : list jsstring) : jsstring :=
  lit "<style>" ++ join [10] fontFaces ++ lit "</style>" ++ [10].

(** [embedFonts(html)] *)
Definition embedFonts (html : jsstring) : jsstring :=
  let fontFamilies := fontFamilies html in
  match fontFamilies with
  | [] => html
  | _ :: _ =>
      let fontFaces := fontFaces fontFamilies in
      match fontFaces with
      | [] => html
      | _ :: _ =>
          match search svgOpenTagRegex None html with
          | None => html
          | Some (before_, svgOpenTag, _, after_) =>
              (* html.slice(0, insertIndex) + styleTag + html.slice(insertIndex) *)
              (before_ ++ svgOpenTag) ++ styleTag fontFaces ++ after_
          end
      end
  end.

End Embed.

End Fonts.

(** Patterns without a group leave the captures as they are. *)
Fixpoint groupFree (r : Regex.regex) : bool :=
  match r with
  | Regex.Seq a b | Regex.Alt a b => groupFree a && groupFree b
  | Regex.Star _ a => groupFree a
  | Regex.Group _ => false
  | _ => true
  end.

(** What the opening-tag pattern of [embedFonts] finds at the start of a
    string: the attributes and the text after the tag. *)
Definition parseOpenTag (s : jsstring) : option (jsstring * jsstring) :=
  if startsWith (lit "<svg") s then splitAt 62 (skipn 4 s) else None.

(** ** Progress of the queue *)

Module Progress.
Import Page Trace Queue.





End Progress.

(** ** Reading a fingerprint's input back *)

(** The units a JSON string literal stands for, read up to its closing
    quote, and what follows the literal. *)
Fixpoint unquoteFrom (s acc : jsstring) : option (jsstring * jsstring) :=
  match s with
  | [] => None
  | c :: s1 =>
      if N.eqb c 34 then Some (rev acc, s1)
      else if N.eqb c 92 then
        match s1 with
        | e :: s2 =>
            if N.eqb e 98 then unquoteFrom s2 (8 :: acc)
            else if N.eqb e 116 then unquoteFrom s2 (9 :: acc)
            else if N.eqb e 110 then unquoteFrom s2 (10 :: acc)
            else if N.eqb e 102 then unquoteFrom s2 (12 :: acc)
            else if N.eqb e 114 then unquoteFrom s2 (13 :: acc)
            else if N.eqb e 117 then
              match s2 with
              | h1 :: h2 :: h3 :: h4 :: s3 =>
                  unquoteFrom s3 (parseHexFrom 0 [h1; h2; h3; h4] :: acc)
              | _ => None
              end
            else unquoteFrom s2 (e :: acc)
        | [] => None
        end
      else unquoteFrom s1 (c :: acc)
  end.

Definition unquote (s : jsstring) : option (jsstring * jsstring) :=
  match s with
  | c :: s1 => if N.eqb c 34 then unquoteFrom s1 [] else None
  | [] => None
  end.

(** A unit JSON writes as [\uXXXX] reads back from its four digits. *)
Definition escapeOk (c : N) : bool :=
  match padStart 4 48 (toString16 c) with
  | [h1; h2; h3; h4] => N.eqb (parseHexFrom 0 [h1; h2; h3; h4]) c
  | _ => false
  end.

(** What follows the first member's value in [JSON.stringify(dataset)],
    the text included. *)
Fixpoint membersTail (d : Worker.dataset) (text : jsstring) : jsstring :=
  match d with
  | [] => lit "}" ++ text
  | kv :: d' =>
      lit "," ++ Page.quoteJSONString (fst kv) ++ lit ":" ++
      Page.quoteJSONString (snd kv) ++ membersTail d' text
  end.

(** * Properties *)

Unset Implicit Arguments.

(** ** Strings *)

Section StringFacts.

Lemma startsWith_nil (s : jsstring) : startsWith [] s = true.
Proof. destruct s; reflexivity. Qed.

Lemma startsWith_app (p s : jsstring) : startsWith p (p ++ s) = true.
Proof.
  induction p as [|c p IH]; simpl.
  - reflexivity.
  - now rewrite N.eqb_refl.
Qed.

Lemma startsWith_spec (p s : jsstring) :
  startsWith p s = true <-> exists t, s = p ++ t.
Proof.
  revert s; induction p as [|c p IH]; intros s; simpl.
  - split; [exists s; reflexivity | destruct s; reflexivity].
  - destruct s as [|d s]; simpl.
    + split; [discriminate | intros [t Ht]; discriminate].
    + rewrite andb_true_iff, N.eqb_eq, IH. split.
      * intros [-> [t ->]]. now exists t.
      * intros [t Ht]. injection Ht as -> ->. split; [reflexivity | now exists t].
Qed.

(** A pattern without the separator cannot reach across it. *)
Lemma startsWith_sep (sep : N) (p a b : jsstring) :
  ~ In sep p -> startsWith p (a ++ sep :: b) = startsWith p a.
Proof.
  revert p; induction a as [|c a IH]; intros p Hp; destruct p as [|x p]; simpl; trivial.
  - destruct (N.eqb_spec x sep) as [->|_]; [exfalso; apply Hp; now left | reflexivity].
  - rewrite IH; [reflexivity | intros H; apply Hp; now right].
Qed.







Lemma split_nonempty (sep : N) (s : jsstring) : split sep s <> [].
Proof.
  destruct s as [|c s]; simpl; [discriminate|].
  destruct (N.eqb c sep); [discriminate|].
  destruct (split sep s); discriminate.
Qed.

End StringFacts.

(** ** The line filter of the second variant *)

Section LineFilter.
Import Worker.







End LineFilter.

(** ** Fallback directives *)

Section Fallback.
Import Worker.

Lemma fold_left_app_concat (A : Type) (f : A -> jsstring) (l : list A) (acc : jsstring) :
  fold_left (fun s x => s ++ f x) l acc = acc ++ concat (map f l).
Proof.
  revert acc; induction l as [|x l IH]; intros acc; simpl.
  - now rewrite app_nil_r.
  - now rewrite IH, app_assoc.
Qed.

Lemma fallbackDirectives_concat (cs : list jsstring) :
  fallbackDirectives cs = concat (map newunicodechar cs).
Proof. unfold fallbackDirectives. now rewrite fold_left_app_concat. Qed.

Lemma count_occ_filter (f : jsstring -> bool) (l : list jsstring) (x : jsstring) :
  count_occ jsstring_eq_dec (filter f l) x =
  if f x then count_occ jsstring_eq_dec l x else 0%nat.
Proof.
  induction l as [|y l IH]; simpl.
  - now destruct (f x).
  - destruct (f y) eqn:Ey; simpl.
    + destruct (jsstring_eq_dec y x) as [->|Hne]; rewrite IH;
        [rewrite Ey; reflexivity | reflexivity].
    + rewrite IH. destruct (jsstring_eq_dec y x) as [->|Hne];
        [rewrite Ey; reflexivity | reflexivity].
Qed.

(** The counterexample to C7: a character that occurs twice gets two
    directives. *)
Lemma repeated_character_repeats_directive :
  SecondVariant.assemble [] [] [20013; 20013] =
    lit "\usepackage{newunicodechar}" ++ newline ++
    newunicodechar [20013] ++ newunicodechar [20013] ++
    wrapDocument [20013; 20013] /\
  length (nodup jsstring_eq_dec (findNotSupportedChars [20013; 20013])) = 1%nat /\
  length (findNotSupportedChars [20013; 20013]) = 2%nat.
Proof. vm_compute. auto. Qed.

(** C7, amended.  The preamble carries one [\newunicodechar] directive per
    occurrence of a character above U+00FF in the (filtered) text, in text
    order, so a character occurring [n] times gets [n] directives; the
    [\usepackage{newunicodechar}] line is there once when at least one such
    character occurs and not at all otherwise. *)
Theorem one_directive_per_occurrence
    (texPackages : list (jsstring * jsstring)) (d : dataset) (input : jsstring) :
  let unsupportChars := findNotSupportedChars input in
  preamble texPackages d unsupportChars =
    usePackages texPackages ++
    (if isSet d "tikzLibraries"
     then lit "\usetikzlibrary{" ++ orEmpty d "tikzLibraries" ++ lit "}" ++ newline
     else []) ++
    orEmpty d "addToPreamble" ++
    (match unsupportChars with
     | [] => []
     | _ :: _ => lit "\usepackage{newunicodechar}" ++ newline
     end) ++
    concat (map newunicodechar unsupportChars) /\
  forall char,
    count_occ jsstring_eq_dec unsupportChars char =
    if N.ltb 255 (codePointAt0 char)
    then count_occ jsstring_eq_dec (stringIterator input) char
    else 0%nat.
Proof.
  cbv zeta. split.
  - unfold preamble. rewrite fallbackDirectives_concat.
    now destruct (findNotSupportedChars input).
  - intros char. unfold findNotSupportedChars.
    apply (count_occ_filter (fun c => N.ltb 255 (codePointAt0 c))).
Qed.

End Fallback.

(** ** Fingerprints *)

Section Fingerprint.
Import Worker Page.

Lemma hexPair_ok_table :
  forallb (fun n => let h := hexPair (N.of_nat n) in
                    Nat.eqb (length h) 2 && forallb isLowerHexDigit h)
          (seq 0 256) = true.
Proof. vm_compute. reflexivity. Qed.

Lemma hexPair_ok (b : N) :
  b < 256 -> length (hexPair b) = 2%nat /\ Forall (fun c => isLowerHexDigit c = true) (hexPair b).
Proof.
  intros Hb.
  pose proof hexPair_ok_table as T. rewrite forallb_forall in T.
  specialize (T (N.to_nat b)).
  rewrite N2Nat.id in T. cbv zeta in T.
  assert (Hin : In (N.to_nat b) (seq 0 256)) by (apply in_seq; lia).
  apply T in Hin. apply andb_true_iff in Hin. destruct Hin as [H1 H2].
  split; [now apply Nat.eqb_eq | now apply Forall_forall, forallb_forall].
Qed.

Lemma wordBytes_bound (w : N) : Forall (fun b => b < 256) (SHA1.wordBytes w).
Proof. unfold SHA1.wordBytes. repeat constructor; apply N.mod_lt; discriminate. Qed.

Lemma digest_bytes (msg : list N) :
  length (SHA1.digest msg) = 20%nat /\ Forall (fun b => b < 256) (SHA1.digest msg).
Proof.
  unfold SHA1.digest.
  destruct (SHA1.blocks _ _ _) as [[[[h0 h1] h2] h3] h4].
  split; [reflexivity|].
  repeat (apply Forall_app; split); apply wordBytes_bound.
Qed.

Lemma concat_hexPairs (bytes : list N) :
  Forall (fun b => b < 256) bytes ->
  length (concat (map hexPair bytes)) = (2 * length bytes)%nat /\
  Forall (fun c => isLowerHexDigit c = true) (concat (map hexPair bytes)).
Proof.
  induction 1 as [|b bytes Hb _ [IHl IHf]]; simpl.
  - split; [reflexivity | constructor].
  - destruct (hexPair_ok b Hb) as [Hl Hf].
    split.
    + rewrite length_app, Hl, IHl. lia.
    + apply Forall_app. now split.
Qed.

(** The counterexample to C3: the same bindings in another attribute order
    give another fingerprint. *)
Lemma fingerprint_depends_on_attribute_order :
  (forall key, getData Scenario.cfgA key = getData Scenario.cfgB key) /\
  sourceHash (Element Scenario.cfgA (lit "\draw (0,0) -- (1,1);")) =
    lit "6382a90d6496a16a49980a0d641a79f0d6aa1f10" /\
  sourceHash (Element Scenario.cfgB (lit "\draw (0,0) -- (1,1);")) =
    lit "e66f6691977d001b4d312644b77008d167792e2d".
Proof.
  split.
  - intros key. unfold Scenario.cfgA, Scenario.cfgB, getData, jseqb.
    destruct (list_eq_dec N.eq_dec (lit "width") key) as [E1|];
      destruct (list_eq_dec N.eq_dec (lit "height") key) as [E2|]; try reflexivity.
    rewrite <- E1 in E2. discriminate E2.
  - vm_compute. auto.
Qed.

(** C3, amended.  The fingerprint is a function of the element's
    configuration, serialized in attribute order, and of its text: it is
    always a string of 40 lower-case hexadecimal digits, the same for the
    same list of bindings and the same text.  (It is not independent of the
    order of the bindings.) *)
Theorem fingerprint_is_hex_digest (elt : element) :
  length (sourceHash elt) = 40%nat /\
  Forall (fun c => isLowerHexDigit c = true) (sourceHash elt) /\
  forall elt', data elt' = data elt -> nodeValue elt' = nodeValue elt ->
               sourceHash elt' = sourceHash elt.
Proof.
  unfold sourceHash, createHash.
  destruct (digest_bytes (encode (JSON_stringify (data elt) ++ nodeValue elt))) as [Hl Hb].
  destruct (concat_hexPairs _ Hb) as [Hl' Hf].
  split; [|split].
  - rewrite Hl', Hl. reflexivity.
  - exact Hf.
  - intros elt' -> ->. reflexivity.
Qed.

End Fingerprint.

(** ** [texify]: outcomes and clean-up *)

Section TexifyFacts.
Import Worker.

Variable lib : Type.
Variable writeFileSync : jsstring -> jsstring -> lib -> lib.
Variable readFileSync : jsstring -> lib -> option (list N).
Variable deleteEverything : lib -> lib.
Variable setShowConsole : lib -> lib.
Variable executeAsync : lib -> lib.
Variable decode : list N -> jsstring.
Variable dvi2html : list N -> jsstring.
Variable parsePackages : jsstring -> result (list (jsstring * jsstring)).
Variable embedFonts : jsstring -> jsstring.

Lemma fromUnicode_not_dviError (code : jsstring) :
  isDviError (fromUnicode code) = false.
Proof.
  unfold fromUnicode.
  destruct (Regex.search unicodeRegex None code) as [[[[pre mt] cs] tl]|]; [|reflexivity].
  destruct (parseInt16 (nth 0 cs [])) as [cp|]; [|reflexivity].
  unfold fromCodePoint. destruct (N.leb cp 65535); [reflexivity|].
  destruct (N.leb cp 1114111); reflexivity.
Qed.

Lemma restoreMarker_not_dviError (mt : jsstring) :
  isDviError (restoreMarker mt) = false.
Proof.
  unfold restoreMarker. destruct (negb _); [reflexivity|].
  apply fromUnicode_not_dviError.
Qed.

Lemma concatResults_not_dviError (l : list (result jsstring)) :
  (forall r, In r l -> isDviError r = false) ->
  isDviError (concatResults l) = false.
Proof.
  induction l as [|r l IH]; intros H; [reflexivity|].
  cbn [concatResults]. destruct r as [a|e] eqn:E; cbn [bind].
  - destruct (concatResults l) as [b'|e'].
    + reflexivity.
    + apply IH. intros x Hx. apply H. now right.
  - apply (H (Throw e)). now left.
Qed.

Lemma restore_not_dviError (html : jsstring) :
  isDviError (replaceNotSupportedCharMarkers html) = false.
Proof.
  unfold replaceNotSupportedCharMarkers. apply concatResults_not_dviError.
  intros r Hr. apply in_map_iff in Hr. destruct Hr as ([c|mt cs] & <- & _).
  - reflexivity.
  - apply restoreMarker_not_dviError.
Qed.

Lemma postprocess_not_dviError (d : dataset) (html : jsstring) :
  isDviError (postprocess embedFonts d html) = false.
Proof.
  unfold postprocess. pose proof (restore_not_dviError html) as H.
  destruct (replaceNotSupportedCharMarkers html); [reflexivity | exact H].
Qed.

(** C6, amended.  When the package option parses and the run leaves a log:
    if the run leaves no dvi, both variants raise the error that carries the
    decoded log; if it leaves one, they return the post-processed markup of
    the converter, or raise what marker restoration raises, which is never
    the error of a missing dvi; and in each of these cases the last thing
    done to the library is [deleteEverything]. *)
Theorem texify_outcomes (input : jsstring) (d : dataset) (l : lib)
    (texPackages : list (jsstring * jsstring)) (log1 log2 : list N) :
  texPackagesOf parsePackages d = Ok texPackages ->
  let l2 := afterRun writeFileSync setShowConsole executeAsync d
              (SecondVariant.assemble texPackages d input) l in
  let l1 := afterRun writeFileSync setShowConsole executeAsync d
              (FirstVariant.assemble texPackages d input) l in
  let r2 := texify writeFileSync readFileSync deleteEverything setShowConsole
                   executeAsync decode dvi2html parsePackages embedFonts input d l in
  let r1 := texify1 writeFileSync readFileSync deleteEverything setShowConsole
                    executeAsync decode dvi2html parsePackages input d l in
  readFileSync (lit "input.log") l2 = Some log2 ->
  readFileSync (lit "input.log") l1 = Some log1 ->
  (r2 = (match readFileSync (lit "input.dvi") l2 with
         | None => Throw (dviError (decode log2))
         | Some dvi => postprocess embedFonts d (dvi2html dvi)
         end, deleteEverything l2) /\
   isDviError (fst r2) =
     match readFileSync (lit "input.dvi") l2 with None => true | Some _ => false end) /\
  (r1 = (match readFileSync (lit "input.dvi") l1 with
         | None => Throw (dviError (decode log1))
         | Some dvi => replaceNotSupportedCharMarkers (dvi2html dvi)
         end, deleteEverything l1) /\
   isDviError (fst r1) =
     match readFileSync (lit "input.dvi") l1 with None => true | Some _ => false end).
Proof.
  intros Hp l2 l1 r2 r1 Hlog2 Hlog1.
  assert (E2 : r2 = (match readFileSync (lit "input.dvi") l2 with
                     | None => Throw (dviError (decode log2))
                     | Some dvi => postprocess embedFonts d (dvi2html dvi)
                     end, deleteEverything l2)).
  { unfold r2, texify. rewrite Hp. unfold typeset. cbv zeta.
    unfold l2, afterRun in *. rewrite Hlog2.
    destruct (readFileSync (lit "input.dvi") _); reflexivity. }
  assert (E1 : r1 = (match readFileSync (lit "input.dvi") l1 with
                     | None => Throw (dviError (decode log1))
                     | Some dvi => replaceNotSupportedCharMarkers (dvi2html dvi)
                     end, deleteEverything l1)).
  { clear E2. unfold r1, texify1. rewrite Hp. unfold typeset. cbv zeta.
    unfold l1, afterRun in *. rewrite Hlog1.
    destruct (readFileSync (lit "input.dvi") _); reflexivity. }
  split; split; try assumption.
  - rewrite E2. cbn [fst]. destruct (readFileSync (lit "input.dvi") l2).
    + apply postprocess_not_dviError.
    + apply (startsWith_app (lit "Error: fail to generate dvi, log:")).
  - rewrite E1. cbn [fst]. destruct (readFileSync (lit "input.dvi") l1).
    + apply restore_not_dviError.
    + apply (startsWith_app (lit "Error: fail to generate dvi, log:")).
Qed.

End TexifyFacts.

(** A run of the sample library that leaves no dvi: the hypotheses of
    [texify_outcomes] hold there. *)
Lemma texify_outcomes_sample :
  (Sample.texify (lit "! Undefined control sequence.") None (lit "\foo") [] [] =
     (Throw (Worker.dviError (lit "! Undefined control sequence.")), []) /\
   Worker.isDviError
     (fst (Sample.texify (lit "! Undefined control sequence.") None (lit "\foo") [] [])) =
     true) /\
  (Sample.texify1 (lit "! Undefined control sequence.") None (lit "\foo") [] [] =
     (Throw (Worker.dviError (lit "! Undefined control sequence.")), []) /\
   Worker.isDviError
     (fst (Sample.texify1 (lit "! Undefined control sequence.") None (lit "\foo") [] [])) =
     true).
Proof.
  exact (texify_outcomes Sample.lib Sample.writeFileSync Sample.readFileSync
           Sample.deleteEverything Sample.setShowConsole
           (Sample.executeAsync (lit "! Undefined control sequence.") None)
           Sample.decode Sample.dvi2html Sample.parsePackages Sample.embedFonts
           (lit "\foo") [] [] []
           (lit "! Undefined control sequence.") (lit "! Undefined control sequence.")
           eq_refl eq_refl eq_refl).
Defined.

(** The counterexample to C6: the run left a dvi, and [texify] raises all
    the same, because the converter's markup holds a marker that
    [fromUnicode] rejects. *)
Lemma texify_raises_with_dvi :
  Sample.readFileSync (lit "input.dvi")
    (Sample.executeAsync (lit "ok") (Some Sample.badMarker) []) =
    Some Sample.badMarker /\
  Sample.texify (lit "ok") (Some Sample.badMarker) (lit "[U+GGGG]") [] [] =
    (Throw (lit "Error: Invalid Unicode code point: U+GGGG"), []).
Proof. vm_compute. auto. Qed.

(** ** The matcher *)

Section MatcherFacts.
Import Regex.

(** A pattern sees its continuation only through its values. *)
Lemma star_loop_ext (ma : mstate -> cont -> option mstate) (g : bool) (k1 k2 : cont) :
  (forall st c1 c2, (forall x, c1 x = c2 x) -> ma st c1 = ma st c2) ->
  (forall x, k1 x = k2 x) ->
  forall fuel st, star_loop ma g k1 fuel st = star_loop ma g k2 fuel st.
Proof.
  intros Hma Hk. induction fuel as [|f IH]; intros st; simpl; [reflexivity|].
  rewrite (Hma st _ (fun st' => if Nat.ltb (length (rest st')) (length (rest st))
                                then star_loop ma g k2 f st' else None)).
  - now rewrite Hk.
  - intros x. destruct (Nat.ltb _ _); [apply IH | reflexivity].
Qed.

Lemma run_ext (r : regex) :
  forall st k1 k2, (forall x, k1 x = k2 x) -> run r st k1 = run r st k2.
Proof.
  induction r as [|p|a IHa b IHb|a IHa b IHb|g a IHa|a IHa| | |a IHa];
    intros st k1 k2 Hk; cbn [run].
  - apply Hk.
  - destruct (rest st) as [|c cs]; [reflexivity|]. destruct (p c); [apply Hk | reflexivity].
  - apply IHa. intros x. now apply IHb.
  - rewrite (IHa st k1 k2 Hk), (IHb st k1 k2 Hk). reflexivity.
  - apply star_loop_ext; assumption.
  - now rewrite Hk.
  - destruct (xorb _ _); [apply Hk | reflexivity].
  - destruct (before st) as [c|]; [destruct (isLineTerminator c)|]; auto.
  - apply IHa. intros x. apply Hk.
Qed.

(** More fuel than the input is long is as good as any. *)
Lemma star_loop_fuel (a : regex) (g : bool) (k : cont) :
  forall f1 f2 st,
    (length (rest st) < f1)%nat -> (length (rest st) < f2)%nat ->
    star_loop (run a) g k f1 st = star_loop (run a) g k f2 st.
Proof.
  induction f1 as [|f1 IH]; intros f2 st H1 H2; [lia|].
  destruct f2 as [|f2]; [lia|]. simpl.
  rewrite (run_ext a st _
             (fun st' => if Nat.ltb (length (rest st')) (length (rest st))
                         then star_loop (run a) g k f2 st' else None)).
  - reflexivity.
  - intros x. destruct (Nat.ltb_spec (length (rest x)) (length (rest st))); [|reflexivity].
    apply IH; lia.
Qed.

(** The loop of a star, one iteration unfolded. *)
Lemma run_star (g : bool) (a : regex) (st : mstate) (k : cont) :
  run (Star g a) st k =
  let again := fun st' =>
    if Nat.ltb (length (rest st')) (length (rest st))
    then run (Star g a) st' k else None in
  if g then match run a st again with Some r => Some r | None => k st end
  else match k st with Some r => Some r | None => run a st again end.
Proof.
  cbv zeta. change (run (Star g a) st k)
    with (star_loop (run a) g k (S (length (rest st))) st).
  cbn [star_loop].
  rewrite (run_ext a st _
             (fun st' => if Nat.ltb (length (rest st')) (length (rest st))
                         then run (Star g a) st' k else None)).
  - reflexivity.
  - intros x. destruct (Nat.ltb_spec (length (rest x)) (length (rest st))); [|reflexivity].
    change (run (Star g a) x k) with (star_loop (run a) g k (S (length (rest x))) x).
    apply star_loop_fuel; lia.
Qed.

(** A star over a class of code units. *)
Lemma run_star_class (g : bool) (p : N -> bool) (pre : option N) (s : jsstring)
    (cs : list jsstring) (k : cont) :
  run (Star g (Chr p)) (MState pre s cs) k =
  match s with
  | c :: s' =>
      if p c then
        if g then match run (Star g (Chr p)) (MState (Some c) s' cs) k with
                  | Some r => Some r
                  | None => k (MState pre s cs)
                  end
        else match k (MState pre s cs) with
             | Some r => Some r
             | None => run (Star g (Chr p)) (MState (Some c) s' cs) k
             end
      else k (MState pre s cs)
  | [] => k (MState pre s cs)
  end.
Proof.
  rewrite run_star. cbv zeta. cbn [run rest caps].
  destruct s as [|c s'].
  - destruct g; [reflexivity | now destruct (k _)].
  - destruct (p c).
    + cbn [rest length]. rewrite (proj2 (Nat.ltb_lt _ _)) by lia. reflexivity.
    + destruct g; [reflexivity | now destruct (k _)].
Qed.

Lemma lastOr_cons (pre : option N) (c : N) (p : jsstring) :
  lastOr pre (c :: p) = lastOr (Some c) p.
Proof.
  unfold lastOr. simpl. destruct (rev p) as [|x l] eqn:E; simpl; reflexivity.
Qed.

Lemma run_str (p : jsstring) (pre : option N) (s : jsstring) (cs : list jsstring) (k : cont) :
  run (str p) (MState pre s cs) k =
  if startsWith p s then k (MState (lastOr pre p) (skipn (length p) s) cs) else None.
Proof.
  revert pre s; induction p as [|c p IH]; intros pre s.
  - reflexivity.
  - cbn [str run rest caps chr]. destruct s as [|d s]; [reflexivity|].
    cbn [startsWith length skipn]. rewrite (N.eqb_sym c d).
    destruct (N.eqb d c) eqn:E; [|reflexivity].
    apply N.eqb_eq in E. subst d. rewrite IH, lastOr_cons. reflexivity.
Qed.

Lemma run_seq (a b : regex) (st : mstate) (k : cont) :
  run (Seq a b) st k = run a st (fun st' => run b st' k).
Proof. reflexivity. Qed.

Lemma run_wordb (st : mstate) (k : cont) :
  run WordB st k =
  if xorb (isWordOpt (before st)) (isWordOpt (hd_error (rest st))) then k st else None.
Proof. reflexivity. Qed.

Lemma run_group (a : regex) (st : mstate) (k : cont) :
  run (Group a) st k =
  run a st (fun st' => k (MState (before st') (rest st')
                                 (caps st' ++ [firstn (length (rest st) - length (rest st')) (rest st)]))).
Proof. reflexivity. Qed.

End MatcherFacts.

(** ** The container pattern *)

Section ContainerFacts.
Import Regex Worker.

(** A greedy class up to its delimiter stops at the first delimiter. *)
Lemma run_until (d : N) (s : jsstring) (pre : option N) (cs : list jsstring) (k : cont) :
  run (Star true (notChr d)) (MState pre s cs) (fun st' => run (chr d) st' k) =
  match splitAt d s with
  | Some (_, t) => k (MState (Some d) t cs)
  | None => None
  end.
Proof.
  unfold notChr. revert pre; induction s as [|c s IH]; intros pre.
  - rewrite run_star_class. reflexivity.
  - rewrite run_star_class. cbn [splitAt]. rewrite IH.
    cbn [run chr rest caps]. rewrite (N.eqb_sym d c).
    destruct (N.eqb c d) eqn:E; cbn [negb].
    + apply N.eqb_eq in E. subst c. reflexivity.
    + destruct (splitAt d s) as [[a t]|]; [|reflexivity].
      now destruct (k _).
Qed.

Lemma run_lazy_any (s : jsstring) (pre : option N) (cs : list jsstring) (k : cont) :
  run (Star false anyChar) (MState pre s cs) k = firstFrom k pre s cs.
Proof.
  unfold anyChar.
  revert pre; induction s as [|c s IH]; intros pre; rewrite run_star_class.
  - cbn [firstFrom]. now destruct (k _).
  - cbn [firstFrom]. now rewrite IH.
Qed.

Lemma lastOr_nonempty (pre : option N) (p : jsstring) :
  p <> [] -> lastOr pre p = lastOr None p.
Proof.
  unfold lastOr. intros H. destruct (rev p) eqn:E; [|reflexivity].
  apply (f_equal (@rev N)) in E. rewrite rev_involutive in E. contradiction.
Qed.

(** The group [(.*?)] before a literal captures the text up to the first
    occurrence of the literal. *)
Lemma firstFrom_literal (p : jsstring) (s0 done s : jsstring) (pre : option N)
    (cs : list jsstring) :
  p <> [] -> s0 = done ++ s ->
  firstFrom (fun st' => run (str p)
               (MState (before st') (rest st')
                       (caps st' ++ [firstn (length s0 - length (rest st')) s0]))
               Some) pre s cs =
  match findFirst p s with
  | Some (b, t) => Some (MState (lastOr None p) t (cs ++ [done ++ b]))
  | None => None
  end.
Proof.
  intros Hp. revert done pre; induction s as [|c s IH]; intros done pre Hs0.
  - cbn [firstFrom findFirst before rest caps]. rewrite run_str.
    destruct p as [|x p]; [contradiction|]. reflexivity.
  - cbn [firstFrom findFirst before rest caps]. rewrite run_str.
    destruct (startsWith p (c :: s)) eqn:E.
    + f_equal. f_equal; [now apply lastOr_nonempty|].
      f_equal. f_equal. subst s0. rewrite length_app.
      replace (length done + length (c :: s) - length (c :: s))%nat
        with (length done) by lia.
      rewrite firstn_app, firstn_all, Nat.sub_diag. cbn [firstn].
      now rewrite !app_nil_r.
    + rewrite (IH (done ++ [c]) (Some c)) by (now rewrite <- app_assoc).
      destruct (findFirst p s) as [[b t]|]; [|reflexivity].
      now rewrite <- app_assoc.
Qed.

Lemma startsWith_length (p s : jsstring) :
  startsWith p s = true -> firstn (length p) s = p /\ s = p ++ skipn (length p) s.
Proof.
  intros H. apply startsWith_spec in H. destruct H as [t ->].
  rewrite firstn_app, firstn_all, Nat.sub_diag, skipn_app, skipn_all, Nat.sub_diag.
  cbn [firstn skipn]. now rewrite app_nil_r.
Qed.

Lemma splitAt_spec (d : N) (s a t : jsstring) :
  splitAt d s = Some (a, t) -> s = a ++ d :: t /\ existsb (N.eqb d) a = false.
Proof.
  revert a t; induction s as [|c s IH]; intros a t; cbn [splitAt]; [discriminate|].
  destruct (N.eqb c d) eqn:E.
  - intros H. injection H as <- <-. apply N.eqb_eq in E. now subst.
  - destruct (splitAt d s) as [[a' t']|]; [|discriminate].
    intros H. injection H as <- <-.
    destruct (IH a' t' eq_refl) as [-> Hn]. split; [reflexivity|].
    cbn [existsb]. now rewrite (N.eqb_sym d c), E.
Qed.

Lemma splitAt_app (d : N) (a t : jsstring) :
  existsb (N.eqb d) a = false -> splitAt d (a ++ d :: t) = Some (a, t).
Proof.
  induction a as [|c a IH]; cbn [existsb app splitAt].
  - now rewrite N.eqb_refl.
  - rewrite (N.eqb_sym d c). destruct (N.eqb c d); [discriminate|].
    cbn [orb]. intros H. now rewrite IH.
Qed.

Lemma findFirst_spec (p s b t : jsstring) :
  findFirst p s = Some (b, t) -> s = b ++ p ++ t.
Proof.
  revert b t; induction s as [|c s IH]; intros b t; cbn [findFirst].
  - destruct (startsWith p []) eqn:E; [|discriminate].
    intros H. injection H as <- <-. now apply startsWith_length in E.
  - destruct (startsWith p (c :: s)) eqn:E.
    + intros H. injection H as <- <-. now apply startsWith_length in E.
    + destruct (findFirst p s) as [[b' t']|]; [|discriminate].
      intros H. injection H as <- <-. now rewrite (IH b' t' eq_refl).
Qed.

(** What the pattern finds is what [parseContainer] describes. *)
Lemma run_until_seq (d : N) (R : regex) (s : jsstring) (pre : option N)
    (cs : list jsstring) (k : cont) :
  run (Star true (notChr d) ;; chr d ;; R) (MState pre s cs) k =
  match splitAt d s with
  | Some (_, t) => run R (MState (Some d) t cs) k
  | None => None
  end.
Proof. exact (run_until d s pre cs (fun st => run R st k)). Qed.

Lemma run_until_end (d : N) (s : jsstring) (pre : option N)
    (cs : list jsstring) (k : cont) :
  run (Star true (notChr d) ;; chr d) (MState pre s cs) k =
  match splitAt d s with
  | Some (_, t) => k (MState (Some d) t cs)
  | None => None
  end.
Proof. exact (run_until d s pre cs k). Qed.

Lemma firstn_app_length (A : Type) (m t : list A) :
  firstn (length (m ++ t) - length t) (m ++ t) = m.
Proof.
  rewrite length_app. replace (length m + length t - length t)%nat with (length m) by lia.
  rewrite firstn_app, firstn_all, Nat.sub_diag. cbn [firstn]. now rewrite app_nil_r.
Qed.

(** What the pattern finds is what [parseContainer] describes. *)
Lemma exec_svgRegex (prev : option N) (s : jsstring) :
  exec svgRegex prev s =
  match parseContainer s with
  | Some (a, b, t) => Some (container a b, [b], t)
  | None => None
  end.
Proof.
  unfold exec, svgRegex, parseContainer.
  rewrite run_seq, run_str.
  destruct (startsWith (lit "<svg") s) eqn:E; [|reflexivity].
  apply startsWith_length in E. destruct E as [_ E].
  change (length (lit "<svg")) with 4%nat in *.
  set (r := skipn 4 s) in *.
  rewrite run_seq, run_wordb. cbn [before rest].
  change (isWordOpt (lastOr prev (lit "<svg"))) with true.
  cbn [xorb]. destruct (isWordOpt (hd_error r)); cbn [negb]; [reflexivity|].
  rewrite run_until_seq.
  destruct (splitAt 62 r) as [[a r']|] eqn:Ea; [|reflexivity].
  rewrite run_seq, run_group, run_lazy_any.
  cbn [rest caps before].
  rewrite (firstFrom_literal (lit "</svg>") r' [] r') by (discriminate || reflexivity).
  change (lit "</svg>") with closeTag.
  destruct (findFirst closeTag r') as [[b t]|] eqn:Eb; [|reflexivity].
  cbn [rest caps app]. f_equal. f_equal. f_equal.
  apply splitAt_spec in Ea. destruct Ea as [Ea _].
  apply findFirst_spec in Eb.
  rewrite E, Ea, Eb. unfold container.
  set (m := lit "<svg" ++ a ++ lit ">" ++ b ++ closeTag).
  replace (lit "<svg" ++ a ++ 62 :: b ++ closeTag ++ t) with (m ++ t).
  - apply firstn_app_length.
  - unfold m. now rewrite <- !app_assoc.
Qed.

End ContainerFacts.

(** ** Multi-page composition *)

Section Composition.
Import Regex Worker.

Lemma pieces_skip (r : regex) (x t : jsstring) (prev : option N) :
  pieces r prev (x ++ t) (length x) = pieces r (lastOr prev x) t 0.
Proof.
  revert prev; induction x as [|c x IH]; intros prev.
  - reflexivity.
  - cbn [app length pieces]. rewrite IH, lastOr_cons. reflexivity.
Qed.

Lemma pieces_hit (r : regex) (m t t' : jsstring) (cs : list jsstring) (prev : option N) :
  m <> [] -> exec r prev (m ++ t) = Some (m, cs, t') ->
  pieces r prev (m ++ t) 0 = Hit m cs :: pieces r (lastOr prev m) t 0.
Proof.
  intros Hm He. destruct m as [|c m]; [contradiction|].
  cbn [app pieces]. cbn [app] in He. rewrite He.
  rewrite pieces_skip, lastOr_cons. reflexivity.
Qed.

Lemma pieces_miss (r : regex) (c : N) (s : jsstring) (prev : option N) :
  exec r prev (c :: s) = None ->
  pieces r prev (c :: s) 0 = Unit c :: pieces r (Some c) s 0.
Proof. intros He. cbn [pieces]. now rewrite He. Qed.

(** Every match of a scan is a match of the pattern somewhere. *)
Lemma pieces_hits (r : regex) (s : jsstring) :
  forall prev skip m cs,
    In (Hit m cs) (pieces r prev s skip) ->
    exists prev' s' t, exec r prev' s' = Some (m, cs, t).
Proof.
  induction s as [|c s IH]; intros prev skip m cs; cbn [pieces].
  - destruct skip; [|intros []].
    destruct (exec r prev []) as [[[m0 cs0] t0]|] eqn:E; [|intros []].
    intros [H|[]]. injection H as <- <-. now exists prev, [], t0.
  - destruct skip as [|n]; [|apply IH].
    destruct (exec r prev (c :: s)) as [[[m0 cs0] t0]|] eqn:E.
    + destruct m0 as [|x m0].
      * intros [H|[H|H]]; [|discriminate H|now apply IH in H].
        injection H as <- <-. now exists prev, (c :: s), t0.
      * intros [H|H]; [|now apply IH in H].
        injection H as <- <-. now exists prev, (c :: s), t0.
    + intros [H|H]; [discriminate H | now apply IH in H].
Qed.




Lemma findFirst_eq (p s : jsstring) :
  findFirst p s =
  if startsWith p s then Some ([], skipn (length p) s)
  else match s with
       | [] => None
       | c :: s' =>
           match findFirst p s' with
           | Some (b, t) => Some (c :: b, t)
           | None => None
           end
       end.
Proof. destruct s; reflexivity. Qed.


(** The first occurrence stays the first when the text after it goes. *)
Lemma findFirst_here (p : jsstring) : findFirst p p = Some ([], []).
Proof.
  rewrite findFirst_eq. rewrite <- (app_nil_r p) at 2.
  rewrite startsWith_app. now rewrite skipn_all.
Qed.

Lemma findFirst_trim (p s b t : jsstring) :
  findFirst p s = Some (b, t) -> findFirst p (b ++ p) = Some (b, []).
Proof.
  revert b; induction s as [|c s IH]; intros b; rewrite findFirst_eq.
  - destruct (startsWith p []); [|discriminate]. intros H. injection H as Hb Ht.
    subst b. apply findFirst_here.
  - destruct (startsWith p (c :: s)) eqn:E.
    + intros H. injection H as Hb Ht. subst b. apply findFirst_here.
    + destruct (findFirst p s) as [[b' t']|] eqn:Ef; [|discriminate].
      intros H. injection H as Hb Ht. subst b t'.
      rewrite findFirst_eq. cbn [app].
      destruct (startsWith p (c :: b' ++ p)) eqn:E'.
      * exfalso. apply startsWith_spec in E'. destruct E' as [u Hu].
        apply findFirst_spec in Ef. subst s.
        assert (H : startsWith p (c :: b' ++ p ++ t) = true).
        { apply startsWith_spec. exists (u ++ t).
          rewrite (app_assoc p u t), <- Hu. cbn [app]. now rewrite <- app_assoc. }
        rewrite H in E. discriminate.
      * now rewrite (IH b' eq_refl).
Qed.



Lemma hd_error_app_cons (a : jsstring) (d : N) (t : jsstring) :
  isWordOpt (hd_error a) = false -> isWord d = false ->
  isWordOpt (hd_error (a ++ d :: t)) = false.
Proof. destruct a; cbn; auto. Qed.



(** What [parseContainer] finds is a container that can be found again. *)
Lemma parseContainer_sound (s a b t : jsstring) :
  parseContainer s = Some (a, b, t) ->
  attrsOk a = true /\ findFirst closeTag (b ++ closeTag) = Some (b, []).
Proof.
  unfold parseContainer.
  destruct (startsWith (lit "<svg") s); [|discriminate].
  destruct (isWordOpt (hd_error (skipn 4 s))) eqn:Hw; [discriminate|]. cbn [negb].
  destruct (splitAt 62 (skipn 4 s)) as [[a' r']|] eqn:Ea; [|discriminate].
  destruct (findFirst closeTag r') as [[b' t']|] eqn:Eb; [|discriminate].
  intros H. injection H as <- <- <-.
  apply splitAt_spec in Ea. destruct Ea as [Ea Hn].
  split.
  - unfold attrsOk. rewrite Hn. cbn [negb andb].
    rewrite Ea in Hw. destruct a'; [reflexivity|]. cbn in Hw |- *. now rewrite Hw.
  - now apply findFirst_trim in Eb.
Qed.

Lemma run_strI_self (p t : jsstring) (pre : option N) (cs : list jsstring) (k : cont) :
  run (strI p) (MState pre (p ++ t) cs) k = k (MState (lastOr pre p) t cs).
Proof.
  revert pre; induction p as [|c p IH]; intros pre; [reflexivity|].
  cbn [strI app]. rewrite run_seq. cbn [run chrI rest caps].
  rewrite N.eqb_refl, IH, lastOr_cons. reflexivity.
Qed.

Lemma exec_openTagRegex (a b : jsstring) (prev : option N) :
  attrsOk a = true ->
  exec openTagRegex prev (container a b) =
  Some (lit "<svg" ++ a ++ lit ">", [], b ++ closeTag).
Proof.
  unfold attrsOk. rewrite andb_true_iff, !negb_true_iff. intros [Ha Hw].
  unfold exec, openTagRegex, container.
  rewrite run_seq, run_strI_self, run_seq, run_wordb. cbn [before rest].
  change (isWordOpt (lastOr prev (lit "<svg"))) with true.
  change (lit ">" ++ b ++ closeTag) with (62 :: b ++ closeTag).
  rewrite hd_error_app_cons by (assumption || reflexivity). cbn [xorb].
  rewrite run_until_end, splitAt_app by assumption.
  cbn [rest caps]. f_equal. f_equal. f_equal.
  replace (lit "<svg" ++ a ++ 62 :: b ++ closeTag)
    with ((lit "<svg" ++ a ++ lit ">") ++ b ++ closeTag)
    by (now rewrite <- !app_assoc).
  apply firstn_app_length.
Qed.

Lemma search_hit (r : regex) (prev : option N) (s mt tl : jsstring) (cs : list jsstring) :
  exec r prev s = Some (mt, cs, tl) -> search r prev s = Some ([], mt, cs, tl).
Proof. intros H. destruct s; cbn [search]; now rewrite H. Qed.







Lemma hitsOf_In (ps : list piece) (x : jsstring * jsstring) :
  In x (hitsOf ps) -> exists m cs, In (Hit m cs) ps /\ x = (m, nth 0 cs []).
Proof.
  unfold hitsOf. rewrite in_flat_map. intros [[c|m cs] [Hin Hx]]; [destruct Hx|].
  destruct Hx as [<-|[]]. now exists m, cs.
Qed.

(** Every match of [composeToSVG]'s loop is a container. *)
Lemma svgMatches_sound (html mt b : jsstring) :
  In (mt, b) (svgMatches html) ->
  exists a, mt = container a b /\ attrsOk a = true /\
            findFirst closeTag (b ++ closeTag) = Some (b, []).
Proof.
  intros H. apply hitsOf_In in H. destruct H as (m & cs & Hin & Hx).
  apply pieces_hits in Hin. destruct Hin as (prev' & s' & t & He).
  rewrite exec_svgRegex in He.
  destruct (parseContainer s') as [[[a b'] t']|] eqn:Ep; [|discriminate].
  injection He as <- <- <-. cbn [nth] in Hx. injection Hx as -> ->.
  apply parseContainer_sound in Ep. now exists a.
Qed.





End Composition.

(** ** Applying a post-processing step twice *)

Section Twice.
Import Regex Worker Page.









End Twice.

(** ** Two defects *)

Section Defects.
Import Regex Worker Page.

(** C4.  The marker of a character above U+FFFF has five or six digits,
    the marker pattern asks for four: the emoji U+1F600 is found by the
    scan and gets its directive, but its rendered marker comes back from
    [replaceNotSupportedCharMarkers] as it went in, while the marker of
    U+4E2D is restored. *)
Lemma astral_marker_is_not_restored :
  findNotSupportedChars [55357; 56832] = [[55357; 56832]] /\
  getUnicode [55357; 56832] = lit "U+1F600" /\
  replaceNotSupportedCharMarkers (renderedMarker [55357; 56832]) =
    Ok (renderedMarker [55357; 56832]) /\
  fromUnicode (lit "U+1F600") = Ok [55357; 56832] /\
  replaceNotSupportedCharMarkers (renderedMarker [20013]) = Ok [20013].
Proof. vm_compute. repeat split. Qed.


End Defects.

(** ** The life cycle of an element *)

Section LifecycleFacts.
Import Page Trace Stage.

Variable outerHTML : element -> jsstring -> jsstring.

Lemma about_unique (b i b' i' : nat) (e : event) :
  about b i e = true -> about b' i' e = true -> b' = b /\ i' = i.
Proof.
  destruct e; cbn [about]; try discriminate;
    rewrite !andb_true_iff, !Nat.eqb_eq; intros [<- <-] [<- <-]; auto.
Qed.

Lemma eventsOf_app (b i : nat) (evs tr : list event) :
  eventsOf b i (evs ++ tr) = eventsOf b i evs ++ eventsOf b i tr.
Proof. apply filter_app. Qed.

Lemma eventsOf_none (b i : nat) (evs : list event) :
  (forall e, In e evs -> about b i e = false) -> eventsOf b i evs = [].
Proof.
  induction evs as [|e evs IH]; intros H; [reflexivity|].
  unfold eventsOf. cbn [filter]. rewrite (H e) by now left.
  apply IH. intros x Hx. apply H. now right.
Qed.

(** A step that concerns element [i] of batch [b] leaves the others as
    they are. *)
Lemma history_step (s : state) (b i : nat) (newpc : pc) (evs : list event) :
  (forall e, In e evs -> about b i e = true \/ forall b' i', about b' i' e = false) ->
  (forall i', i' <> i -> stageOf newpc i' = stageOf (batches s b) i') ->
  history b i (stageOf newpc i) (eventsOf b i (evs ++ trace s)) ->
  (forall b' i', history b' i' (stageOf (batches s b') i') (eventsOf b' i' (trace s))) ->
  forall b' i',
    history b' i' (stageOf (setBatch (batches s) b newpc b') i')
            (eventsOf b' i' (evs ++ trace s)).
Proof.
  intros Hev Hst Hnew Hold b' i'.
  assert (Hother : b' <> b \/ i' <> i -> eventsOf b' i' (evs ++ trace s) = eventsOf b' i' (trace s)).
  { intros Hne. rewrite eventsOf_app, eventsOf_none; [reflexivity|].
    intros e He. destruct (Hev e He) as [H|H]; [|apply H].
    destruct (about b' i' e) eqn:E; [|reflexivity].
    destruct (about_unique b i b' i' e H E). tauto. }
  unfold setBatch. destruct (Nat.eqb_spec b' b) as [->|Hb].
  - destruct (Nat.eq_dec i' i) as [->|Hi]; [exact Hnew|].
    rewrite Hother by auto. rewrite Hst by assumption. apply Hold.
  - rewrite Hother by auto. apply Hold.
Qed.

Lemma memb_app (i : nat) (l1 l2 : list job) :
  memb i (l1 ++ l2) = memb i l1 || memb i l2.
Proof. apply existsb_app. Qed.

Lemma memb_false (i : nat) (l : list job) :
  ~ In i (map fst l) -> memb i l = false.
Proof.
  induction l as [|[j e] l IH]; intros H; [reflexivity|].
  cbn [memb existsb fst]. destruct (Nat.eqb_spec j i) as [->|_].
  - exfalso. apply H. now left.
  - apply IH. intros Hin. apply H. now right.
Qed.

Lemma map_fst_indexed (scripts : list element) :
  map fst (indexed scripts) = seq 0 (length scripts).
Proof.
  unfold indexed. generalize 0%nat.
  induction scripts as [|e l IH]; intros n; [reflexivity|].
  cbn [length seq combine map fst]. now rewrite IH.
Qed.

Lemma fresh_not_done (s : state) (b : nat) :
  elementsOk s -> batches s b <> Done -> (b < nextBatch s)%nat.
Proof.
  intros H Hb. destruct (Nat.lt_ge_cases b (nextBatch s)) as [Hlt|Hge]; [assumption|].
  destruct (e_fresh s H b Hge) as [Hd _]. contradiction.
Qed.

Ltac inv_step H :=
  match type of H with
  | Some _ = Some _ => injection H as <-
  | None = Some _ => discriminate H
  | match ?x with _ => _ end = Some _ =>
      let E := fresh "E" in destruct x eqn:E; inv_step H
  | (if ?x then _ else _) = Some _ =>
      let E := fresh "E" in destruct x eqn:E; inv_step H
  | (let '(_, _) := ?x in _) = Some _ => destruct x; inv_step H
  end.

Lemma about_dec (b i : nat) (e : event) :
  about b i e = true \/ about b i e = false.
Proof. destruct (about b i e); auto. Qed.

(** The general shape of a step of batch [b] on its element [i]. *)
Lemma elementsOk_update (s : state) (b i : nat) (newpc : pc) (evs : list event)
    (newdb : jsstring -> option jsstring) (newq : list nat) :
  elementsOk s -> batches s b <> Done ->
  (forall e, In e evs -> about b i e = true \/ forall b' i', about b' i' e = false) ->
  (forall i', i' <> i -> stageOf newpc i' = stageOf (batches s b) i') ->
  history b i (stageOf newpc i) (eventsOf b i evs ++ eventsOf b i (trace s)) ->
  NoDup (jobsOf newpc) ->
  elementsOk (State newdb newq (setBatch (batches s) b newpc) (nextBatch s)
                    (evs ++ trace s)).
Proof.
  intros Hs Hb Hev Hst Hnew Hnd.
  pose proof (fresh_not_done s b Hs Hb) as Hlt.
  constructor; cbn [batches trace nextBatch].
  - apply (history_step s b i); try assumption.
    + now rewrite eventsOf_app.
    + apply (e_history s Hs).
  - intros b'. unfold setBatch. destruct (Nat.eqb_spec b' b); [assumption|].
    apply (e_nodup s Hs).
  - intros b' Hge. destruct (e_fresh s Hs b' Hge) as [Hd Hno].
    unfold setBatch. destruct (Nat.eqb_spec b' b) as [->|Hne]; [lia|].
    split; [assumption|]. intros i'. rewrite eventsOf_app, Hno, app_nil_r.
    apply eventsOf_none. intros e He.
    destruct (Hev e He) as [H|H]; [|apply H].
    destruct (about b' i' e) eqn:E; [|reflexivity].
    destruct (about_unique b i b' i' e H E). contradiction.
Qed.

(** A step of batch [b] that concerns none of its elements. *)
Lemma elementsOk_frame (s : state) (b : nat) (newpc : pc) (evs : list event)
    (newdb : jsstring -> option jsstring) (newq : list nat) :
  elementsOk s -> batches s b <> Done ->
  (forall e, In e evs -> forall b' i', about b' i' e = false) ->
  (forall i', stageOf newpc i' = stageOf (batches s b) i') ->
  NoDup (jobsOf newpc) ->
  elementsOk (State newdb newq (setBatch (batches s) b newpc) (nextBatch s)
                    (evs ++ trace s)).
Proof.
  intros Hs Hb Hev Hst Hnd.
  apply (elementsOk_update s b 0); try assumption.
  - intros e He. right. now apply Hev.
  - intros i' _. apply Hst.
  - rewrite (eventsOf_none b 0 evs) by (intros e He; now apply Hev).
    rewrite Hst. apply (e_history s Hs).
Qed.

Lemma stage_head (i : nat) (elt : element) (todo : list job) (i' : nat) :
  i' <> i -> memb i' ((i, elt) :: todo) = memb i' todo.
Proof.
  intros H. cbn [memb existsb fst]. destruct (Nat.eqb_spec i i'); [congruence | reflexivity].
Qed.

Lemma stage_last (i : nat) (elt : element) (l : list job) (i' : nat) :
  i' <> i -> memb i' (l ++ [(i, elt)]) = memb i' l.
Proof.
  intros H. rewrite memb_app. cbn [memb existsb fst].
  destruct (Nat.eqb_spec i i'); [congruence|]. now rewrite !orb_false_r.
Qed.

Lemma memb_head (i : nat) (elt : element) (todo : list job) :
  memb i ((i, elt) :: todo) = true.
Proof. cbn [memb existsb fst]. now rewrite Nat.eqb_refl. Qed.

Ltac about_tac :=
  let e := fresh "e" in let He := fresh "He" in
  intros e He; cbn [In] in He;
  repeat (destruct He as [<-|He]; [first
    [ left; cbn [about]; rewrite !Nat.eqb_refl; reflexivity
    | right; intros; reflexivity ]|]);
  destruct He.

Ltac frame_tac :=
  let e := fresh "e" in let He := fresh "He" in
  intros e He; cbn [In] in He;
  repeat (destruct He as [<-|He]; [intros; reflexivity|]);
  destruct He.

Lemma step_elementsOk (a : action) (s s' : state) :
  elementsOk s -> Page.step outerHTML a s = Some s' -> elementsOk s'.
Proof.
  intros Hs H. destruct a as [scripts|b|b|b|b|b r|b ok|b]; cbn [Page.step] in H.
  - (* Discover *)
    injection H as <-.
    destruct (e_fresh s Hs (nextBatch s) (le_n _)) as [Hd Hno].
    constructor; cbn [batches trace nextBatch].
    + intros b' i'. unfold setBatch. destruct (Nat.eqb_spec b' (nextBatch s)) as [->|Hne].
      * rewrite Hno. cbn [stageOf].
        destruct (memb i' (indexed scripts)); cbn [history memb existsb];
          [reflexivity | now left].
      * apply (e_history s Hs).
    + intros b'. unfold setBatch. destruct (Nat.eqb_spec b' (nextBatch s)) as [->|Hne].
      * cbn [jobsOf map]. rewrite app_nil_r, map_fst_indexed. apply seq_NoDup.
      * apply (e_nodup s Hs).
    + intros b' Hge. unfold setBatch.
      destruct (Nat.eqb_spec b' (nextBatch s)) as [->|Hne]; [lia|].
      apply (e_fresh s Hs). lia.
  - (* Scan *)
    destruct (batches s b) as [[|[i elt] todo] texQueue| | | | |] eqn:Eb; try discriminate.
    pose proof (e_nodup s Hs b) as Hnd. rewrite Eb in Hnd. cbn [jobsOf map fst app] in Hnd.
    pose proof (e_history s Hs b i) as Hh. rewrite Eb in Hh.
    cbn [stageOf] in Hh. rewrite memb_head in Hh. cbn [history] in Hh.
    apply NoDup_cons_iff in Hnd. destruct Hnd as [Hni Hnd].
    rewrite in_app_iff in Hni.
    assert (Hm1 : memb i todo = false) by (apply memb_false; tauto).
    assert (Hm2 : memb i texQueue = false) by (apply memb_false; tauto).
    destruct (savedSVG (db s) elt) as [svg|]; injection H as <-.
    + apply (elementsOk_update s b i _ [LoadFinished b i; Injected b i svg]).
      * assumption.
      * rewrite Eb. discriminate.
      * about_tac.
      * intros i' Hi. rewrite Eb. cbn [stageOf]. now rewrite stage_head.
      * cbn [stageOf]. rewrite Hm1, Hm2, Hh. cbn [history eventsOf filter about].
        rewrite !Nat.eqb_refl. cbn [andb app]. right. left. now exists svg.
      * assumption.
    + apply (elementsOk_update s b i _ [Placeholder b i]).
      * assumption.
      * rewrite Eb. discriminate.
      * about_tac.
      * intros i' Hi. rewrite Eb. cbn [stageOf]. now rewrite stage_head, stage_last.
      * cbn [stageOf]. rewrite Hm1, memb_app, Hm2, memb_head, Hh.
        cbn [history eventsOf filter about orb]. rewrite !Nat.eqb_refl. reflexivity.
      * cbn [jobsOf]. rewrite map_app. cbn [map fst].
        rewrite app_assoc. apply (Permutation_NoDup (Permutation_cons_append _ i)).
        apply NoDup_cons; [rewrite in_app_iff; tauto | assumption].
  - (* AfterScan *)
    destruct (batches s b) as [[|] texQueue| | | | |] eqn:Eb; try discriminate.
    pose proof (e_nodup s Hs b) as Hnd. rewrite Eb in Hnd. cbn [jobsOf map fst app] in Hnd.
    destruct texQueue as [|j texQueue]; injection H as <-.
    + apply (elementsOk_frame s b Done []); try assumption.
      * rewrite Eb. discriminate.
      * frame_tac.
      * intros i'. rewrite Eb. reflexivity.
    + apply (elementsOk_frame s b _ [Pushed b]); try assumption.
      * rewrite Eb. discriminate.
      * frame_tac.
      * intros i'. rewrite Eb. now destruct (Nat.ltb _ _).
      * now destruct (Nat.ltb _ _).
  - (* Wake *)
    destruct (batches s b) as [| pred texQueue | | | |] eqn:Eb; try discriminate.
    destruct (isDone (batches s pred)); [|discriminate]. injection H as <-.
    pose proof (e_nodup s Hs b) as Hnd. rewrite Eb in Hnd.
    apply (elementsOk_frame s b _ []); try assumption.
    + rewrite Eb. discriminate.
    + frame_tac.
    + intros i'. rewrite Eb. reflexivity.
  - (* Probe *)
    destruct (batches s b) as [| | [|[i elt] todo] | | |] eqn:Eb; try discriminate.
    pose proof (e_nodup s Hs b) as Hnd. rewrite Eb in Hnd. cbn [jobsOf map fst] in Hnd.
    pose proof (e_history s Hs b i) as Hh. rewrite Eb in Hh.
    cbn [stageOf] in Hh. rewrite memb_head in Hh. cbn [history] in Hh.
    pose proof Hnd as Hnd'. apply NoDup_cons_iff in Hnd'. destruct Hnd' as [Hni Hnd'].
    assert (Hm1 : memb i todo = false) by (now apply memb_false).
    destruct (savedSVG (db s) elt) as [svg|]; injection H as <-.
    + apply (elementsOk_update s b i _
               [RenderFinished b i success []; LoadFinished b i; Injected b i svg]).
      * assumption.
      * rewrite Eb. discriminate.
      * about_tac.
      * intros i' Hi. rewrite Eb. cbn [stageOf]. now rewrite stage_head.
      * cbn [stageOf]. rewrite Hm1, Hh. cbn [history eventsOf filter about].
        rewrite !Nat.eqb_refl. cbn [andb app]. right. right. left. now exists svg.
      * assumption.
    + apply (elementsOk_update s b i _ [EngineCall b i]).
      * assumption.
      * rewrite Eb. discriminate.
      * about_tac.
      * intros i' Hi. rewrite Eb. cbn [stageOf fst]. rewrite stage_head by assumption.
        destruct (Nat.eqb_spec i i'); [congruence | reflexivity].
      * cbn [stageOf fst]. rewrite Nat.eqb_refl, Hh.
        cbn [history eventsOf filter about]. rewrite !Nat.eqb_refl. reflexivity.
      * assumption.
  - (* EngineReturn *)
    destruct (batches s b) as [| | | [i elt] todo | |] eqn:Eb; try discriminate.
    pose proof (e_nodup s Hs b) as Hnd. rewrite Eb in Hnd. cbn [jobsOf map fst] in Hnd.
    pose proof (e_history s Hs b i) as Hh. rewrite Eb in Hh.
    cbn [stageOf fst] in Hh. rewrite Nat.eqb_refl in Hh. cbn [history] in Hh.
    pose proof Hnd as Hnd'. apply NoDup_cons_iff in Hnd'. destruct Hnd' as [Hni Hnd'].
    assert (Hm1 : memb i todo = false) by (now apply memb_false).
    assert (Hst : forall i', i' <> i ->
              stageOf (Running todo) i' = stageOf (batches s b) i').
    { intros i' Hi. rewrite Eb. cbn [stageOf fst].
      destruct (Nat.eqb_spec i i'); [congruence | reflexivity]. }
    destruct r as [html|err].
    + destruct (disableCache elt); injection H as <-.
      * apply (elementsOk_update s b i _
                 [RenderFinished b i success []; LoadFinished b i;
                  Injected b i (outerHTML elt (namespaceIds (sourceHash elt) html))]);
          try assumption.
        -- rewrite Eb. discriminate.
        -- about_tac.
        -- cbn [stageOf]. rewrite Hm1, Hh. cbn [history eventsOf filter about].
           rewrite !Nat.eqb_refl. cbn [andb app]. do 4 right. left. eauto.
      * apply (elementsOk_update s b i _
                 [Injected b i (outerHTML elt (namespaceIds (sourceHash elt) html))]);
          try assumption.
        -- rewrite Eb. discriminate.
        -- about_tac.
        -- intros i' Hi. rewrite Eb. cbn [stageOf fst].
           destruct (Nat.eqb_spec i i'); [congruence | reflexivity].
        -- cbn [stageOf fst]. rewrite Nat.eqb_refl, Hh.
           cbn [history eventsOf filter about]. rewrite !Nat.eqb_refl. reflexivity.
    + injection H as <-.
      apply (elementsOk_update s b i _ [RenderFinished b i error err; Broken b i]);
        try assumption.
      * rewrite Eb. discriminate.
      * about_tac.
      * cbn [stageOf]. rewrite Hm1, Hh. cbn [history eventsOf filter about].
        rewrite !Nat.eqb_refl. cbn [andb app]. do 3 right. left. eauto.
  - (* StoreReturn *)
    destruct (batches s b) as [| | | | [i elt] svg todo |] eqn:Eb; try discriminate.
    injection H as <-.
    pose proof (e_nodup s Hs b) as Hnd. rewrite Eb in Hnd. cbn [jobsOf map fst] in Hnd.
    pose proof (e_history s Hs b i) as Hh. rewrite Eb in Hh.
    cbn [stageOf fst] in Hh. rewrite Nat.eqb_refl in Hh. cbn [history] in Hh.
    pose proof Hnd as Hnd'. apply NoDup_cons_iff in Hnd'. destruct Hnd' as [Hni Hnd'].
    assert (Hm1 : memb i todo = false) by (now apply memb_false).
    change (RenderFinished b i success [] :: LoadFinished b i ::
            (if ok then [CacheWrite b i] else []) ++ trace s)
      with ((RenderFinished b i success [] :: LoadFinished b i ::
             (if ok then [CacheWrite b i] else [])) ++ trace s).
    apply (elementsOk_update s b i); try assumption.
    + rewrite Eb. discriminate.
    + destruct ok; about_tac.
    + intros i' Hi. rewrite Eb. cbn [stageOf fst].
      destruct (Nat.eqb_spec i i'); [congruence | reflexivity].
    + cbn [stageOf]. rewrite Hm1, Hh.
      destruct ok; cbn [history eventsOf filter about];
        rewrite !Nat.eqb_refl; cbn [andb app].
      * do 5 right. eauto.
      * do 4 right. left. eauto.
  - (* Finish *)
    destruct (batches s b) as [| | [|] | | |] eqn:Eb; try discriminate.
    injection H as <-.
    apply (elementsOk_frame s b Done [Shifted b]); try assumption.
    + rewrite Eb. discriminate.
    + frame_tac.
    + intros i'. rewrite Eb. reflexivity.
    + constructor.
Qed.

Lemma initial_elementsOk (d : jsstring -> option jsstring) :
  elementsOk (initial d).
Proof.
  constructor; cbn [initial batches trace nextBatch].
  - intros b i. now left.
  - intros b. constructor.
  - intros b _. split; [reflexivity | intros i; reflexivity].
Qed.

Lemma run_elementsOk (acts : list action) :
  forall s s', elementsOk s -> Page.run outerHTML acts s = Some s' -> elementsOk s'.
Proof.
  induction acts as [|a acts IH]; intros s s' Hs H; cbn [Page.run] in H.
  - now injection H as <-.
  - destruct (Page.step outerHTML a s) as [s1|] eqn:E; [|discriminate].
    apply (IH s1); [now apply (step_elementsOk a s) | assumption].
Qed.



End LifecycleFacts.


(** ** The queue of batches *)

Section QueueFacts.
Import Page Trace Queue.

Variable outerHTML : element -> jsstring -> jsstring.

Lemma pushed_cons (e : event) (tr : list event) :
  pushed (e :: tr) = pushed tr ++ match e with Pushed b => [b] | _ => [] end.
Proof. unfold pushed. cbn [flat_map]. rewrite rev_app_distr. now destruct e. Qed.

Lemma shifted_cons (e : event) (tr : list event) :
  shifted (e :: tr) = shifted tr ++ match e with Shifted b => [b] | _ => [] end.
Proof. unfold shifted. cbn [flat_map]. rewrite rev_app_distr. now destruct e. Qed.

Lemma pushed_elements (evs tr : list event) :
  forallb isElementEvent evs = true -> pushed (evs ++ tr) = pushed tr.
Proof.
  induction evs as [|e evs IH]; cbn [forallb app]; [reflexivity|].
  rewrite andb_true_iff. intros [He Hevs]. rewrite pushed_cons, IH by assumption.
  destruct e; try discriminate; apply app_nil_r.
Qed.

Lemma shifted_elements (evs tr : list event) :
  forallb isElementEvent evs = true -> shifted (evs ++ tr) = shifted tr.
Proof.
  induction evs as [|e evs IH]; cbn [forallb app]; [reflexivity|].
  rewrite andb_true_iff. intros [He Hevs]. rewrite shifted_cons, IH by assumption.
  destruct e; try discriminate; apply app_nil_r.
Qed.

Lemma callsOrdered_elements (b : nat) (evs tr : list event) :
  forallb isElementEvent evs = true ->
  (forall e, In e evs -> batchOf e = b) ->
  (existsb isEngineCall evs = true -> exists q, pushed tr = shifted tr ++ b :: q) ->
  callsOrdered tr -> callsOrdered (evs ++ tr).
Proof.
  induction evs as [|e evs IH]; cbn [forallb existsb app]; [auto|].
  rewrite andb_true_iff. intros [He Hevs] Hb Hcall Htr.
  cbn [callsOrdered]. split.
  - destruct e; try exact I.
    rewrite pushed_elements, shifted_elements by assumption.
    assert (E : b0 = b) by (apply (Hb (EngineCall b0 i)); now left).
    subst b0. apply Hcall. reflexivity.
  - apply IH; try assumption.
    + intros x Hx. apply Hb. now right.
    + intros H. apply Hcall. rewrite H. apply orb_true_r.
Qed.

Lemma quiet_elements (b : nat) (evs tr : list event) :
  forallb isElementEvent evs = true ->
  (forall e, In e evs -> batchOf e = b) ->
  ~ In b (shifted tr) ->
  quiet tr -> quiet (evs ++ tr).
Proof.
  induction evs as [|e evs IH]; cbn [forallb app]; [auto|].
  rewrite andb_true_iff. intros [He Hevs] Hb Hn Htr.
  cbn [quiet]. split.
  - rewrite shifted_elements by assumption. rewrite (Hb e) by now left. assumption.
  - apply IH; try assumption. intros x Hx. apply Hb. now right.
Qed.

Lemma kindOf_setBatch_same (bs : nat -> pc) (b : nat) (newpc : pc) :
  kindOf newpc = kindOf (bs b) ->
  forall b', kindOf (setBatch bs b newpc b') = kindOf (bs b').
Proof.
  intros H b'. unfold setBatch. destruct (Nat.eqb_spec b' b) as [->|]; auto.
Qed.

(** A step inside the scan or inside the [process] loop leaves the queue
    alone. *)
Lemma queueOk_same_kind (s : state) (b : nat) (newpc : pc) (evs : list event)
    (newdb : jsstring -> option jsstring) :
  queueOk s ->
  kindOf newpc = kindOf (batches s b) ->
  kindOf (batches s b) <> Over ->
  forallb isElementEvent evs = true ->
  (forall e, In e evs -> batchOf e = b) ->
  (existsb isEngineCall evs = true -> kindOf (batches s b) = Works) ->
  queueOk (State newdb (processQueue s) (setBatch (batches s) b newpc)
                 (nextBatch s) (evs ++ trace s)).
Proof.
  intros Hs Hk Hno Hel Hb Hcall.
  pose proof (kindOf_setBatch_same (batches s) b newpc Hk) as K.
  constructor; cbn [batches trace nextBatch processQueue db];
    rewrite ?pushed_elements, ?shifted_elements by assumption.
  - apply (q_order s Hs).
  - apply (q_nodup s Hs).
  - intros b'. rewrite K. apply (q_works s Hs).
  - intros b' pred. rewrite K. apply (q_waits s Hs).
  - intros b'. rewrite K. apply (q_members s Hs).
  - intros b'. rewrite K. apply (q_scans s Hs).
  - intros b'. rewrite K. apply (q_over s Hs).
  - intros b'. rewrite K. apply (q_fresh s Hs).
  - apply (callsOrdered_elements b); try assumption; [|apply (q_calls s Hs)].
    intros H. apply Hcall in H. apply (q_works s Hs) in H.
    pose proof (q_order s Hs) as Ho.
    destruct (processQueue s) as [|x q]; [discriminate|].
    injection H as ->. now exists q.
  - apply (quiet_elements b); try assumption; [|apply (q_quiet s Hs)].
    intros H. apply (q_over s Hs) in H. contradiction.
Qed.

Lemma hd_error_app (A : Type) (l1 l2 : list A) (x : A) :
  hd_error l1 = Some x -> hd_error (l1 ++ l2) = Some x.
Proof. destruct l1; [discriminate | auto]. Qed.

Lemma nth_before_last (q : list nat) (b : nat) :
  q <> [] ->
  exists q1, q ++ [b] = q1 ++ nth (length (q ++ [b]) - 2) (q ++ [b]) 0%nat :: b :: [].
Proof.
  intros Hne. destruct (exists_last Hne) as (q1 & x & ->).
  exists q1. rewrite <- app_assoc. cbn [app].
  rewrite length_app. cbn [length].
  replace (length q1 + 2 - 2)%nat with (length q1) by lia.
  rewrite app_nth2 by lia. rewrite Nat.sub_diag. reflexivity.
Qed.

Lemma shifted_incl_pushed (s : state) (b : nat) :
  queueOk s -> In b (shifted (trace s)) -> In b (pushed (trace s)).
Proof. intros Hs H. rewrite (q_order s Hs). apply in_or_app. now left. Qed.

Lemma queue_incl_pushed (s : state) (b : nat) :
  queueOk s -> In b (processQueue s) -> In b (pushed (trace s)).
Proof. intros Hs H. rewrite (q_order s Hs). apply in_or_app. now right. Qed.

Lemma step_queueOk (a : action) (s s' : state) :
  queueOk s -> Page.step outerHTML a s = Some s' -> queueOk s'.
Proof.
  intros Hs H. destruct a as [scripts|b|b|b|b|b r|b ok|b]; cbn [Page.step] in H.
  - (* Discover *)
    injection H as <-.
    destruct (q_fresh s Hs (nextBatch s) (le_n _)) as [Hk Hnp].
    assert (K : forall b', b' <> nextBatch s ->
              setBatch (batches s) (nextBatch s) (Scanning (indexed scripts) []) b' =
              batches s b').
    { intros b' Hb. unfold setBatch. now destruct (Nat.eqb_spec b' (nextBatch s)). }
    assert (K0 : setBatch (batches s) (nextBatch s) (Scanning (indexed scripts) [])
                          (nextBatch s) = Scanning (indexed scripts) []).
    { unfold setBatch. now rewrite Nat.eqb_refl. }
    constructor; cbn [batches trace nextBatch processQueue].
    + apply (q_order s Hs).
    + apply (q_nodup s Hs).
    + intros b'. destruct (Nat.eq_dec b' (nextBatch s)) as [->|Hb].
      * rewrite K0. discriminate.
      * rewrite K by assumption. apply (q_works s Hs).
    + intros b' pred. destruct (Nat.eq_dec b' (nextBatch s)) as [->|Hb].
      * rewrite K0. discriminate.
      * rewrite K by assumption. apply (q_waits s Hs).
    + intros b' Hin. destruct (Nat.eq_dec b' (nextBatch s)) as [->|Hb].
      * exfalso. apply Hnp. now apply queue_incl_pushed.
      * rewrite K by assumption. now apply (q_members s Hs).
    + intros b'. destruct (Nat.eq_dec b' (nextBatch s)) as [->|Hb].
      * intros _. assumption.
      * rewrite K by assumption. apply (q_scans s Hs).
    + intros b' Hin. destruct (Nat.eq_dec b' (nextBatch s)) as [->|Hb].
      * exfalso. apply Hnp. now apply shifted_incl_pushed.
      * rewrite K by assumption. now apply (q_over s Hs).
    + intros b' Hge. rewrite K by lia. apply (q_fresh s Hs). lia.
    + apply (q_calls s Hs).
    + apply (q_quiet s Hs).
  - (* Scan *)
    destruct (batches s b) as [[|[i elt] todo] texQueue| | | | |] eqn:Eb; try discriminate.
    destruct (savedSVG (db s) elt) as [svg|]; injection H as <-.
    + apply (queueOk_same_kind s b _ [LoadFinished b i; Injected b i svg]);
        rewrite ?Eb; try assumption; try reflexivity; try discriminate.
      intros e [<-|[<-|[]]]; reflexivity.
    + apply (queueOk_same_kind s b _ [Placeholder b i]);
        rewrite ?Eb; try assumption; try reflexivity; try discriminate.
      intros e [<-|[]]; reflexivity.
  - (* AfterScan *)
    destruct (batches s b) as [[|] texQueue| | | | |] eqn:Eb; try discriminate.
    assert (Hsc : kindOf (batches s b) = Scans) by now rewrite Eb.
    pose proof (q_scans s Hs b Hsc) as Hnp.
    destruct texQueue as [|j texQueue]; injection H as <-.
    + (* nothing to run tex on *)
      assert (K : forall b', b' <> b -> setBatch (batches s) b Done b' = batches s b').
      { intros b' Hb. unfold setBatch. now destruct (Nat.eqb_spec b' b). }
      assert (K0 : setBatch (batches s) b Done b = Done).
      { unfold setBatch. now rewrite Nat.eqb_refl. }
      constructor; cbn [batches trace nextBatch processQueue].
      * apply (q_order s Hs).
      * apply (q_nodup s Hs).
      * intros b'. destruct (Nat.eq_dec b' b) as [->|Hb];
          [rewrite K0; discriminate | rewrite K by assumption; apply (q_works s Hs)].
      * intros b' pred. destruct (Nat.eq_dec b' b) as [->|Hb];
          [rewrite K0; discriminate | rewrite K by assumption; apply (q_waits s Hs)].
      * intros b' Hin. destruct (Nat.eq_dec b' b) as [->|Hb].
        -- exfalso. apply Hnp. now apply queue_incl_pushed.
        -- rewrite K by assumption. now apply (q_members s Hs).
      * intros b'. destruct (Nat.eq_dec b' b) as [->|Hb];
          [rewrite K0; discriminate | rewrite K by assumption; apply (q_scans s Hs)].
      * intros b' Hin. destruct (Nat.eq_dec b' b) as [->|Hb];
          [now rewrite K0 | rewrite K by assumption; now apply (q_over s Hs)].
      * intros b' Hge. destruct (Nat.eq_dec b' b) as [->|Hb].
        -- rewrite K0. now split.
        -- rewrite K by assumption. now apply (q_fresh s Hs).
      * apply (q_calls s Hs).
      * apply (q_quiet s Hs).
    + (* the push *)
      set (q := processQueue s ++ [b]).
      set (next := if Nat.ltb 1 (length q)
                   then Waiting (nth (length q - 2) q 0%nat) (j :: texQueue)
                   else Running (j :: texQueue)).
      assert (K : forall b', b' <> b -> setBatch (batches s) b next b' = batches s b').
      { intros b' Hb. unfold setBatch. now destruct (Nat.eqb_spec b' b). }
      assert (K0 : setBatch (batches s) b next b = next).
      { unfold setBatch. now rewrite Nat.eqb_refl. }
      assert (Hnq : ~ In b (processQueue s)).
      { intros Hin. apply Hnp. now apply queue_incl_pushed. }
      constructor; cbn [batches trace nextBatch processQueue];
        rewrite ?pushed_cons, ?shifted_cons, ?app_nil_r.
      * rewrite (q_order s Hs). unfold q. now rewrite app_assoc.
      * apply (Permutation_NoDup (Permutation_cons_append _ b)).
        apply NoDup_cons; [assumption | apply (q_nodup s Hs)].
      * intros b'. destruct (Nat.eq_dec b' b) as [->|Hb].
        -- rewrite K0. unfold next, q.
           destruct (processQueue s) as [|x l]; [reflexivity|].
           cbn [length app]. rewrite length_app. cbn [length].
           replace (Nat.ltb 1 (S (length l + 1))) with true
             by (symmetry; apply Nat.ltb_lt; lia).
           discriminate.
        -- rewrite K by assumption. intros Hw. apply hd_error_app.
           now apply (q_works s Hs).
      * intros b' pred. destruct (Nat.eq_dec b' b) as [->|Hb].
        -- rewrite K0. unfold next.
           destruct (Nat.ltb_spec 1 (length q)) as [Hlen|Hlen]; [|discriminate].
           cbn [kindOf]. intros Hp. injection Hp as <-. right.
           assert (Hne : processQueue s <> []).
           { intros E. unfold q in Hlen. rewrite E in Hlen. cbn in Hlen. lia. }
           destruct (nth_before_last (processQueue s) b Hne) as [q1 Hq1].
           exists q1, []. exact Hq1.
        -- rewrite K by assumption. intros Hw.
           destruct (q_waits s Hs b' pred Hw) as [Hh|(q1 & q2 & Hq)].
           ++ left. now apply hd_error_app.
           ++ right. exists q1, (q2 ++ [b]). unfold q. rewrite Hq.
              now rewrite <- app_assoc.
      * intros b' Hin. destruct (Nat.eq_dec b' b) as [->|Hb].
        -- rewrite K0. unfold next. destruct (Nat.ltb 1 (length q)); cbn [kindOf]; eauto.
        -- rewrite K by assumption. apply (q_members s Hs).
           unfold q in Hin. apply in_app_or in Hin. destruct Hin as [|[<-|[]]]; congruence.
      * intros b'. destruct (Nat.eq_dec b' b) as [->|Hb].
        -- rewrite K0. unfold next. destruct (Nat.ltb 1 (length q)); discriminate.
        -- rewrite K by assumption. intros Hk Hin. apply in_app_or in Hin.
           destruct Hin as [Hin|[E|[]]]; [|congruence].
           now apply (q_scans s Hs b').
      * intros b' Hin. destruct (Nat.eq_dec b' b) as [->|Hb].
        -- exfalso. apply Hnp. now apply shifted_incl_pushed.
        -- rewrite K by assumption. now apply (q_over s Hs).
      * intros b' Hge. destruct (q_fresh s Hs b' Hge) as [Hk Hn].
        destruct (Nat.eq_dec b' b) as [->|Hb]; [rewrite Hsc in Hk; discriminate|].
        rewrite K by assumption. split; [assumption|].
        intros Hin. apply in_app_or in Hin. destruct Hin as [|[E|[]]]; congruence.
      * split; [exact I | apply (q_calls s Hs)].
      * split; [|apply (q_quiet s Hs)]. cbn [batchOf]. intros Hin.
        apply (q_over s Hs) in Hin. rewrite Hsc in Hin. discriminate.
  - (* Wake *)
    destruct (batches s b) as [| pred texQueue | | | |] eqn:Eb; try discriminate.
    destruct (isDone (batches s pred)) eqn:Ed; [|discriminate]. injection H as <-.
    assert (Hw : kindOf (batches s b) = Waits pred) by now rewrite Eb.
    assert (Hpred : kindOf (batches s pred) = Over) by (now destruct (batches s pred)).
    assert (Hhd : hd_error (processQueue s) = Some b).
    { destruct (q_waits s Hs b pred Hw) as [Hh|(q1 & q2 & Hq)]; [assumption|].
      exfalso. assert (Hin : In pred (processQueue s)).
      { rewrite Hq. apply in_or_app. right. now left. }
      destruct (q_members s Hs pred Hin) as [E|[p E]]; rewrite Hpred in E; discriminate. }
    assert (K : forall b', b' <> b ->
              setBatch (batches s) b (Running texQueue) b' = batches s b').
    { intros b' Hb. unfold setBatch. now destruct (Nat.eqb_spec b' b). }
    assert (K0 : setBatch (batches s) b (Running texQueue) b = Running texQueue).
    { unfold setBatch. now rewrite Nat.eqb_refl. }
    constructor; cbn [batches trace nextBatch processQueue].
    + apply (q_order s Hs).
    + apply (q_nodup s Hs).
    + intros b'. destruct (Nat.eq_dec b' b) as [->|Hb];
        [intros _; assumption | rewrite K by assumption; apply (q_works s Hs)].
    + intros b' p. destruct (Nat.eq_dec b' b) as [->|Hb];
        [rewrite K0; discriminate | rewrite K by assumption; apply (q_waits s Hs)].
    + intros b' Hin. destruct (Nat.eq_dec b' b) as [->|Hb];
        [rewrite K0; now left | rewrite K by assumption; now apply (q_members s Hs)].
    + intros b'. destruct (Nat.eq_dec b' b) as [->|Hb];
        [rewrite K0; discriminate | rewrite K by assumption; apply (q_scans s Hs)].
    + intros b' Hin. destruct (Nat.eq_dec b' b) as [->|Hb].
      * apply (q_over s Hs) in Hin. rewrite Hw in Hin. discriminate.
      * rewrite K by assumption. now apply (q_over s Hs).
    + intros b' Hge. destruct (q_fresh s Hs b' Hge) as [Hk Hn].
      destruct (Nat.eq_dec b' b) as [->|Hb]; [rewrite Hw in Hk; discriminate|].
      rewrite K by assumption. now split.
    + apply (q_calls s Hs).
    + apply (q_quiet s Hs).
  - (* Probe *)
    destruct (batches s b) as [| | [|[i elt] todo] | | |] eqn:Eb; try discriminate.
    destruct (savedSVG (db s) elt) as [svg|]; injection H as <-.
    + apply (queueOk_same_kind s b _
               [RenderFinished b i success []; LoadFinished b i; Injected b i svg]);
        rewrite ?Eb; try assumption; try reflexivity; try discriminate.
      intros e [<-|[<-|[<-|[]]]]; reflexivity.
    + apply (queueOk_same_kind s b _ [EngineCall b i]);
        rewrite ?Eb; try assumption; try reflexivity; try discriminate.
      intros e [<-|[]]; reflexivity.
  - (* EngineReturn *)
    destruct (batches s b) as [| | | [i elt] todo | |] eqn:Eb; try discriminate.
    destruct r as [html|err]; [destruct (disableCache elt)|]; injection H as <-.
    + apply (queueOk_same_kind s b _
               [RenderFinished b i success []; LoadFinished b i;
                Injected b i (outerHTML elt (namespaceIds (sourceHash elt) html))]);
        rewrite ?Eb; try assumption; try reflexivity; try discriminate.
      intros e [<-|[<-|[<-|[]]]]; reflexivity.
    + apply (queueOk_same_kind s b _
               [Injected b i (outerHTML elt (namespaceIds (sourceHash elt) html))]);
        rewrite ?Eb; try assumption; try reflexivity; try discriminate.
      intros e [<-|[]]; reflexivity.
    + apply (queueOk_same_kind s b _ [RenderFinished b i error err; Broken b i]);
        rewrite ?Eb; try assumption; try reflexivity; try discriminate.
      intros e [<-|[<-|[]]]; reflexivity.
  - (* StoreReturn *)
    destruct (batches s b) as [| | | | [i elt] svg todo |] eqn:Eb; try discriminate.
    injection H as <-.
    change (RenderFinished b i success [] :: LoadFinished b i ::
            (if ok then [CacheWrite b i] else []) ++ trace s)
      with ((RenderFinished b i success [] :: LoadFinished b i ::
             (if ok then [CacheWrite b i] else [])) ++ trace s).
    apply (queueOk_same_kind s b); rewrite ?Eb; try assumption; try reflexivity;
      try discriminate.
    all: destruct ok; try reflexivity; try discriminate.
    all: intros e He; cbn [In] in He;
      repeat (destruct He as [<-|He]; [reflexivity|]); destruct He.
  - (* Finish *)
    destruct (batches s b) as [| | [|] | | |] eqn:Eb; try discriminate.
    injection H as <-.
    assert (Hw : kindOf (batches s b) = Works) by now rewrite Eb.
    pose proof (q_works s Hs b Hw) as Hhd.
    pose proof (q_order s Hs) as Ho. pose proof (q_nodup s Hs) as Hnd.
    destruct (processQueue s) as [|x q'] eqn:Eq; [discriminate|].
    injection Hhd as ->. rewrite Ho in Hnd.
    apply NoDup_remove_2 in Hnd.
    assert (Hnq : ~ In b q') by (intros Hin; apply Hnd, in_or_app; now right).
    assert (Hns : ~ In b (shifted (trace s))) by (intros Hin; apply Hnd, in_or_app; now left).
    assert (K : forall b', b' <> b -> setBatch (batches s) b Done b' = batches s b').
    { intros b' Hb. unfold setBatch. now destruct (Nat.eqb_spec b' b). }
    assert (K0 : setBatch (batches s) b Done b = Done).
    { unfold setBatch. now rewrite Nat.eqb_refl. }
    constructor; cbn [batches trace nextBatch processQueue tl];
      rewrite ?pushed_cons, ?shifted_cons, ?app_nil_r.
    + rewrite Ho. now rewrite <- app_assoc.
    + apply (q_nodup s Hs).
    + intros b'. destruct (Nat.eq_dec b' b) as [->|Hb]; [rewrite K0; discriminate|].
      rewrite K by assumption. intros Hw'. apply (q_works s Hs) in Hw'.
      rewrite Eq in Hw'. injection Hw' as E. congruence.
    + intros b' pred. destruct (Nat.eq_dec b' b) as [->|Hb]; [rewrite K0; discriminate|].
      rewrite K by assumption. intros Hw'.
      destruct (q_waits s Hs b' pred Hw') as [Hh|(q1 & q2 & Hq)].
      * rewrite Eq in Hh. injection Hh as E. congruence.
      * rewrite Eq in Hq. destruct q1 as [|y q1]; cbn [app] in Hq; injection Hq as E1 E2.
        -- left. now rewrite E2.
        -- right. now exists q1, q2.
    + intros b' Hin. destruct (Nat.eq_dec b' b) as [->|Hb]; [contradiction|].
      rewrite K by assumption. apply (q_members s Hs). rewrite Eq. now right.
    + intros b'. destruct (Nat.eq_dec b' b) as [->|Hb]; [rewrite K0; discriminate|].
      rewrite K by assumption. apply (q_scans s Hs).
    + intros b' Hin. destruct (Nat.eq_dec b' b) as [->|Hb]; [now rewrite K0|].
      rewrite K by assumption. apply (q_over s Hs).
      apply in_app_or in Hin. destruct Hin as [|[E|[]]]; congruence.
    + intros b' Hge. destruct (q_fresh s Hs b' Hge) as [Hk Hn].
      destruct (Nat.eq_dec b' b) as [->|Hb]; [rewrite Hw in Hk; discriminate|].
      rewrite K by assumption. now split.
    + split; [exact I | apply (q_calls s Hs)].
    + split; [assumption | apply (q_quiet s Hs)].
Qed.

Lemma initial_queueOk (d : jsstring -> option jsstring) : queueOk (initial d).
Proof.
  constructor; cbn [initial batches trace nextBatch processQueue];
    try discriminate; try (intros; contradiction); try exact I.
  - reflexivity.
  - constructor.
  - intros b _. split; [reflexivity | intros []].
Qed.

Lemma run_queueOk (acts : list action) :
  forall s s', queueOk s -> Page.run outerHTML acts s = Some s' -> queueOk s'.
Proof.
  induction acts as [|a acts IH]; intros s s' Hs H; cbn [Page.run] in H.
  - now injection H as <-.
  - destruct (Page.step outerHTML a s) as [s1|] eqn:E; [|discriminate].
    apply (IH s1); [now apply (step_queueOk a s) | assumption].
Qed.

Lemma callsOrdered_at (newer older : list event) (b i : nat) :
  callsOrdered (newer ++ EngineCall b i :: older) ->
  exists q, pushed older = shifted older ++ b :: q.
Proof.
  induction newer as [|e newer IH]; cbn [app callsOrdered]; intros [H1 H2]; auto.
Qed.

Lemma shifted_app_in (newer older : list event) (b : nat) :
  In b (shifted (newer ++ Shifted b :: older)).
Proof.
  induction newer as [|e newer IH]; cbn [app]; rewrite shifted_cons.
  - apply in_or_app. right. now left.
  - apply in_or_app. now left.
Qed.

Lemma quiet_after (newer older : list event) (b : nat) (e : event) :
  quiet (newer ++ Shifted b :: older) -> In e newer -> batchOf e <> b.
Proof.
  induction newer as [|x newer IH]; cbn [app quiet In]; [intros _ []|].
  intros [H1 H2] [->|Hin]; [|now apply IH].
  intros E. apply H1. rewrite E. apply shifted_app_in.
Qed.

(** C1.  In every state the page can reach: the batches pushed onto
    [processQueue] so far are, in order, the batches already shifted off it
    (resolved) followed by the queue, and none was pushed twice, so batches
    complete in the order they were enqueued; at most one batch has a call
    of the engine in flight; at the moment of every engine call the caller
    was the oldest batch not yet resolved, every batch pushed before it
    having been shifted off already; and after a batch has been shifted off
    no event of it (injection, cache write, notification, engine call)
    follows. *)
Theorem single_flight (d : jsstring -> option jsstring)
    (acts : list action) (s : state) :
  Page.run outerHTML acts (initial d) = Some s ->
  pushed (trace s) = shifted (trace s) ++ processQueue s /\
  NoDup (pushed (trace s)) /\
  (forall b1 b2, inEngine (batches s b1) = true -> inEngine (batches s b2) = true ->
                 b1 = b2) /\
  (forall newer older b i,
     trace s = newer ++ EngineCall b i :: older ->
     exists q, pushed older = shifted older ++ b :: q) /\
  (forall newer older b e,
     trace s = newer ++ Shifted b :: older -> In e newer -> batchOf e <> b).
Proof.
  intros H. pose proof (run_queueOk acts _ _ (initial_queueOk d) H) as Hs.
  split; [apply (q_order s Hs)|]. split; [apply (q_nodup s Hs)|].
  split; [|split].
  - intros b1 b2 H1 H2.
    assert (W1 : kindOf (batches s b1) = Works) by (destruct (batches s b1); now try discriminate).
    assert (W2 : kindOf (batches s b2) = Works) by (destruct (batches s b2); now try discriminate).
    apply (q_works s Hs) in W1. apply (q_works s Hs) in W2. congruence.
  - intros newer older b i E. apply (callsOrdered_at newer older b i).
    rewrite <- E. apply (q_calls s Hs).
  - intros newer older b e E. apply (quiet_after newer older).
    rewrite <- E. apply (q_quiet s Hs).
Qed.

End QueueFacts.

(** Three batches discovered while the first is with the engine, as an
    instance of [single_flight]: the second calls the engine only after the
    first has been shifted off, the third still waits. *)
Lemma three_batches_in_order :
  exists s,
    Page.run Scenario.outerHTML Scenario.threeBatches (Page.initial Scenario.emptyDb) = Some s /\
    Trace.pushed (Page.trace s) = [0; 1; 2]%nat /\
    Trace.shifted (Page.trace s) = [0]%nat /\
    Page.processQueue s = [1; 2]%nat /\
    Trace.pushed (Page.trace s) = Trace.shifted (Page.trace s) ++ Page.processQueue s.
Proof.
  let r := eval vm_compute in
    (Page.run Scenario.outerHTML Scenario.threeBatches (Page.initial Scenario.emptyDb)) in
  match r with
  | Some ?s0 =>
      exists s0;
      assert (E : Page.run Scenario.outerHTML Scenario.threeBatches
                    (Page.initial Scenario.emptyDb) = Some s0)
        by (vm_compute; reflexivity);
      pose proof (single_flight Scenario.outerHTML Scenario.emptyDb
                    Scenario.threeBatches s0 E) as T
  end.
  split; [assumption|].
  split; [vm_compute; reflexivity|].
  split; [vm_compute; reflexivity|].
  split; [vm_compute; reflexivity|].
  apply T.
Defined.

(** ** Marker restoration *)

Section Restoration.
Import Regex Worker.

Lemma asciiLower_amp (c : N) : asciiLower c = 38 -> c = 38.
Proof.
  unfold asciiLower, isUpper, inRange.
  destruct (N.leb_spec 65 c); destruct (N.leb_spec c 90); cbn [andb]; lia.
Qed.

(** A literal that starts with an ampersand fails where there is none. *)
Lemma run_strI_amp (p : jsstring) (R : regex) (pre : option N) (s : jsstring)
    (cs : list jsstring) (k : cont) :
  hd_error s <> Some 38 ->
  run (strI (38 :: p) ;; R) (MState pre s cs) k = None.
Proof.
  intros H. rewrite run_seq. cbn [strI]. rewrite run_seq. cbn [run chrI rest].
  destruct s as [|c s]; [reflexivity|].
  destruct (N.eqb_spec (asciiLower c) (asciiLower 38)) as [E|_]; [|reflexivity].
  apply asciiLower_amp in E. subst c. now contradiction H.
Qed.

Lemma run_alt (a b : regex) (st : mstate) (k : cont) :
  run (Alt a b) st k =
  match run a st k with Some r => Some r | None => run b st k end.
Proof. reflexivity. Qed.

Lemma run_chr_cons (p : N -> bool) (c : N) (s : jsstring) (pre : option N)
    (cs : list jsstring) (k : cont) :
  run (Chr p) (MState pre (c :: s) cs) k =
  if p c then k (MState (Some c) s cs) else None.
Proof. reflexivity. Qed.

Lemma run_strI_amp_end (p : jsstring) (pre : option N) (s : jsstring)
    (cs : list jsstring) (k : cont) :
  hd_error s <> Some 38 ->
  run (strI (38 :: p)) (MState pre s cs) k = None.
Proof.
  intros H. cbn [strI]. rewrite run_seq. cbn [run chrI rest].
  destruct s as [|c s]; [reflexivity|].
  destruct (N.eqb_spec (asciiLower c) (asciiLower 38)) as [E|_]; [|reflexivity].
  apply asciiLower_amp in E. subst c. now contradiction H.
Qed.

(** A lazy loop whose first alternative is a class, on a member of the
    class that the second alternative refuses. *)
Lemma run_lazy_alt_class (p : N -> bool) (b : regex) (c : N) (s : jsstring)
    (pre : option N) (cs : list jsstring) (k : cont) :
  p c = true ->
  (forall k', run b (MState pre (c :: s) cs) k' = None) ->
  run (Star false (Alt (Chr p) b)) (MState pre (c :: s) cs) k =
  match k (MState pre (c :: s) cs) with
  | Some r => Some r
  | None => run (Star false (Alt (Chr p) b)) (MState (Some c) s cs) k
  end.
Proof.
  intros Hp Hb. rewrite run_star. cbv zeta.
  destruct (k (MState pre (c :: s) cs)); [reflexivity|].
  rewrite run_alt, run_chr_cons, Hp, Hb.
  cbn [rest length]. rewrite (proj2 (Nat.ltb_lt _ _)) by lia.
  now destruct (run _ _ k).
Qed.

(** The lazy loop of [anyNotPUA] on a code unit that is no ampersand. *)
Lemma run_anyNotPUA_plain (c : N) (s : jsstring) (pre : option N)
    (cs : list jsstring) (k : cont) :
  c <> 38 ->
  run anyNotPUA (MState pre (c :: s) cs) k =
  match k (MState pre (c :: s) cs) with
  | Some r => Some r
  | None => run anyNotPUA (MState (Some c) s cs) k
  end.
Proof.
  intros Hc. unfold anyNotPUA, notChr. apply run_lazy_alt_class.
  - now destruct (N.eqb_spec c 38).
  - intros k'. rewrite run_seq. unfold chr. rewrite run_chr_cons.
    now destruct (N.eqb_spec 38 c); [congruence|].
Qed.

Lemma run_anyNotPUA_here (s : jsstring) (pre : option N) (cs : list jsstring)
    (k : cont) (r : mstate) :
  k (MState pre s cs) = Some r -> run anyNotPUA (MState pre s cs) k = Some r.
Proof.
  intros H. unfold anyNotPUA. rewrite run_star. cbv zeta. now rewrite H.
Qed.

Lemma plain_cons (c : N) (s : jsstring) :
  plain (c :: s) = true -> c <> 38 /\ plain s = true.
Proof.
  unfold plain. cbn [existsb]. rewrite negb_true_iff, orb_false_iff.
  intros [H1 H2]. split; [|now rewrite H2].
  intros ->. discriminate.
Qed.

(** [anyNotPUA] passes plain text when what follows needs an ampersand. *)
Lemma run_anyNotPUA_skip (j t : jsstring) (pre : option N) (cs : list jsstring)
    (k : cont) (r : mstate) :
  plain j = true ->
  (forall pre' s', hd_error s' <> Some 38 -> k (MState pre' s' cs) = None) ->
  k (MState (lastOr pre j) t cs) = Some r ->
  run anyNotPUA (MState pre (j ++ t) cs) k = Some r.
Proof.
  revert pre; induction j as [|c j IH]; intros pre Hj Hk Hr.
  - now apply run_anyNotPUA_here.
  - apply plain_cons in Hj. destruct Hj as [Hc Hj].
    cbn [app]. rewrite run_anyNotPUA_plain by assumption.
    rewrite Hk by (cbn; congruence).
    apply IH; try assumption. now rewrite <- (lastOr_cons pre c j).
Qed.

Lemma allFrom_spec (n : nat) (p : N -> bool) :
  forall start, allFrom start n p = true ->
  forall x, start <= x -> x < start + N.of_nat n -> p x = true.
Proof.
  induction n as [|m IH]; intros start H x H1 H2; [lia|].
  cbn [allFrom] in H. apply andb_true_iff in H. destruct H as [Hs Hr].
  destruct (N.eq_dec x start) as [->|E]; [assumption|].
  apply (IH (N.succ start)); [assumption | lia | lia].
Qed.

Lemma allBelow_spec (bound : N) (p : N -> bool) :
  allBelow bound p = true -> forall x, x < bound -> p x = true.
Proof.
  intros H x Hx. apply (allFrom_spec _ _ 0 H); [lia|].
  rewrite N2Nat.id. lia.
Qed.

Lemma entityOk_bytes : allBelow 256 entityOk = true.
Proof. vm_compute. reflexivity. Qed.

Lemma unicodeOk_bmp : allBelow 65536 unicodeOk = true.
Proof. vm_compute. reflexivity. Qed.


(** The entity of a byte: two hexadecimal digits in lower case from which
    the byte is read back. *)
Lemma entity_shape (c : N) :
  c < 256 ->
  exists x y,
    entity c = lit "&#xf0" ++ [x; y] ++ lit ";" /\
    isHex x = true /\ isHex y = true /\
    asciiLower x = x /\ asciiLower y = y /\
    entityCode (entity c) = c.
Proof.
  intros H. pose proof (allBelow_spec _ _ entityOk_bytes c H) as E.
  unfold entityOk in E.
  change (entity c) with (lit "&#xf0" ++ hexPair c ++ lit ";") at 1.
  destruct (hexPair c) as [|x [|y [|z l]]]; try discriminate E.
  repeat (apply andb_true_iff in E; destruct E as [E ?]).
  exists x, y. repeat split; try assumption; now apply N.eqb_eq.
Qed.

Lemma upper_hex_digit (c : N) :
  isUpperHexDigit c = true -> c < 256 /\ toUpperCaseLatin1 c = [c].
Proof.
  intros H.
  assert (Hc : c < 256).
  { unfold isUpperHexDigit, isDigit, inRange in H.
    apply orb_true_iff in H.
    destruct H as [H|H]; apply andb_true_iff in H; destruct H as [_ H];
      apply N.leb_le in H; lia. }
  split; [assumption|].
  pose proof (allBelow_spec _ _ entityOk_bytes c Hc) as E.
  unfold entityOk in E.
  destruct (hexPair c) as [|x [|y [|z l]]]; try discriminate E.
  apply andb_true_iff in E. destruct E as [_ E]. rewrite H in E.
  cbn [implb] in E. unfold jseqb in E.
  now destruct (list_eq_dec N.eq_dec (toUpperCaseLatin1 c) [c]).
Qed.

Lemma entity_nonempty (c : N) : entity c <> [].
Proof. discriminate. Qed.

Lemma toLowerCase_entity (c : N) : c < 256 -> toLowerCase (entity c) = entity c.
Proof.
  intros H. destruct (entity_shape c H) as (x & y & -> & _ & _ & Hx & Hy & _).
  unfold toLowerCase. rewrite !map_app. cbn [map]. now rewrite Hx, Hy.
Qed.

Lemma run_entityRegex (c : N) (t : jsstring) (pre : option N)
    (cs : list jsstring) (k : cont) :
  c < 256 ->
  run entityRegex (MState pre (entity c ++ t) cs) k = k (MState (Some 59) t cs).
Proof.
  intros H. destruct (entity_shape c H) as (x & y & -> & Hx & Hy & _).
  unfold entityRegex. rewrite <- app_assoc, run_seq, run_strI_self.
  cbn [rep]. rewrite !run_seq. change (lit ";") with [59]. cbn [app].
  rewrite run_chr_cons, Hx, run_seq, run_chr_cons, Hy.
  cbn [run rest caps chr]. now rewrite N.eqb_refl.
Qed.

Lemma exec_entityRegex (c : N) (t : jsstring) (prev : option N) :
  c < 256 -> exec entityRegex prev (entity c ++ t) = Some (entity c, [], t).
Proof.
  intros H. unfold exec. rewrite run_entityRegex by assumption.
  cbn [rest caps]. now rewrite firstn_app_length.
Qed.

Lemma exec_entityRegex_plain (c : N) (s : jsstring) (prev : option N) :
  c <> 38 -> exec entityRegex prev (c :: s) = None.
Proof.
  intros H. unfold exec, entityRegex.
  change (lit "&#xf0") with (38 :: lit "#xf0").
  rewrite run_strI_amp; [reflexivity|]. cbn. congruence.
Qed.

Lemma exec_markerRegex_plain (c : N) (s : jsstring) (prev : option N) :
  c <> 38 -> exec markerRegex prev (c :: s) = None.
Proof.
  intros H. unfold exec, markerRegex.
  change (lit "&#xf05b;") with (38 :: lit "#xf05b;").
  rewrite run_strI_amp; [reflexivity|]. cbn. congruence.
Qed.

(** Plain text under a pattern that starts with an ampersand. *)
Lemma pieces_plain (r : regex) (l t : jsstring) (prev : option N) :
  (forall c s p, c <> 38 -> exec r p (c :: s) = None) ->
  plain l = true ->
  pieces r prev (l ++ t) 0 = map Unit l ++ pieces r (lastOr prev l) t 0.
Proof.
  intros Hr. revert prev; induction l as [|c l IH]; intros prev Hl; [reflexivity|].
  apply plain_cons in Hl. destruct Hl as [Hc Hl].
  cbn [app map]. rewrite pieces_miss by now apply Hr.
  now rewrite IH, (lastOr_cons prev c l).
Qed.

Lemma hits_of_units (l : jsstring) :
  flat_map (fun p => match p with Hit mt _ => [mt] | Unit _ => [] end)
           (map Unit l) = [].
Proof. induction l as [|c l IH]; [reflexivity | exact IH]. Qed.

Lemma plain_toLowerCase (s : jsstring) : plain s = true -> plain (toLowerCase s) = true.
Proof.
  induction s as [|c s IH]; [reflexivity|]. intros H.
  apply plain_cons in H. destruct H as [Hc Hs].
  unfold plain in *. cbn [toLowerCase map existsb].
  destruct (N.eqb_spec 38 (asciiLower c)) as [E|_].
  - symmetry in E. apply asciiLower_amp in E. contradiction.
  - cbn [orb]. now apply IH.
Qed.

Lemma toLowerCase_spread (codes : list N) :
  Forall (fun c => c < 256) codes ->
  forall gaps,
    toLowerCase (spread (map entity codes) gaps) =
    spread (map entity codes) (map toLowerCase gaps).
Proof.
  induction 1 as [|c codes Hc _ IH]; intros gaps; [reflexivity|].
  cbn [map spread]. destruct gaps as [|g gaps]; cbn [map];
    unfold toLowerCase in *; rewrite !map_app;
    fold (toLowerCase (entity c)); rewrite (toLowerCase_entity c Hc).
  - now rewrite (IH []).
  - now rewrite IH.
Qed.

(** The entities of a spread marker are found one by one. *)
Lemma entities_of_spread (codes : list N) :
  Forall (fun c => c < 256) codes ->
  forall gaps prev,
    forallb plain gaps = true ->
    flat_map (fun p => match p with Hit mt _ => [mt] | Unit _ => [] end)
             (pieces entityRegex prev (spread (map entity codes) gaps) 0) =
    map entity codes.
Proof.
  induction 1 as [|c codes Hc _ IH]; intros gaps prev Hg; [reflexivity|].
  cbn [map spread]. destruct gaps as [|g gaps].
  - rewrite (pieces_hit entityRegex (entity c) (spread (map entity codes) [])
               (spread (map entity codes) []) [] prev
               (entity_nonempty c) (exec_entityRegex c _ prev Hc)).
    cbn [flat_map app]. now rewrite IH.
  - cbn [forallb] in Hg. apply andb_true_iff in Hg. destruct Hg as [Hg Hgs].
    rewrite (pieces_hit entityRegex (entity c) (g ++ spread (map entity codes) gaps)
               (g ++ spread (map entity codes) gaps) [] prev
               (entity_nonempty c) (exec_entityRegex c _ prev Hc)).
    cbn [flat_map app].
    rewrite (pieces_plain entityRegex g _ _ exec_entityRegex_plain Hg).
    rewrite flat_map_app, hits_of_units. cbn [app]. now rewrite IH.
Qed.


Ltac needs_ampersand :=
  let pre' := fresh "pre'" in
  let s' := fresh "s'" in
  let Hs := fresh "Hs" in
  intros pre' s' Hs; cbv beta;
  first [apply run_strI_amp | apply run_strI_amp_end]; exact Hs.

Ltac skip_gap H :=
  rewrite run_seq; apply run_anyNotPUA_skip; [exact H | needs_ampersand | cbv beta].

Ltac digit_entity Hg Hc :=
  rewrite run_seq, run_group, run_seq;
  apply run_anyNotPUA_skip; [exact Hg | needs_ampersand | cbv beta];
  change (strI (lit "&#xf0") ;; rep 2 (Chr isHex) ;; chr 59) with entityRegex;
  rewrite (run_entityRegex _ _ _ _ _ Hc); cbn [before rest caps].

(** The marker pattern matches the eight entities of a marker with plain
    text in between, and nothing more. *)
Lemma run_markerRegex (c1 c2 c3 c4 : N) (g1 g2 g3 g4 g5 g6 g7 suf : jsstring)
    (prev : option N) :
  c1 < 256 -> c2 < 256 -> c3 < 256 -> c4 < 256 ->
  forallb plain [g1; g2; g3; g4; g5; g6; g7] = true ->
  exists b cs,
    run markerRegex
        (MState prev
           (spread (map entity [91; 85; 43; c1; c2; c3; c4; 93])
                   [g1; g2; g3; g4; g5; g6; g7] ++ suf) [])
        Some = Some (MState b suf cs).
Proof.
  intros H1 H2 H3 H4 Hg. cbn [forallb] in Hg.
  repeat (apply andb_true_iff in Hg; let H := fresh "G" in destruct Hg as [H Hg]).
  cbn [map spread]. rewrite <- !app_assoc. cbn [app].
  change (entity 91) with (lit "&#xf05b;").
  change (entity 85) with (lit "&#xf055;").
  change (entity 43) with (lit "&#xf02b;").
  change (entity 93) with (lit "&#xf05d;").
  unfold markerRegex. eexists. eexists.
  rewrite run_seq, run_strI_self.
  skip_gap G.
  rewrite run_seq, run_strI_self.
  skip_gap G0.
  rewrite run_seq, run_strI_self.
  rewrite run_seq. cbn [rep].
  digit_entity G1 H1.
  digit_entity G2 H2.
  digit_entity G3 H3.
  digit_entity G4 H4.
  change (run Eps ?st ?k) with (k st). cbv beta.
  skip_gap G5.
  rewrite run_strI_self. reflexivity.
Qed.


Lemma exec_markerRegex (c1 c2 c3 c4 : N) (gaps : list jsstring) (suf : jsstring)
    (prev : option N) :
  c1 < 256 -> c2 < 256 -> c3 < 256 -> c4 < 256 ->
  length gaps = 7%nat -> forallb plain gaps = true ->
  let mt := spread (map entity [91; 85; 43; c1; c2; c3; c4; 93]) gaps in
  exists cs, exec markerRegex prev (mt ++ suf) = Some (mt, cs, suf).
Proof.
  intros H1 H2 H3 H4 Hl Hg mt.
  destruct gaps as [|g1 [|g2 [|g3 [|g4 [|g5 [|g6 [|g7 [|g8 gaps]]]]]]]];
    try discriminate Hl.
  destruct (run_markerRegex c1 c2 c3 c4 g1 g2 g3 g4 g5 g6 g7 suf prev H1 H2 H3 H4 Hg)
    as (b & cs & E).
  exists cs. unfold exec. fold mt in E. rewrite E. cbn [rest caps].
  now rewrite firstn_app_length.
Qed.

(** The callback reads the four digit entities of a spread marker. *)
Lemma restoreMarker_spread (c1 c2 c3 c4 : N) (gaps : list jsstring) :
  isUpperHexDigit c1 = true -> isUpperHexDigit c2 = true ->
  isUpperHexDigit c3 = true -> isUpperHexDigit c4 = true ->
  forallb plain gaps = true ->
  restoreMarker (spread (map entity [91; 85; 43; c1; c2; c3; c4; 93]) gaps) =
  fromUnicode (lit "U+" ++ [c1; c2; c3; c4]).
Proof.
  intros H1 H2 H3 H4 Hg.
  destruct (upper_hex_digit c1 H1) as [B1 U1].
  destruct (upper_hex_digit c2 H2) as [B2 U2].
  destruct (upper_hex_digit c3 H3) as [B3 U3].
  destruct (upper_hex_digit c4 H4) as [B4 U4].
  assert (HB : Forall (fun c => c < 256) [91; 85; 43; c1; c2; c3; c4; 93]).
  { repeat constructor; assumption. }
  assert (Hg' : forallb plain (map toLowerCase gaps) = true).
  { rewrite forallb_forall in *. intros g Hin. apply in_map_iff in Hin.
    destruct Hin as (g0 & <- & Hin). apply plain_toLowerCase. now apply Hg. }
  unfold restoreMarker. cbv zeta.
  rewrite (toLowerCase_spread _ HB gaps). unfold matchAll, scan.
  rewrite (entities_of_spread _ HB _ None Hg').
  cbn [map length Nat.eqb negb]. unfold slice37. cbn [skipn firstn fold_left].
  change (fromUnicode
            ((((lit "U+" ++ toUpperCaseLatin1 (entityCode (entity c1))) ++
               toUpperCaseLatin1 (entityCode (entity c2))) ++
              toUpperCaseLatin1 (entityCode (entity c3))) ++
             toUpperCaseLatin1 (entityCode (entity c4))) =
          fromUnicode (lit "U+" ++ [c1; c2; c3; c4])).
  destruct (entity_shape c1 B1) as (? & ? & _ & _ & _ & _ & _ & ->).
  destruct (entity_shape c2 B2) as (? & ? & _ & _ & _ & _ & _ & ->).
  destruct (entity_shape c3 B3) as (? & ? & _ & _ & _ & _ & _ & ->).
  destruct (entity_shape c4 B4) as (? & ? & _ & _ & _ & _ & _ & ->).
  rewrite U1, U2, U3, U4. rewrite <- !app_assoc. reflexivity.
Qed.

Lemma concatResults_prefix (f : piece -> result jsstring) (l : jsstring)
    (ps : list piece) :
  (forall c, f (Unit c) = Ok [c]) ->
  concatResults (map f (map Unit l ++ ps)) =
  bind (concatResults (map f ps)) (fun b => Ok (l ++ b)).
Proof.
  intros Hf. induction l as [|c l IH]; cbn [map app concatResults].
  - now destruct (concatResults (map f ps)).
  - rewrite Hf, IH. cbn [bind]. now destruct (concatResults (map f ps)).
Qed.

(** X1.  The marker of a character of the Basic Multilingual Plane is
    restored to the character: with text free of ampersands between its
    eight entities, before it and after it, [replaceNotSupportedCharMarkers]
    returns the text before, the character and the text after. *)
Theorem marker_is_restored (cp : N) (gaps : list jsstring) (pre suf : jsstring) :
  cp < 65536 ->
  length gaps = 7%nat -> forallb plain gaps = true ->
  plain pre = true -> plain suf = true ->
  replaceNotSupportedCharMarkers
    (pre ++ spread (map entity (marker [cp])) gaps ++ suf) =
  Ok (pre ++ [cp] ++ suf).
Proof.
  intros Hcp Hl Hg Hpre Hsuf.
  pose proof (allBelow_spec _ _ unicodeOk_bmp cp Hcp) as E.
  unfold unicodeOk in E. unfold marker.
  destruct (getUnicode [cp]) as [|u [|p [|c1 [|c2 [|c3 [|c4 [|c5 l]]]]]]] eqn:EU;
    try discriminate E.
  repeat (apply andb_true_iff in E; destruct E as [E ?]).
  apply N.eqb_eq in E. subst u.
  match goal with H : N.eqb p 43 = true |- _ => apply N.eqb_eq in H; subst p end.
  destruct (fromUnicode [85; 43; c1; c2; c3; c4]) as [r|] eqn:EF; [|discriminate].
  assert (r = [cp]) as ->.
  { unfold jseqb in *. now destruct (list_eq_dec N.eq_dec r [cp]). }
  destruct (upper_hex_digit c1) as [B1 _]; [assumption|].
  destruct (upper_hex_digit c2) as [B2 _]; [assumption|].
  destruct (upper_hex_digit c3) as [B3 _]; [assumption|].
  destruct (upper_hex_digit c4) as [B4 _]; [assumption|].
  change (lit "[" ++ [85; 43; c1; c2; c3; c4] ++ lit "]")
    with [91; 85; 43; c1; c2; c3; c4; 93].
  set (mt := spread (map entity [91; 85; 43; c1; c2; c3; c4; 93]) gaps).
  destruct (exec_markerRegex c1 c2 c3 c4 gaps suf (lastOr None pre) B1 B2 B3 B4 Hl Hg)
    as (cs & EX). fold mt in EX.
  assert (Hmt : mt <> []).
  { unfold mt. cbn [map spread]. destruct gaps; discriminate. }
  unfold replaceNotSupportedCharMarkers, scan.
  rewrite (pieces_plain markerRegex pre _ None exec_markerRegex_plain Hpre).
  rewrite (pieces_hit markerRegex mt suf suf cs _ Hmt EX).
  rewrite <- (app_nil_r suf) at 1.
  rewrite (pieces_plain markerRegex suf [] _ exec_markerRegex_plain Hsuf).
  rewrite concatResults_prefix by reflexivity.
  cbn [map concatResults]. unfold mt at 1.
  rewrite restoreMarker_spread by assumption.
  change (lit "U+" ++ [c1; c2; c3; c4]) with [85; 43; c1; c2; c3; c4].
  rewrite EF. cbn [bind].
  rewrite concatResults_prefix by reflexivity.
  replace (pieces markerRegex (lastOr (lastOr (lastOr None pre) mt) suf) [] 0)
    with (@nil piece) by (cbn [pieces]; now destruct (lastOr _ suf)).
  cbn [map concatResults bind]. now rewrite app_nil_r.
Qed.


(** The marker of U+4E2D, broken over two text elements. *)
Lemma marker_is_restored_sample :
  replaceNotSupportedCharMarkers
    (lit "<text>" ++
     spread (map entity (marker [20013]))
            [[]; []; lit "</text><text>"; []; lit " "; []; []] ++
     lit "</text>") =
  Ok (lit "<text>" ++ [20013] ++ lit "</text>").
Proof.
  exact (marker_is_restored 20013 [[]; []; lit "</text><text>"; []; lit " "; []; []]
           (lit "<text>") (lit "</text>") eq_refl eq_refl eq_refl eq_refl eq_refl).
Defined.

End Restoration.


(** ** Id namespacing *)

Section Namespacing.
Import Page Regex.

(** What the id pattern finds is what [parseId] describes. *)
Lemma exec_idRegex (prev : option N) (s : jsstring) :
  exec idRegex prev s =
  match parseId prev s with
  | Some (name, t) => Some (idToken name, [], t)
  | None => None
  end.
Proof.
  unfold exec, idRegex, parseId.
  rewrite run_seq, run_wordb. cbn [before rest].
  destruct (xorb (isWordOpt prev) (isWordOpt (hd_error s))); [|reflexivity].
  rewrite run_seq, run_str. fold idPrefix.
  destruct (startsWith idPrefix s) eqn:E; [|reflexivity].
  apply startsWith_length in E. destruct E as [_ E].
  change (length idPrefix) with 7%nat in *.
  rewrite run_until_end.
  destruct (splitAt 34 (skipn 7 s)) as [[name t]|] eqn:En; [|reflexivity].
  cbn [rest caps]. f_equal. f_equal. f_equal.
  apply splitAt_spec in En. destruct En as [En _].
  rewrite E, En. unfold idToken, quote.
  replace (idPrefix ++ name ++ 34 :: t) with ((idPrefix ++ name ++ [34]) ++ t)
    by (now rewrite <- !app_assoc).
  apply firstn_app_length.
Qed.

(** A match of a scan is found at some position of the scanned string. *)
Lemma pieces_hits_at (r : regex) (s : jsstring) :
  forall prev skip m cs,
    In (Hit m cs) (pieces r prev s skip) ->
    exists prev' x s' t, s = x ++ s' /\ exec r prev' s' = Some (m, cs, t).
Proof.
  induction s as [|c s IH]; intros prev skip m cs; cbn [pieces].
  - destruct skip; [|intros []].
    destruct (exec r prev []) as [[[m0 cs0] t0]|] eqn:E; [|intros []].
    intros [H|[]]. injection H as <- <-. now exists prev, [], [], t0.
  - assert (Htail : forall p k, In (Hit m cs) (pieces r p s k) ->
              exists prev' x s' t, c :: s = x ++ s' /\ exec r prev' s' = Some (m, cs, t)).
    { intros p k H. apply IH in H. destruct H as (prev' & x & s' & t & -> & H).
      now exists prev', (c :: x), s', t. }
    destruct skip as [|n]; [|apply Htail].
    destruct (exec r prev (c :: s)) as [[[m0 cs0] t0]|] eqn:E.
    + destruct m0 as [|x m0].
      * intros [H|[H|H]]; [|discriminate H|now apply Htail in H].
        injection H as <- <-. now exists prev, [], (c :: s), t0.
      * intros [H|H]; [|now apply Htail in H].
        injection H as <- <-. now exists prev, [], (c :: s), t0.
    + intros [H|H]; [discriminate H | now apply Htail in H].
Qed.

Lemma existsb_app_false (p : N -> bool) (a b : jsstring) :
  existsb p (a ++ b) = false -> existsb p a = false /\ existsb p b = false.
Proof. rewrite existsb_app. apply orb_false_iff. Qed.

(** Every id the pattern finds in a string is a token, whose name has no
    quote and is a piece of the string. *)
Lemma matched_id_is_token (html id : jsstring) :
  In id (matchAll idRegex html) ->
  exists x name t,
    id = idToken name /\ html = x ++ idToken name ++ t /\
    existsb (N.eqb 34) name = false.
Proof.
  unfold matchAll, scan. intros H. apply in_flat_map in H.
  destruct H as ([c|m cs] & Hin & Hm); [destruct Hm|].
  destruct Hm as [<-|[]].
  apply pieces_hits_at in Hin. destruct Hin as (prev' & x & s' & t & -> & E).
  rewrite exec_idRegex in E. unfold parseId in E.
  destruct (xorb _ _); [|discriminate].
  destruct (startsWith idPrefix s') eqn:Es; [|discriminate].
  apply startsWith_length in Es. destruct Es as [_ Es].
  change (length idPrefix) with 7%nat in Es.
  destruct (splitAt 34 (skipn 7 s')) as [[name t']|] eqn:En; [|discriminate].
  injection E as <- _ <-.
  apply splitAt_spec in En. destruct En as [En Hq].
  exists x, name, t'. repeat split; [|exact Hq].
  rewrite Es, En. unfold idToken, quote. now rewrite <- !app_assoc.
Qed.

(** A greedy class runs up to the last code unit before the quote that
    its continuation asks for. *)
Lemma run_greedy_to_quote (p : N -> bool) (name : jsstring) (pre : option N)
    (cs : list jsstring) (k : cont) :
  (forall st, hd_error (rest st) <> Some 34 -> k st = None) ->
  forallb p name = true -> p 34 = true ->
  existsb (N.eqb 34) name = false ->
  run (Star true (Chr p)) (MState pre (name ++ [34]) cs) k =
  k (MState (lastOr pre name) [34] cs).
Proof.
  intros Hk Hp Hq. revert pre; induction name as [|c name IH]; intros pre Hn.
  - cbn [app]. rewrite run_star_class, Hq, run_star_class.
    rewrite (Hk (MState (Some 34) [] cs)) by (cbn; discriminate). reflexivity.
  - cbn [forallb] in Hp. apply andb_true_iff in Hp. destruct Hp as [Hc Hp].
    cbn [existsb] in Hn. apply orb_false_iff in Hn. destruct Hn as [Hc' Hn].
    cbn [app]. rewrite run_star_class, Hc, (IH Hp (Some c) Hn).
    rewrite (lastOr_cons pre c name).
    destruct (k (MState (lastOr (Some c) name) [34] cs)); [reflexivity|].
    apply Hk. cbn. intros E. injection E as ->. discriminate.
Qed.

(** The suffix pattern reads the name of a token that has no line break. *)
Lemma pgfIdStringOf_token (name : jsstring) :
  existsb isLineTerminator name = false ->
  existsb (N.eqb 34) name = false ->
  pgfIdStringOf (idToken name) = name.
Proof.
  intros Hl Hq. unfold pgfIdStringOf.
  assert (E : exec idSuffixRegex None (idToken name) = Some (idToken name, [name], [])).
  { unfold exec, idSuffixRegex, idToken. fold idPrefix.
    rewrite run_seq, run_str, startsWith_app.
    change (length idPrefix) with 7%nat.
    replace (skipn 7 (idPrefix ++ name ++ quote)) with (name ++ quote) by reflexivity.
    rewrite run_seq, run_group. unfold dot, quote.
    rewrite run_greedy_to_quote.
    - cbn [run chr rest caps before]. rewrite N.eqb_refl. cbn [rest caps].
      rewrite (firstn_app_length _ name [34]).
      cbn [length app]. now rewrite Nat.sub_0_r, firstn_all.
    - intros st Hst. cbn [run chr rest]. destruct (rest st) as [|c r]; [reflexivity|].
      destruct (N.eqb_spec 34 c) as [<-|_]; [now contradiction Hst | reflexivity].
    - clear Hq. induction name as [|c name IH]; [reflexivity|].
      cbn [existsb] in Hl. apply orb_false_iff in Hl. destruct Hl as [Hc Hl].
      cbn [forallb]. now rewrite Hc, IH.
    - reflexivity.
    - exact Hq. }
  destruct (idToken name) as [|c s] eqn:Et; [discriminate Et|].
  cbn [search]. rewrite E. cbn [nth app]. now rewrite app_nil_r.
Qed.

Lemma idName_token (name : jsstring) : idName (idToken name) = name.
Proof.
  unfold idName, idToken. change (skipn 7 (idPrefix ++ name ++ quote)) with (name ++ quote).
  apply removelast_last.
Qed.

Lemma In_insertByLength (x y : jsstring) (l : list jsstring) :
  In y (insertByLength x l) -> y = x \/ In y l.
Proof.
  induction l as [|z l IH]; cbn [insertByLength].
  - intros [<-|[]]. now left.
  - destruct (Nat.leb (length z) (length x)).
    + intros [<-|H]; [now left | now right].
    + intros [<-|H]; [right; now left|].
      destruct (IH H) as [->|H']; [now left | right; now right].
Qed.

Lemma In_sortIds (y : jsstring) (ids : list jsstring) :
  In y (sortIds ids) -> In y ids.
Proof.
  induction ids as [|x ids IH]; [intros []|].
  cbn [sortIds fold_right]. intros H. apply In_insertByLength in H.
  destruct H as [->|H]; [now left | right; now apply IH].
Qed.

Lemma fold_left_ext_in (A B : Type) (f g : A -> B -> A) (l : list B) :
  (forall x, In x l -> forall a, f a x = g a x) ->
  forall a, fold_left f l a = fold_left g l a.
Proof.
  induction l as [|x l IH]; intros H a; [reflexivity|].
  cbn [fold_left]. rewrite (H x (or_introl eq_refl)).
  apply IH. intros y Hy. apply H. now right.
Qed.

Lemma token_in_line (x name t : jsstring) :
  existsb isLineTerminator (x ++ idToken name ++ t) = false ->
  existsb isLineTerminator name = false.
Proof.
  intros H. apply existsb_app_false in H. destruct H as [_ H].
  apply existsb_app_false in H. destruct H as [H _]. unfold idToken in H.
  apply existsb_app_false in H. destruct H as [_ H].
  now apply existsb_app_false in H.
Qed.

(** X2.  In markup without a line break every id that the id pattern
    finds is a token [id=Qpgf name Q] (writing Q for the double quote),
    and [namespaceIds] replaces, for each of them from the longest to the
    shortest, every occurrence of [pgf name] by [pgf], the fingerprint and
    the name. *)
Theorem ids_are_namespaced (hash html : jsstring) :
  existsb isLineTerminator html = false ->
  Forall (fun id => id = idToken (idName id)) (matchAll idRegex html) /\
  namespaceIds hash html =
  fold_left
    (fun html id =>
       replaceAll html (lit "pgf" ++ idName id) (lit "pgf" ++ hash ++ idName id))
    (sortIds (matchAll idRegex html)) html.
Proof.
  intros Hl. split.
  - apply Forall_forall. intros id Hin.
    destruct (matched_id_is_token html id Hin) as (x & name & t & -> & _ & _).
    now rewrite idName_token.
  - unfold namespaceIds. cbv zeta. apply fold_left_ext_in.
    intros id Hin a. apply In_sortIds in Hin.
    destruct (matched_id_is_token html id Hin) as (x & name & t & -> & Eh & Hq).
    rewrite Eh in Hl. apply token_in_line in Hl.
    now rewrite pgfIdStringOf_token, idName_token.
Qed.


(** An element with an id and a reference to it. *)
Lemma ids_are_namespaced_sample :
  (Forall (fun id => id = idToken (idName id))
          (matchAll idRegex (q34 "<g id='pgfab'/><use href='#pgfab'/>")) /\
   namespaceIds (lit "6382a90d6496a16a49980a0d641a79f0d6aa1f10")
                (q34 "<g id='pgfab'/><use href='#pgfab'/>") =
   fold_left
     (fun html id =>
        replaceAll html (lit "pgf" ++ idName id)
                   (lit "pgf" ++ lit "6382a90d6496a16a49980a0d641a79f0d6aa1f10" ++ idName id))
     (sortIds (matchAll idRegex (q34 "<g id='pgfab'/><use href='#pgfab'/>")))
     (q34 "<g id='pgfab'/><use href='#pgfab'/>")) /\
  namespaceIds (lit "6382a90d6496a16a49980a0d641a79f0d6aa1f10")
               (q34 "<g id='pgfab'/><use href='#pgfab'/>") =
  q34 "<g id='pgf6382a90d6496a16a49980a0d641a79f0d6aa1f10ab'/><use href='#pgf6382a90d6496a16a49980a0d641a79f0d6aa1f10ab'/>".
Proof.
  split.
  - exact (ids_are_namespaced (lit "6382a90d6496a16a49980a0d641a79f0d6aa1f10")
             (q34 "<g id='pgfab'/><use href='#pgfab'/>") eq_refl).
  - vm_compute. reflexivity.
Defined.

End Namespacing.

(** ** Matches are pieces of the input *)

Section MatcherSoundness.
Import Regex.

Lemma star_loop_inv (ma : mstate -> cont -> option mstate) (g : bool) (k : cont) :
  (forall st k' res, ma st k' = Some res ->
     exists st', k' st' = Some res /\ suffixOf (rest st') (rest st)) ->
  forall fuel st res, star_loop ma g k fuel st = Some res ->
    exists st', k st' = Some res /\ suffixOf (rest st') (rest st).
Proof.
  intros Hma. induction fuel as [|f IH]; intros st res H; [discriminate|].
  cbn [star_loop] in H.
  set (again := fun st' => if Nat.ltb (length (rest st')) (length (rest st))
                           then star_loop ma g k f st' else None) in *.
  assert (Hagain : forall r, ma st again = Some r ->
            exists st', k st' = Some r /\ suffixOf (rest st') (rest st)).
  { intros r Hr. apply Hma in Hr. destruct Hr as (st1 & H1 & [x Hx]).
    unfold again in H1. destruct (Nat.ltb _ _); [|discriminate].
    apply IH in H1. destruct H1 as (st2 & H2 & [y Hy]).
    exists st2. split; [exact H2|]. exists (x ++ y). rewrite Hx, Hy. now rewrite app_assoc. }
  destruct g.
  - destruct (ma st again) as [r|] eqn:E.
    + injection H as <-. now apply Hagain.
    + exists st. split; [exact H | now exists []].
  - destruct (k st) as [r|] eqn:E.
    + injection H as <-. exists st. split; [exact E | now exists []].
    + now apply Hagain.
Qed.

(** Whatever a pattern passes on to its continuation is a suffix of what it
    was given. *)
Lemma run_inv (r : regex) :
  forall st k res, run r st k = Some res ->
    exists st', k st' = Some res /\ suffixOf (rest st') (rest st).
Proof.
  induction r as [|p|a IHa b IHb|a IHa b IHb|g a IHa|a IHa| | |a IHa];
    intros st k res H; cbn [run] in H.
  - exists st. split; [exact H | now exists []].
  - destruct (rest st) as [|c cs] eqn:E; [discriminate|].
    destruct (p c); [|discriminate].
    exists (MState (Some c) cs (caps st)). split; [exact H | now exists [c]].
  - apply IHa in H. destruct H as (st1 & H1 & [x Hx]).
    apply IHb in H1. destruct H1 as (st2 & H2 & [y Hy]).
    exists st2. split; [exact H2|]. exists (x ++ y). rewrite Hx, Hy. now rewrite app_assoc.
  - destruct (run a st k) as [r|] eqn:E.
    + injection H as <-. now apply IHa.
    + now apply IHb.
  - now apply (star_loop_inv (run a) g k IHa) in H.
  - destruct (run a st Some); [discriminate|].
    exists st. split; [exact H | now exists []].
  - destruct (xorb _ _); [|discriminate].
    exists st. split; [exact H | now exists []].
  - exists st. split; [|now exists []].
    destruct (before st) as [c|]; [|exact H].
    now destruct (isLineTerminator c).
  - apply IHa in H. destruct H as (st1 & H1 & Hs).
    eexists. split; [exact H1 | exact Hs].
Qed.

(** A match and the text after it make up the text the attempt started at. *)
Lemma exec_sound (r : regex) (prev : option N) (s mt tl : jsstring) (cs : list jsstring) :
  exec r prev s = Some (mt, cs, tl) -> s = mt ++ tl.
Proof.
  unfold exec. destruct (run r (MState prev s []) Some) as [st'|] eqn:E; [|discriminate].
  intros H. injection H as <- _ <-.
  apply run_inv in E. destruct E as (st1 & H1 & [x Hx]).
  injection H1 as ->. cbn [rest] in Hx. subst s.
  now rewrite firstn_app_length.
Qed.

Lemma search_sound (r : regex) (s : jsstring) :
  forall prev pre mt cs tl,
    search r prev s = Some (pre, mt, cs, tl) ->
    s = pre ++ mt ++ tl /\ exec r (lastOr prev pre) (mt ++ tl) = Some (mt, cs, tl).
Proof.
  induction s as [|c s IH]; intros prev pre mt cs tl; cbn [search].
  - destruct (exec r prev []) as [[[m0 c0] t0]|] eqn:E; [|discriminate].
    intros H. injection H as <- <- <- <-.
    pose proof (exec_sound _ _ _ _ _ _ E) as Hs. split; [exact Hs|].
    cbn [app]. now rewrite <- Hs.
  - destruct (exec r prev (c :: s)) as [[[m0 c0] t0]|] eqn:E.
    + intros H. injection H as <- <- <- <-.
      pose proof (exec_sound _ _ _ _ _ _ E) as Hs. split; [exact Hs|].
      cbn [app]. now rewrite <- Hs.
    + destruct (search r (Some c) s) as [[[[p1 m1] c1] t1]|] eqn:Es; [|discriminate].
      intros H. injection H as <- <- <- <-.
      destruct (IH _ _ _ _ _ Es) as [-> He]. split; [reflexivity|].
      now rewrite lastOr_cons.
Qed.

(** A match somewhere means that the search finds one. *)
Lemma search_complete (r : regex) (x : jsstring) :
  forall prev t res,
    exec r (lastOr prev x) t = Some res -> search r prev (x ++ t) <> None.
Proof.
  induction x as [|c x IH]; intros prev t res H.
  - cbn [app]. change (lastOr prev []) with prev in H.
    destruct t; cbn [search]; rewrite H; now destruct res as [[? ?] ?].
  - cbn [app search]. destruct (exec r prev (c :: x ++ t)) as [[[? ?] ?]|]; [discriminate|].
    rewrite lastOr_cons in H. specialize (IH (Some c) t res H).
    destruct (search r (Some c) (x ++ t)) as [[[[? ?] ?] ?]|]; [discriminate | contradiction].
Qed.

(** No match anywhere when the search finds none. *)
Lemma search_none (r : regex) (x : jsstring) :
  forall prev t, search r prev (x ++ t) = None -> exec r (lastOr prev x) t = None.
Proof.
  intros prev t H. destruct (exec r (lastOr prev x) t) as [res|] eqn:E; [|reflexivity].
  now apply search_complete in E.
Qed.

End MatcherSoundness.

(** ** The cache over a run *)

Section CacheFacts.
Import Page Trace Stage Queue Cache.

Variable outerHTML : element -> jsstring -> jsstring.

Lemma scriptsOf_app (acts more : list action) :
  scriptsOf (acts ++ more) = scriptsOf acts ++ scriptsOf more.
Proof. apply flat_map_app. Qed.

Lemma engineResults_app (acts more : list action) :
  engineResults (acts ++ more) = engineResults acts ++ engineResults more.
Proof. apply flat_map_app. Qed.

Lemma elementAt_born (acts : list action) (b i : nat) (elt : element) :
  elementAt acts b i = Some elt -> (b < length (scriptsOf acts))%nat.
Proof.
  unfold elementAt. intros H.
  destruct (Nat.lt_ge_cases b (length (scriptsOf acts))) as [Hlt|Hge]; [assumption|].
  rewrite nth_overflow in H by assumption. now destruct i.
Qed.

Lemma elementAt_old (acts more : list action) (b i : nat) :
  (b < length (scriptsOf acts))%nat ->
  elementAt (acts ++ more) b i = elementAt acts b i.
Proof.
  intros H. unfold elementAt. now rewrite scriptsOf_app, app_nth1.
Qed.

Lemma elementAt_mono (acts more : list action) (b i : nat) (elt : element) :
  elementAt acts b i = Some elt -> elementAt (acts ++ more) b i = Some elt.
Proof.
  intros H. rewrite elementAt_old; [assumption|]. now apply elementAt_born in H.
Qed.

Lemma elementAt_same (acts : list action) (a : action) (b i : nat) :
  scriptsOf [a] = [] -> elementAt (acts ++ [a]) b i = elementAt acts b i.
Proof.
  intros H. unfold elementAt. now rewrite scriptsOf_app, H, app_nil_r.
Qed.

Lemma elementAt_new (acts : list action) (scripts : list element) (i : nat) :
  elementAt (acts ++ [Discover scripts]) (length (scriptsOf acts)) i =
  nth_error scripts i.
Proof.
  unfold elementAt. rewrite scriptsOf_app. cbn [scriptsOf flat_map app].
  now rewrite nth_middle.
Qed.

Lemma engineResults_mono (acts more : list action) (html : jsstring) :
  In html (engineResults acts) -> In html (engineResults (acts ++ more)).
Proof. intros H. rewrite engineResults_app. apply in_or_app. now left. Qed.

Lemma renderOf_mono (acts more : list action) (key svg : jsstring) :
  renderOf outerHTML acts key svg -> renderOf outerHTML (acts ++ more) key svg.
Proof.
  intros (b & i & elt & html & H1 & H2 & H3 & H4 & H5).
  exists b, i, elt, html. repeat split; try assumption.
  - now apply elementAt_mono.
  - now apply engineResults_mono.
Qed.

Lemma provenance_mono (d0 : jsstring -> option jsstring) (acts more : list action)
    (elt : element) (svg : jsstring) :
  provenance outerHTML d0 acts elt svg ->
  provenance outerHTML d0 (acts ++ more) elt svg.
Proof.
  intros [(html & H1 & H2)|(H1 & [H2|H2])].
  - left. exists html. split; [now apply engineResults_mono | assumption].
  - right. split; [assumption | now left].
  - right. split; [assumption | right; now apply renderOf_mono].
Qed.

Lemma In_indexed (scripts : list element) (i : nat) (elt : element) :
  In (i, elt) (indexed scripts) -> nth_error scripts i = Some elt.
Proof.
  unfold indexed. intros H.
  assert (G : forall n l, In (i, elt) (combine (seq n (length l)) l) ->
              (n <= i)%nat /\ nth_error l (i - n) = Some elt).
  { clear. intros n l; revert n; induction l as [|e l IH]; intros n H; [destruct H|].
    cbn [length seq combine] in H. destruct H as [H|H].
    - injection H as <- <-. split; [lia|]. now rewrite Nat.sub_diag.
    - apply IH in H. destruct H as [H1 H2]. split; [lia|].
      replace (i - n)%nat with (S (i - S n)) by lia. exact H2. }
  apply G in H. destruct H as [_ H]. now rewrite Nat.sub_0_r in H.
Qed.

Lemma savedSVG_spec (d : jsstring -> option jsstring) (elt : element) (svg : jsstring) :
  savedSVG d elt = Some svg ->
  disableCache elt = false /\ d (sourceHash elt) = Some svg /\ truthy svg = true.
Proof.
  unfold savedSVG. destruct (disableCache elt); [discriminate|].
  destruct (d (sourceHash elt)) as [v|]; [|discriminate].
  destruct (truthy v) eqn:E; [|discriminate].
  intros H. injection H as <-. auto.
Qed.

Lemma savedSVG_none (d : jsstring -> option jsstring) (elt : element) :
  savedSVG d elt = None -> disableCache elt = false ->
  cached d (sourceHash elt) = false.
Proof.
  unfold savedSVG, cached. intros H Hd. rewrite Hd in H.
  destruct (d (sourceHash elt)) as [v|]; [|reflexivity].
  now destruct (truthy v).
Qed.

Lemma jseqb_eq (a b : jsstring) : jseqb a b = true -> a = b.
Proof. unfold jseqb. now destruct (list_eq_dec N.eq_dec a b). Qed.

(** The general shape of a step of batch [b] that is no discovery. *)
Lemma cacheOk_update (d0 : jsstring -> option jsstring) (acts : list action)
    (a : action) (s : state) (b : nat) (newpc : pc) (evs : list event)
    (newdb : jsstring -> option jsstring) (newq : list nat) :
  cacheOk outerHTML d0 acts s ->
  scriptsOf [a] = [] ->
  (forall j, In j (jobsIn newpc) -> In j (jobsIn (batches s b))) ->
  (forall i elt svg todo, newpc = Storing (i, elt) svg todo ->
     disableCache elt = false /\
     exists html, In html (engineResults (acts ++ [a])) /\
                  svg = rendered outerHTML elt html) ->
  (forall key v, newdb key = Some v ->
     db s key = Some v \/ renderOf outerHTML (acts ++ [a]) key v) ->
  (forall b' i' svg, In (Injected b' i' svg) evs ->
     exists elt, elementAt acts b' i' = Some elt /\
                 provenance outerHTML d0 (acts ++ [a]) elt svg) ->
  cacheOk outerHTML d0 (acts ++ [a])
    (State newdb newq (setBatch (batches s) b newpc) (nextBatch s) (evs ++ trace s)).
Proof.
  intros Hs Ha Hjobs Hst Hdb Hinj.
  constructor; cbn [nextBatch batches db trace].
  - rewrite scriptsOf_app, Ha, app_nil_r. apply (k_next _ _ _ _ Hs).
  - intros b' i elt Hin. rewrite elementAt_same by assumption.
    apply (k_jobs _ _ _ _ Hs). unfold setBatch in Hin.
    destruct (Nat.eqb_spec b' b) as [->|_]; [now apply Hjobs | assumption].
  - intros b' i elt svg todo Hb. unfold setBatch in Hb.
    destruct (Nat.eqb_spec b' b) as [->|_]; [now apply (Hst i elt svg todo)|].
    destruct (k_storing _ _ _ _ Hs b' i elt svg todo Hb) as (H1 & html & H2 & H3).
    split; [assumption|]. exists html. split; [now apply engineResults_mono | assumption].
  - intros key v Hv. destruct (Hdb key v Hv) as [H|H]; [|now right].
    destruct (k_db _ _ _ _ Hs key v H) as [H'|H']; [now left|].
    right. now apply renderOf_mono.
  - intros b' i' svg Hin. apply in_app_or in Hin. destruct Hin as [Hin|Hin].
    + destruct (Hinj b' i' svg Hin) as (elt & H1 & H2).
      exists elt. split; [now apply elementAt_mono | assumption].
    + destruct (k_injected _ _ _ _ Hs b' i' svg Hin) as (elt & H1 & H2).
      exists elt. split; [now apply elementAt_mono | now apply provenance_mono].
Qed.

Ltac step_cases H :=
  match type of H with
  | Some _ = Some _ => injection H as <-
  | None = Some _ => discriminate H
  | match ?x with _ => _ end = Some _ =>
      let E := fresh "E" in destruct x eqn:E; step_cases H
  | (if ?x then _ else _) = Some _ =>
      let E := fresh "E" in destruct x eqn:E; step_cases H
  | (let '(_, _) := ?x in _) = Some _ => destruct x; step_cases H
  end.

Ltac no_injection :=
  let H := fresh "H" in
  intros ? ? ? H; cbn [In] in H;
  repeat (destruct H as [H|H]; [discriminate H|]); destruct H.

Ltac own_db := intros ? ? ?; now left.

Ltac jobs_tail Eb :=
  let j := fresh "j" in let Hj := fresh "Hj" in
  intros j Hj; rewrite Eb; cbn [jobsIn] in *; now right.

Ltac jobs_same Eb :=
  let j := fresh "j" in let Hj := fresh "Hj" in
  intros j Hj; now rewrite Eb.

Ltac not_storing :=
  let Hpc := fresh "Hpc" in
  intros ? ? ? ? Hpc; try destruct (Nat.ltb _ _); discriminate Hpc.

Lemma step_cacheOk (d0 : jsstring -> option jsstring) (acts : list action)
    (a : action) (s s' : state) :
  cacheOk outerHTML d0 acts s -> Page.step outerHTML a s = Some s' ->
  cacheOk outerHTML d0 (acts ++ [a]) s'.
Proof.
  intros Hs H. destruct a as [scripts|b|b|b|b|b r|b ok|b]; cbn [Page.step] in H.
  - (* Discover *)
    injection H as <-. pose proof (k_next _ _ _ _ Hs) as Hn.
    constructor; cbn [nextBatch batches db trace].
    + rewrite scriptsOf_app, length_app. cbn [scriptsOf flat_map app length]. lia.
    + intros b' i elt Hin. unfold setBatch in Hin.
      destruct (Nat.eqb_spec b' (nextBatch s)) as [->|_].
      * cbn [jobsIn] in Hin. rewrite app_nil_r in Hin. rewrite <- Hn, elementAt_new.
        now apply In_indexed.
      * apply elementAt_mono. now apply (k_jobs _ _ _ _ Hs).
    + intros b' i elt svg todo Hb. unfold setBatch in Hb.
      destruct (Nat.eqb_spec b' (nextBatch s)) as [->|_]; [discriminate Hb|].
      destruct (k_storing _ _ _ _ Hs b' i elt svg todo Hb) as (H1 & html & H2 & H3).
      split; [assumption|]. exists html. split; [now apply engineResults_mono | assumption].
    + intros key v Hv. destruct (k_db _ _ _ _ Hs key v Hv) as [H'|H']; [now left|].
      right. now apply renderOf_mono.
    + intros b' i' svg Hin.
      destruct (k_injected _ _ _ _ Hs b' i' svg Hin) as (elt & H1 & H2).
      exists elt. split; [now apply elementAt_mono | now apply provenance_mono].
  - (* Scan *)
    destruct (batches s b) as [[|[i elt] todo] texQueue| | | | |] eqn:Eb; try discriminate.
    destruct (savedSVG (db s) elt) as [svg|] eqn:Esv; injection H as <-.
    + apply (cacheOk_update d0 acts (Scan b) s b _ [LoadFinished b i; Injected b i svg]);
        [exact Hs | reflexivity | jobs_tail Eb | not_storing | own_db |].
      intros b' i' svg' Hin. destruct Hin as [Hin|[Hin|[]]]; [discriminate Hin|].
      injection Hin as <- <- <-. exists elt. split.
      * apply (k_jobs _ _ _ _ Hs b). rewrite Eb. now left.
      * apply savedSVG_spec in Esv. destruct Esv as (H1 & H2 & _).
        right. split; [assumption|].
        destruct (k_db _ _ _ _ Hs _ _ H2) as [H'|H']; [now left|].
        right. now apply renderOf_mono.
    + apply (cacheOk_update d0 acts (Scan b) s b _ [Placeholder b i]);
        [exact Hs | reflexivity | | not_storing | own_db | no_injection].
      intros j Hj. rewrite Eb. cbn [jobsIn] in *.
      apply in_app_or in Hj. destruct Hj as [Hj|Hj].
      * right. apply in_or_app. now left.
      * apply in_app_or in Hj. destruct Hj as [Hj|[<-|[]]].
        -- right. apply in_or_app. now right.
        -- now left.
  - (* AfterScan *)
    destruct (batches s b) as [[|] texQueue| | | | |] eqn:Eb; try discriminate.
    destruct texQueue as [|j texQueue]; injection H as <-.
    + change (trace s) with ([] ++ trace s).
      apply (cacheOk_update d0 acts (AfterScan b) s b Done []);
        [exact Hs | reflexivity | | not_storing | own_db | no_injection].
      intros j [].
    + change (Pushed b :: trace s) with ([Pushed b] ++ trace s).
      apply (cacheOk_update d0 acts (AfterScan b) s b _ [Pushed b]);
        [exact Hs | reflexivity | | not_storing | own_db | no_injection].
      intros j' Hj. rewrite Eb. now destruct (Nat.ltb _ _).
  - (* Wake *)
    destruct (batches s b) as [| pred texQueue | | | |] eqn:Eb; try discriminate.
    destruct (isDone (batches s pred)); [|discriminate]. injection H as <-.
    change (trace s) with ([] ++ trace s).
    apply (cacheOk_update d0 acts (Wake b) s b _ []);
      [exact Hs | reflexivity | jobs_same Eb | not_storing | own_db | no_injection].
  - (* Probe *)
    destruct (batches s b) as [| | [|[i elt] todo] | | |] eqn:Eb; try discriminate.
    destruct (savedSVG (db s) elt) as [svg|] eqn:Esv; injection H as <-.
    + apply (cacheOk_update d0 acts (Probe b) s b _
               [RenderFinished b i success []; LoadFinished b i; Injected b i svg]);
        [exact Hs | reflexivity | jobs_tail Eb | not_storing | own_db |].
      intros b' i' svg' Hin.
      destruct Hin as [Hin|[Hin|[Hin|[]]]]; try discriminate Hin.
      injection Hin as <- <- <-. exists elt. split.
      * apply (k_jobs _ _ _ _ Hs b). rewrite Eb. now left.
      * apply savedSVG_spec in Esv. destruct Esv as (H1 & H2 & _).
        right. split; [assumption|].
        destruct (k_db _ _ _ _ Hs _ _ H2) as [H'|H']; [now left|].
        right. now apply renderOf_mono.
    + apply (cacheOk_update d0 acts (Probe b) s b _ [EngineCall b i]);
        [exact Hs | reflexivity | jobs_same Eb | not_storing | own_db | no_injection].
  - (* EngineReturn *)
    destruct (batches s b) as [| | | [i elt] todo | |] eqn:Eb; try discriminate.
    assert (Hat : elementAt acts b i = Some elt).
    { apply (k_jobs _ _ _ _ Hs b). rewrite Eb. now left. }
    destruct r as [html|err].
    + assert (Hin : In html (engineResults (acts ++ [EngineReturn b (Ok html)]))).
      { rewrite engineResults_app. apply in_or_app. right. now left. }
      destruct (disableCache elt) eqn:Ed; injection H as <-.
      * apply (cacheOk_update d0 acts _ s b _
                 [RenderFinished b i success []; LoadFinished b i;
                  Injected b i (outerHTML elt (namespaceIds (sourceHash elt) html))]);
          [exact Hs | reflexivity | jobs_tail Eb | not_storing | own_db |].
        intros b' i' svg' Hin'.
        destruct Hin' as [Hin'|[Hin'|[Hin'|[]]]]; try discriminate Hin'.
        injection Hin' as <- <- <-. exists elt. split; [assumption|].
        left. exists html. now split.
      * apply (cacheOk_update d0 acts _ s b _
                 [Injected b i (outerHTML elt (namespaceIds (sourceHash elt) html))]);
          [exact Hs | reflexivity | jobs_same Eb | | own_db |].
        -- intros i0 elt0 svg0 todo0 Hpc. injection Hpc as <- <- <- <-.
           split; [assumption|]. exists html. now split.
        -- intros b' i' svg' Hin'. destruct Hin' as [Hin'|[]].
           injection Hin' as <- <- <-. exists elt. split; [assumption|].
           left. exists html. now split.
    + injection H as <-.
      apply (cacheOk_update d0 acts _ s b _ [RenderFinished b i error err; Broken b i]);
        [exact Hs | reflexivity | jobs_tail Eb | not_storing | own_db | no_injection].
  - (* StoreReturn *)
    destruct (batches s b) as [| | | | [i elt] svg todo |] eqn:Eb; try discriminate.
    injection H as <-.
    assert (Hat : elementAt acts b i = Some elt).
    { apply (k_jobs _ _ _ _ Hs b). rewrite Eb. now left. }
    destruct (k_storing _ _ _ _ Hs b i elt svg todo Eb) as (Hd & html & Hh & Hsvg).
    change (RenderFinished b i success [] :: LoadFinished b i ::
            (if ok then [CacheWrite b i] else []) ++ trace s)
      with ((RenderFinished b i success [] :: LoadFinished b i ::
             (if ok then [CacheWrite b i] else [])) ++ trace s).
    apply (cacheOk_update d0 acts (StoreReturn b ok) s b);
      [exact Hs | reflexivity | jobs_tail Eb | not_storing | |].
    + intros key v Hv. destruct ok; [|now left].
      unfold setItem in Hv. destruct (jseqb key (sourceHash elt)) eqn:Ek; [|now left].
      injection Hv as <-. apply jseqb_eq in Ek. right.
      exists b, i, elt, html. repeat split; try assumption.
      * now apply elementAt_mono.
      * now symmetry.
      * now apply engineResults_mono.
    + intros b' i' svg' Hin. exfalso.
      destruct Hin as [Hin|[Hin|Hin]]; try discriminate Hin.
      destruct ok; [destruct Hin as [Hin|[]]; discriminate Hin | destruct Hin].
  - (* Finish *)
    destruct (batches s b) as [| | [|] | | |] eqn:Eb; try discriminate.
    injection H as <-.
    change (Shifted b :: trace s) with ([Shifted b] ++ trace s).
    apply (cacheOk_update d0 acts (Finish b) s b Done [Shifted b]);
      [exact Hs | reflexivity | | not_storing | own_db | no_injection].
    intros j [].
Qed.

Lemma initial_cacheOk (d0 : jsstring -> option jsstring) :
  cacheOk outerHTML d0 [] (initial d0).
Proof.
  constructor; cbn.
  - reflexivity.
  - intros b i elt [].
  - discriminate.
  - intros key v H. now left.
  - intros b i svg [].
Qed.

Lemma run_cacheOk (d0 : jsstring -> option jsstring) (acts : list action) :
  forall pre s s',
    cacheOk outerHTML d0 pre s -> Page.run outerHTML acts s = Some s' ->
    cacheOk outerHTML d0 (pre ++ acts) s'.
Proof.
  induction acts as [|a acts IH]; intros pre s s' Hs H; cbn [Page.run] in H.
  - injection H as <-. now rewrite app_nil_r.
  - destruct (Page.step outerHTML a s) as [s1|] eqn:E; [|discriminate].
    change (a :: acts) with ([a] ++ acts). rewrite app_assoc.
    apply (IH _ s1); [now apply (step_cacheOk d0 pre a s) | assumption].
Qed.

(** *** Stored renders *)

Lemma event_born (s : state) (e : event) (b i : nat) :
  elementsOk s -> In e (trace s) -> about b i e = true -> (b < nextBatch s)%nat.
Proof.
  intros Hs Hin Ha.
  destruct (Nat.lt_ge_cases b (nextBatch s)) as [Hlt|Hge]; [assumption|].
  destruct (e_fresh s Hs b Hge) as [_ Hno]. specialize (Hno i).
  assert (Hf : In e (eventsOf b i (trace s))) by (apply filter_In; now split).
  rewrite Hno in Hf. destruct Hf.
Qed.

Lemma noRerender_old (acts acts' : list action) (n : nat) (tr : list event) :
  (forall e b i, In e tr -> about b i e = true -> (b < n)%nat) ->
  (forall b i, (b < n)%nat -> elementAt acts' b i = elementAt acts b i) ->
  noRerender acts tr -> noRerender acts' tr.
Proof.
  intros Hb He. induction tr as [|e tr IH]; [trivial|].
  cbn [noRerender]. intros [H1 H2]. split.
  - destruct e as [| | | | |b' i'| | |]; trivial.
    intros b i elt elt' Hin Hat Hat' Hh.
    rewrite He in Hat.
    2:{ apply (Hb (CacheWrite b i) b i); [now right|]. cbn. now rewrite !Nat.eqb_refl. }
    rewrite He in Hat'.
    2:{ apply (Hb (EngineCall b' i') b' i'); [now left|]. cbn. now rewrite !Nat.eqb_refl. }
    now apply (H1 b i elt elt').
  - apply IH; [|assumption]. intros e0 b i Hin. apply Hb. now right.
Qed.

Lemma noRerender_app (acts : list action) (evs tr : list event) :
  (forall e, In e evs -> isEngineCall e = false) ->
  noRerender acts tr -> noRerender acts (evs ++ tr).
Proof.
  induction evs as [|e evs IH]; intros He Ht; [assumption|].
  cbn [app noRerender]. split.
  - specialize (He e (or_introl eq_refl)). now destruct e.
  - apply IH; [|assumption]. intros e0 Hin. apply He. now right.
Qed.

Lemma elementAt_step (acts : list action) (a : action) (s : state) (b i : nat) :
  length (scriptsOf acts) = nextBatch s -> (b < nextBatch s)%nat ->
  elementAt (acts ++ [a]) b i = elementAt acts b i.
Proof. intros Hn Hb. apply elementAt_old. lia. Qed.

Lemma works_unique (s : state) (b b' : nat) :
  queueOk s -> kindOf (batches s b) = Works -> kindOf (batches s b') = Works -> b' = b.
Proof.
  intros Hq H1 H2. apply (q_works s Hq) in H1. apply (q_works s Hq) in H2.
  congruence.
Qed.

Lemma current_works (p : pc) (elt : element) :
  current p = Some elt -> kindOf p = Works.
Proof. destruct p; cbn; try discriminate; reflexivity. Qed.

(** A step that leaves the store alone and neither calls the engine nor
    writes the cache. *)
Lemma storedOk_frame (acts : list action) (a : action) (s : state) (b : nat)
    (newpc : pc) (evs : list event) (newq : list nat) (n : nat) :
  elementsOk s -> length (scriptsOf acts) = nextBatch s ->
  storedOk acts s ->
  (forall elt, current newpc = Some elt -> current (batches s b) = Some elt) ->
  (forall e, In e evs -> isEngineCall e = false) ->
  (forall b i, ~ In (CacheWrite b i) evs) ->
  storedOk (acts ++ [a])
    (State (db s) newq (setBatch (batches s) b newpc) n (evs ++ trace s)).
Proof.
  intros He Hn Hs Hcur Hev Hcw. constructor; cbn [db batches trace].
  - intros b' elt Hc. apply (r_busy _ _ Hs b'). unfold setBatch in Hc.
    destruct (Nat.eqb_spec b' b) as [->|_]; [now apply Hcur | assumption].
  - intros b' i elt Hin Hat. apply in_app_or in Hin.
    destruct Hin as [Hin|Hin]; [now apply Hcw in Hin|].
    apply (r_written _ _ Hs b' i); [assumption|].
    rewrite <- Hat. symmetry. apply (elementAt_step acts a s); [assumption|].
    apply (event_born s (CacheWrite b' i) b' i); try assumption.
    cbn. now rewrite !Nat.eqb_refl.
  - apply noRerender_app; [assumption|].
    apply (noRerender_old acts _ (nextBatch s)).
    + intros e b' i. now apply event_born.
    + intros b' i Hb. now apply (elementAt_step acts a s).
    + apply (r_order _ _ Hs).
Qed.

Ltac quiet_events :=
  let e := fresh "e" in let H := fresh "H" in
  intros e H; cbn [In] in H;
  repeat (destruct H as [<-|H]; [reflexivity|]); destruct H.

Ltac no_write :=
  let H := fresh "H" in
  intros ? ? H; cbn [In] in H;
  repeat (destruct H as [H|H]; [discriminate H|]); destruct H.

Section Nonempty.

(** The serialization of an element node is never empty. *)
Hypothesis outerHTML_truthy : forall elt html, truthy (outerHTML elt html) = true.

Lemma step_storedOk (d0 : jsstring -> option jsstring) (acts : list action)
    (a : action) (s s' : state) :
  elementsOk s -> queueOk s -> cacheOk outerHTML d0 acts s -> storedOk acts s ->
  Page.step outerHTML a s = Some s' -> storedOk (acts ++ [a]) s'.
Proof.
  intros He Hq Hk Hs H. pose proof (k_next _ _ _ _ Hk) as Hn.
  destruct a as [scripts|b|b|b|b|b r|b ok|b]; cbn [Page.step] in H.
  - (* Discover *)
    injection H as <-.
    change (trace s) with ([] ++ trace s).
    apply (storedOk_frame acts _ s (nextBatch s)); try assumption.
    + discriminate.
    + intros e [].
    + intros b i [].
  - (* Scan *)
    destruct (batches s b) as [[|[i elt] todo] texQueue| | | | |] eqn:Eb; try discriminate.
    destruct (savedSVG (db s) elt) as [svg|] eqn:Esv; injection H as <-.
    + apply (storedOk_frame acts _ s b _ [LoadFinished b i; Injected b i svg]);
        try assumption; [discriminate | quiet_events | no_write].
    + apply (storedOk_frame acts _ s b _ [Placeholder b i]);
        try assumption; [discriminate | quiet_events | no_write].
  - (* AfterScan *)
    destruct (batches s b) as [[|] texQueue| | | | |] eqn:Eb; try discriminate.
    destruct texQueue as [|j texQueue]; injection H as <-.
    + change (trace s) with ([] ++ trace s).
      apply (storedOk_frame acts _ s b Done []); try assumption;
        [discriminate | quiet_events | no_write].
    + apply (storedOk_frame acts _ s b _ [Pushed b]); try assumption;
        [ | quiet_events | no_write].
      intros elt Hc. now destruct (Nat.ltb _ _).
  - (* Wake *)
    destruct (batches s b) as [| pred texQueue | | | |] eqn:Eb; try discriminate.
    destruct (isDone (batches s pred)); [|discriminate]. injection H as <-.
    change (trace s) with ([] ++ trace s).
    apply (storedOk_frame acts _ s b _ []); try assumption;
      [discriminate | quiet_events | no_write].
  - (* Probe *)
    destruct (batches s b) as [| | [|[i elt] todo] | | |] eqn:Eb; try discriminate.
    destruct (savedSVG (db s) elt) as [svg|] eqn:Esv; injection H as <-.
    + apply (storedOk_frame acts _ s b _
               [RenderFinished b i success []; LoadFinished b i; Injected b i svg]);
        try assumption; [discriminate | quiet_events | no_write].
    + assert (Hat : elementAt acts b i = Some elt).
      { apply (k_jobs _ _ _ _ Hk b). rewrite Eb. now left. }
      constructor; cbn [db batches trace].
      * intros b' elt' Hc Hd. unfold setBatch in Hc.
        destruct (Nat.eqb_spec b' b) as [->|_].
        -- injection Hc as <-. now apply savedSVG_none.
        -- now apply (r_busy _ _ Hs b').
      * intros b' i' elt' Hin Hat'. destruct Hin as [Hin|Hin]; [discriminate Hin|].
        apply (r_written _ _ Hs b' i'); [assumption|].
        rewrite <- Hat'. symmetry. apply (elementAt_step acts _ s); [assumption|].
        apply (event_born s (CacheWrite b' i') b' i'); try assumption.
        cbn. now rewrite !Nat.eqb_refl.
      * cbn [noRerender]. split.
        -- intros b0 i0 elt0 elt' Hin Hat0 Hat' Hh.
           rewrite (elementAt_step acts _ s) in Hat0.
           2: assumption.
           2:{ apply (event_born s (CacheWrite b0 i0) b0 i0); try assumption.
               cbn. now rewrite !Nat.eqb_refl. }
           rewrite elementAt_mono with (elt := elt) in Hat' by assumption.
           injection Hat' as <-.
           destruct (disableCache elt) eqn:Ed; [reflexivity|].
           pose proof (savedSVG_none _ _ Esv Ed) as Hc.
           pose proof (r_written _ _ Hs b0 i0 elt0 Hin Hat0) as Hw.
           rewrite Hh in Hw. congruence.
        -- apply (noRerender_old acts _ (nextBatch s)).
           ++ intros e b' i'. now apply event_born.
           ++ intros b' i' Hb. now apply (elementAt_step acts _ s).
           ++ apply (r_order _ _ Hs).
  - (* EngineReturn *)
    destruct (batches s b) as [| | | [i elt] todo | |] eqn:Eb; try discriminate.
    destruct r as [html|err].
    + destruct (disableCache elt) eqn:Ed; injection H as <-.
      * apply (storedOk_frame acts _ s b _
                 [RenderFinished b i success []; LoadFinished b i;
                  Injected b i (outerHTML elt (namespaceIds (sourceHash elt) html))]);
          try assumption; [discriminate | quiet_events | no_write].
      * apply (storedOk_frame acts _ s b _
                 [Injected b i (outerHTML elt (namespaceIds (sourceHash elt) html))]);
          try assumption; [ | quiet_events | no_write].
        intros elt' Hc. rewrite Eb. exact Hc.
    + injection H as <-.
      apply (storedOk_frame acts _ s b _ [RenderFinished b i error err; Broken b i]);
        try assumption; [discriminate | quiet_events | no_write].
  - (* StoreReturn *)
    destruct (batches s b) as [| | | | [i elt] svg todo |] eqn:Eb; try discriminate.
    injection H as <-. destruct ok.
    + assert (Hat : elementAt acts b i = Some elt).
      { apply (k_jobs _ _ _ _ Hk b). rewrite Eb. now left. }
      destruct (k_storing _ _ _ _ Hk b i elt svg todo Eb) as (Hd & html & Hh & Hsvg).
      assert (Hsv : truthy svg = true) by (rewrite Hsvg; apply outerHTML_truthy).
      assert (Hkeep : forall key, cached (db s) key = true ->
                cached (setItem (db s) (sourceHash elt) svg) key = true).
      { intros key Hc. unfold cached, setItem in *.
        now destruct (jseqb key (sourceHash elt)). }
      constructor; cbn [db batches trace].
      * intros b' elt' Hc Hd'. exfalso. unfold setBatch in Hc.
        destruct (Nat.eqb_spec b' b) as [->|Hne]; [discriminate Hc|].
        apply Hne. apply (works_unique s b b' Hq).
        -- now rewrite Eb.
        -- now apply current_works in Hc.
      * intros b' i' elt' Hin Hat'.
        destruct Hin as [Hin|[Hin|[Hin|Hin]]]; try discriminate Hin.
        -- injection Hin as <- <-.
           rewrite elementAt_mono with (elt := elt) in Hat' by assumption.
           injection Hat' as <-. unfold cached, setItem.
           assert (Hr : jseqb (sourceHash elt) (sourceHash elt) = true).
           { unfold jseqb. now destruct (list_eq_dec N.eq_dec _ _). }
           now rewrite Hr.
        -- apply Hkeep. apply (r_written _ _ Hs b' i'); [assumption|].
           rewrite <- Hat'. symmetry. apply (elementAt_step acts _ s); [assumption|].
           apply (event_born s (CacheWrite b' i') b' i'); try assumption.
           cbn. now rewrite !Nat.eqb_refl.
      * change (RenderFinished b i success [] :: LoadFinished b i ::
                [CacheWrite b i] ++ trace s)
          with ([RenderFinished b i success []; LoadFinished b i; CacheWrite b i] ++
                trace s).
        apply noRerender_app; [quiet_events|].
        apply (noRerender_old acts _ (nextBatch s)).
        -- intros e b' i'. now apply event_born.
        -- intros b' i' Hb. now apply (elementAt_step acts _ s).
        -- apply (r_order _ _ Hs).
    + change (RenderFinished b i success [] :: LoadFinished b i :: [] ++ trace s)
        with ([RenderFinished b i success []; LoadFinished b i] ++ trace s).
      apply (storedOk_frame acts _ s b _
               [RenderFinished b i success []; LoadFinished b i]);
        try assumption; [discriminate | quiet_events | no_write].
  - (* Finish *)
    destruct (batches s b) as [| | [|] | | |] eqn:Eb; try discriminate.
    injection H as <-.
    apply (storedOk_frame acts _ s b Done [Shifted b]); try assumption;
      [discriminate | quiet_events | no_write].
Qed.

Lemma initial_storedOk (d0 : jsstring -> option jsstring) :
  storedOk [] (initial d0).
Proof.
  constructor; cbn.
  - discriminate.
  - intros b i elt [].
  - trivial.
Qed.

Lemma run_storedOk (d0 : jsstring -> option jsstring) (acts : list action) :
  forall pre s s',
    elementsOk s -> queueOk s -> cacheOk outerHTML d0 pre s -> storedOk pre s ->
    Page.run outerHTML acts s = Some s' -> storedOk (pre ++ acts) s'.
Proof.
  induction acts as [|a acts IH]; intros pre s s' He Hq Hk Hs H; cbn [Page.run] in H.
  - injection H as <-. now rewrite app_nil_r.
  - destruct (Page.step outerHTML a s) as [s1|] eqn:E; [|discriminate].
    change (a :: acts) with ([a] ++ acts). rewrite app_assoc.
    apply (IH _ s1); try assumption.
    + now apply (step_elementsOk outerHTML a s).
    + now apply (step_queueOk outerHTML a s).
    + now apply (step_cacheOk d0 pre a s).
    + now apply (step_storedOk d0 pre a s).
Qed.

Lemma noRerender_at (acts : list action) (newer older : list event) (b' i' : nat) :
  noRerender acts (newer ++ EngineCall b' i' :: older) ->
  forall b i elt elt',
    In (CacheWrite b i) older ->
    elementAt acts b i = Some elt -> elementAt acts b' i' = Some elt' ->
    sourceHash elt = sourceHash elt' -> disableCache elt' = true.
Proof.
  induction newer as [|e newer IH]; cbn [app noRerender]; intros [H1 H2].
  - exact H1.
  - now apply IH.
Qed.

(** X6.  Once the render of an element has been written to the cache, no
    element with the same fingerprint is sent to the engine any more,
    unless it disables the cache: of an engine call that follows a cache
    write, the element has another fingerprint or has [disableCache]
    set. *)
Theorem no_render_after_store (d0 : jsstring -> option jsstring)
    (acts : list action) (s : state) :
  Page.run outerHTML acts (initial d0) = Some s ->
  forall newer older b i b' i' elt elt',
    trace s = newer ++ EngineCall b' i' :: older ->
    In (CacheWrite b i) older ->
    elementAt acts b i = Some elt -> elementAt acts b' i' = Some elt' ->
    sourceHash elt <> sourceHash elt' \/ disableCache elt' = true.
Proof.
  intros H newer older b i b' i' elt elt' Ht Hin Hat Hat'.
  pose proof (run_storedOk d0 acts [] _ _ (initial_elementsOk d0)
                (initial_queueOk d0) (initial_cacheOk d0) (initial_storedOk d0) H) as Hs.
  cbn [app] in Hs. pose proof (r_order _ _ Hs) as Ho. rewrite Ht in Ho.
  destruct (jsstring_eq_dec (sourceHash elt) (sourceHash elt')) as [E|E]; [|now left].
  right. now apply (noRerender_at acts newer older b' i' Ho b i elt elt').
Qed.

End Nonempty.

(** X3.  Once a batch has resolved, the events of each of its elements
    are, from the newest to the oldest, one of: none (no such element);
    load-finished after the injection of cached markup; render-finished,
    load-finished and the injection of cached markup after the
    placeholder (a duplicate found in the cache by [process]);
    render-finished with status error and the broken-image icon after the
    engine call; render-finished with status success, load-finished,
    possibly the cache write, and the injection after the engine call. *)
Theorem resolved_history (d0 : jsstring -> option jsstring)
    (acts : list action) (s : state) (b i : nat) :
  Page.run outerHTML acts (initial d0) = Some s ->
  batches s b = Done ->
  complete b i (eventsOf b i (trace s)).
Proof.
  intros H Hd.
  pose proof (run_elementsOk outerHTML acts _ _ (initial_elementsOk d0) H) as Hs.
  pose proof (e_history s Hs b i) as Hh. now rewrite Hd in Hh.
Qed.

(** X4.  Whatever the object store holds under a key was there at the
    start or is what [process] injected for an element of the run with
    that fingerprint and the cache enabled, built from markup the engine
    returned: errors and renders of elements with [disableCache] are
    never stored. *)
Theorem cache_holds_renders (d0 : jsstring -> option jsstring)
    (acts : list action) (s : state) (key v : jsstring) :
  Page.run outerHTML acts (initial d0) = Some s ->
  db s key = Some v ->
  d0 key = Some v \/ renderOf outerHTML acts key v.
Proof.
  intros H Hv.
  pose proof (run_cacheOk d0 acts [] _ _ (initial_cacheOk d0) H) as Hs.
  now apply (k_db _ _ _ _ Hs).
Qed.

(** X5.  Whatever is injected for an element is its own render, or, if it
    does not disable the cache, markup the store held at the start under
    its fingerprint or the render of an element of the run with the same
    fingerprint. *)
Theorem injected_provenance (d0 : jsstring -> option jsstring)
    (acts : list action) (s : state) (b i : nat) (svg : jsstring) :
  Page.run outerHTML acts (initial d0) = Some s ->
  In (Injected b i svg) (trace s) ->
  exists elt, elementAt acts b i = Some elt /\ provenance outerHTML d0 acts elt svg.
Proof.
  intros H Hin.
  pose proof (run_cacheOk d0 acts [] _ _ (initial_cacheOk d0) H) as Hs.
  now apply (k_injected _ _ _ _ Hs).
Qed.

End CacheFacts.

(** The first of three batches has been rendered and stored when the
    second is sent to the engine: the two have different fingerprints. *)
Lemma no_render_after_store_sample :
  exists s older,
    Page.run Scenario.outerHTML Scenario.threeBatches (Page.initial Scenario.emptyDb) = Some s /\
    Page.trace s = [] ++ Page.EngineCall 1 0 :: older /\
    In (Page.CacheWrite 0 0) older /\
    (Page.sourceHash Scenario.picture <> Page.sourceHash (Page.Element [] (lit "B")) \/
     Page.disableCache (Page.Element [] (lit "B")) = true).
Proof.
  let r := eval vm_compute in
    (Page.run Scenario.outerHTML Scenario.threeBatches (Page.initial Scenario.emptyDb)) in
  match r with
  | Some ?s0 =>
      exists s0;
      assert (E : Page.run Scenario.outerHTML Scenario.threeBatches
                    (Page.initial Scenario.emptyDb) = Some s0)
        by (vm_compute; reflexivity);
      let t := eval vm_compute in (tl (Page.trace s0)) in
      exists t;
      assert (Et : Page.trace s0 = [] ++ Page.EngineCall 1 0 :: t)
        by (vm_compute; reflexivity);
      assert (Hin : In (Page.CacheWrite 0 0) t)
        by (vm_compute; tauto);
      pose proof (no_render_after_store Scenario.outerHTML (fun _ _ => eq_refl)
                    Scenario.emptyDb Scenario.threeBatches s0 E
                    [] t 0%nat 0%nat 1%nat 0%nat
                    Scenario.picture (Page.Element [] (lit "B")) Et Hin
                    eq_refl eq_refl) as T
  end.
  repeat split; assumption.
Defined.

Lemma resolved_history_sample :
  exists s,
    Page.run Scenario.outerHTML Scenario.rediscovery (Page.initial Scenario.emptyDb) = Some s /\
    Page.batches s 0%nat = Page.Done /\
    Stage.complete 0 0 (Trace.eventsOf 0 0 (Page.trace s)).
Proof.
  let r := eval vm_compute in
    (Page.run Scenario.outerHTML Scenario.rediscovery (Page.initial Scenario.emptyDb)) in
  match r with
  | Some ?s0 =>
      exists s0;
      assert (E : Page.run Scenario.outerHTML Scenario.rediscovery
                    (Page.initial Scenario.emptyDb) = Some s0)
        by (vm_compute; reflexivity);
      assert (Ed : Page.batches s0 0%nat = Page.Done) by (vm_compute; reflexivity);
      pose proof (resolved_history Scenario.outerHTML Scenario.emptyDb
                    Scenario.rediscovery s0 0%nat 0%nat E Ed) as T
  end.
  repeat split; assumption.
Defined.

Lemma cache_holds_renders_sample :
  exists s v,
    Page.run Scenario.outerHTML Scenario.rediscovery (Page.initial Scenario.emptyDb) = Some s /\
    Page.db s (Page.sourceHash Scenario.picture) = Some v /\
    (Scenario.emptyDb (Page.sourceHash Scenario.picture) = Some v \/
     Cache.renderOf Scenario.outerHTML Scenario.rediscovery
       (Page.sourceHash Scenario.picture) v).
Proof.
  let r := eval vm_compute in
    (Page.run Scenario.outerHTML Scenario.rediscovery (Page.initial Scenario.emptyDb)) in
  match r with
  | Some ?s0 =>
      exists s0;
      assert (E : Page.run Scenario.outerHTML Scenario.rediscovery
                    (Page.initial Scenario.emptyDb) = Some s0)
        by (vm_compute; reflexivity);
      let o := eval vm_compute in (Page.db s0 (Page.sourceHash Scenario.picture)) in
      match o with
      | Some ?v0 =>
          exists v0;
          assert (Ev : Page.db s0 (Page.sourceHash Scenario.picture) = Some v0)
            by (vm_compute; reflexivity);
          pose proof (cache_holds_renders Scenario.outerHTML Scenario.emptyDb
                        Scenario.rediscovery s0 (Page.sourceHash Scenario.picture) v0
                        E Ev) as T
      end
  end.
  repeat split; assumption.
Defined.

Lemma injected_provenance_sample :
  exists s svg,
    Page.run Scenario.outerHTML Scenario.rediscovery (Page.initial Scenario.emptyDb) = Some s /\
    In (Page.Injected 1 0 svg) (Page.trace s) /\
    exists elt, Cache.elementAt Scenario.rediscovery 1 0 = Some elt /\
                Cache.provenance Scenario.outerHTML Scenario.emptyDb
                  Scenario.rediscovery elt svg.
Proof.
  let r := eval vm_compute in
    (Page.run Scenario.outerHTML Scenario.rediscovery (Page.initial Scenario.emptyDb)) in
  match r with
  | Some ?s0 =>
      exists s0;
      assert (E : Page.run Scenario.outerHTML Scenario.rediscovery
                    (Page.initial Scenario.emptyDb) = Some s0)
        by (vm_compute; reflexivity);
      let o := eval vm_compute in (Page.db s0 (Page.sourceHash Scenario.picture)) in
      match o with
      | Some ?v0 =>
          exists v0;
          assert (Hin : In (Page.Injected 1 0 v0) (Page.trace s0))
            by (vm_compute; tauto);
          pose proof (injected_provenance Scenario.outerHTML Scenario.emptyDb
                        Scenario.rediscovery s0 1%nat 0%nat v0 E Hin) as T
      end
  end.
  repeat split; assumption.
Defined.

(** ** The address of the worker *)

Section StartupFacts.
Import Regex Startup.

(** A search finds the first position at which the pattern matches. *)
Lemma search_at (r : regex) (x : jsstring) :
  forall prev t mt cs tl,
    (forall x1 x2, x = x1 ++ x2 -> x2 <> [] ->
       exec r (lastOr prev x1) (x2 ++ t) = None) ->
    exec r (lastOr prev x) t = Some (mt, cs, tl) ->
    search r prev (x ++ t) = Some (x, mt, cs, tl).
Proof.
  induction x as [|c x IH]; intros prev t mt cs tl Hmiss Hhit.
  - cbn [app]. now apply search_hit.
  - cbn [app search].
    assert (H0 : exec r prev (c :: x ++ t) = None).
    { apply (Hmiss [] (c :: x) eq_refl). discriminate. }
    rewrite H0.
    rewrite (IH (Some c) t mt cs tl).
    + reflexivity.
    + intros x1 x2 -> Hne. rewrite <- (lastOr_cons prev c x1).
      now apply (Hmiss (c :: x1) x2).
    + now rewrite <- (lastOr_cons prev c x).
Qed.

(** A greedy class in front of the end of the input passes everything or
    fails. *)
Lemma run_greedy_to_end (p : N -> bool) (s : jsstring) (pre : option N)
    (cs : list jsstring) (k : cont) :
  run (Star true (Chr p)) (MState pre s cs)
      (fun st => run (NotAhead anyChar) st k) =
  if forallb p s then k (MState (lastOr pre s) [] cs) else None.
Proof.
  revert pre; induction s as [|c s IH]; intros pre; rewrite run_star_class.
  - reflexivity.
  - cbn [forallb]. destruct (p c); cbn [andb]; [|reflexivity].
    rewrite IH, (lastOr_cons pre c s).
    destruct (forallb p s); [|reflexivity].
    now destruct (k _).
Qed.

Lemma forallb_negb (p : N -> bool) (s : jsstring) :
  forallb (fun x => negb (p x)) s = negb (existsb p s).
Proof.
  induction s as [|c s IH]; [reflexivity|].
  cbn [forallb existsb]. rewrite IH. now destruct (p c).
Qed.

(** What the pattern finds at the start of a string: the whole string, if
    it is the script name followed by nothing or by a query. *)
Lemma exec_scriptRegex (prev : option N) (s : jsstring) :
  exec scriptRegex prev s =
  if startsWith scriptName s && isQuery (skipn 11 s) then Some (s, [], []) else None.
Proof.
  unfold exec, scriptRegex. rewrite run_seq, run_str.
  destruct (startsWith scriptName s) eqn:E; cbn [andb]; [|reflexivity].
  change (length scriptName) with 11%nat.
  rewrite run_seq. unfold opt. rewrite run_alt, run_seq.
  destruct (skipn 11 s) as [|c q] eqn:Eq.
  - cbn. now rewrite Nat.sub_0_r, firstn_all.
  - unfold chr at 1. rewrite run_chr_cons. cbn [isQuery].
    destruct (N.eqb_spec 63 c) as [<-|Hc].
    + rewrite N.eqb_refl. cbn [andb]. unfold dot. rewrite run_greedy_to_end.
      rewrite forallb_negb.
      destruct (existsb isLineTerminator q); cbn [negb]; [reflexivity|].
      cbn [rest caps length]. now rewrite Nat.sub_0_r, firstn_all.
    + rewrite (proj2 (N.eqb_neq c 63)) by congruence. reflexivity.
Qed.

Lemma includes_false_startsWith (p s : jsstring) :
  includes p s = false -> startsWith p s = false.
Proof.
  destruct s; cbn [includes]; intros H; apply orb_false_iff in H; tauto.
Qed.

Lemma includes_suffix (p x1 x2 : jsstring) :
  includes p (x1 ++ x2) = false -> includes p x2 = false.
Proof.
  induction x1 as [|c x1 IH]; [trivial|].
  cbn [app includes]. intros H. apply orb_false_iff in H. now apply IH.
Qed.

(** The script name cannot begin before a slash and reach across it. *)
Lemma startsWith_scriptName_across (x t : jsstring) :
  x <> [] -> startsWith scriptName (x ++ 47 :: t) = startsWith scriptName x.
Proof.
  destruct x as [|c x]; [contradiction|]. intros _.
  change scriptName with (47 :: lit "tikzjax.js").
  cbn [app startsWith]. rewrite startsWith_sep; [reflexivity|].
  cbn. intros H. repeat (destruct H as [H|H]; [discriminate H|]). exact H.
Qed.

(** X7.  [urlRoot] leaves the address as it is, or cuts it where
    [/tikzjax.js] begins when nothing or a query follows the name up to
    the end of the address. *)
Theorem urlRoot_cuts_script_name (href : jsstring) :
  urlRoot href = href \/
  exists root q,
    href = root ++ scriptName ++ q /\ isQuery q = true /\ urlRoot href = root.
Proof.
  unfold urlRoot.
  destruct (search scriptRegex None href) as [[[[pre mt] cs] tl]|] eqn:E; [|now left].
  right. apply search_sound in E. destruct E as [Eh Ee].
  rewrite exec_scriptRegex in Ee.
  destruct (startsWith scriptName (mt ++ tl)) eqn:Es; cbn [andb] in Ee; [|discriminate].
  destruct (isQuery (skipn 11 (mt ++ tl))) eqn:Eq; [|discriminate].
  injection Ee as Em Et. subst tl. rewrite app_nil_r in *.
  apply startsWith_length in Es. destruct Es as [_ Es].
  change (length scriptName) with 11%nat in Es.
  exists pre, (skipn 11 mt). repeat split.
  - now rewrite <- Es.
  - exact Eq.
Qed.

(** X8.  For an address made of a root without [/tikzjax.js], the script
    name and nothing or a query, [urlRoot] is the root, and the worker
    script is looked up at the root. *)
Theorem urlRoot_of_script (root q : jsstring) :
  includes scriptName root = false -> isQuery q = true ->
  urlRoot (root ++ scriptName ++ q) = root /\
  workerUrl (root ++ scriptName ++ q) = root ++ lit "/run-tex.js".
Proof.
  intros Hr Hq.
  assert (E : search scriptRegex None (root ++ scriptName ++ q) =
              Some (root, scriptName ++ q, [], [])).
  { apply search_at.
    - intros x1 x2 -> Hne. rewrite exec_scriptRegex.
      change (x2 ++ scriptName ++ q) with (x2 ++ 47 :: lit "tikzjax.js" ++ q).
      rewrite startsWith_scriptName_across by assumption.
      apply includes_suffix in Hr. apply includes_false_startsWith in Hr.
      now rewrite Hr.
    - rewrite exec_scriptRegex, startsWith_app.
      change (skipn 11 (scriptName ++ q)) with q. now rewrite Hq. }
  unfold workerUrl, urlRoot. rewrite E, app_nil_r. now split.
Qed.

End StartupFacts.

(** The script loaded with a version in its query. *)
Lemma urlRoot_of_script_sample :
  Startup.urlRoot (lit "https://example.org/dist" ++ Startup.scriptName ++ lit "?v=2") =
    lit "https://example.org/dist" /\
  Startup.workerUrl (lit "https://example.org/dist" ++ Startup.scriptName ++ lit "?v=2") =
    lit "https://example.org/dist" ++ lit "/run-tex.js".
Proof.
  exact (urlRoot_of_script (lit "https://example.org/dist") (lit "?v=2") eq_refl eq_refl).
Defined.

(** ** Reading a code point back *)

Section UnicodeFacts.
Import Regex Worker.

Lemma take_drop (p : N -> bool) (s : jsstring) :
  takeWhile p s ++ dropWhile p s = s.
Proof.
  induction s as [|c s IH]; [reflexivity|].
  cbn [takeWhile dropWhile]. destruct (p c); [|reflexivity].
  cbn [app]. now rewrite IH.
Qed.

Lemma takeWhile_all (p : N -> bool) (s : jsstring) :
  forallb p s = true -> takeWhile p s = s /\ dropWhile p s = [].
Proof.
  induction s as [|c s IH]; [now split|].
  cbn [forallb takeWhile dropWhile]. intros H. apply andb_true_iff in H.
  destruct H as [Hc Hs]. rewrite Hc. destruct (IH Hs) as [-> ->]. now split.
Qed.

(** A greedy class whose continuation never fails passes the longest
    run. *)
Lemma run_greedy_max (p : N -> bool) (s : jsstring) (pre : option N)
    (cs : list jsstring) (k : cont) :
  (forall st, k st <> None) ->
  run (Star true (Chr p)) (MState pre s cs) k =
  k (MState (lastOr pre (takeWhile p s)) (dropWhile p s) cs).
Proof.
  intros Hk. revert pre; induction s as [|c s IH]; intros pre; rewrite run_star_class.
  - reflexivity.
  - cbn [takeWhile dropWhile]. destruct (p c); [|reflexivity].
    rewrite IH, (lastOr_cons pre c (takeWhile p s)).
    destruct (k _) eqn:E; [reflexivity | now apply Hk in E].
Qed.

Lemma firstn_run (p : N -> bool) (s : jsstring) :
  firstn (length s - length (dropWhile p s)) s = takeWhile p s.
Proof.
  pose proof (take_drop p s) as E.
  set (a := takeWhile p s) in *. set (b := dropWhile p s) in *.
  rewrite <- E. apply firstn_app_length.
Qed.

Lemma firstn_run_cons (p : N -> bool) (c : N) (s : jsstring) :
  firstn (length (c :: s) - length (dropWhile p s)) (c :: s) = c :: takeWhile p s.
Proof.
  pose proof (take_drop p s) as E.
  set (a := takeWhile p s) in *. set (b := dropWhile p s) in *.
  rewrite <- E. change (c :: a ++ b) with ((c :: a) ++ b). apply firstn_app_length.
Qed.

Lemma run_hexGroup (pre : option N) (s : jsstring) (cs : list jsstring) :
  run (Group (plus (Chr isHex))) (MState pre s cs) Some =
  match hexAt s with
  | Some (digits, t) => Some (MState (lastOr pre digits) t (cs ++ [digits]))
  | None => None
  end.
Proof.
  rewrite run_group. unfold plus. rewrite run_seq. unfold hexAt.
  destruct s as [|c s]; [reflexivity|].
  rewrite run_chr_cons. destruct (isHex c) eqn:Ec; [|reflexivity].
  rewrite run_greedy_max by discriminate.
  cbn [before rest caps takeWhile dropWhile]. rewrite Ec.
  rewrite (lastOr_cons pre c (takeWhile isHex s)).
  now rewrite firstn_run_cons.
Qed.

Lemma hexAt_spec (s digits t : jsstring) :
  hexAt s = Some (digits, t) ->
  s = digits ++ t /\ digits = takeWhile isHex s /\
  exists c r, digits = c :: r /\ isHex c = true.
Proof.
  unfold hexAt. destruct s as [|c r]; [discriminate|].
  destruct (isHex c) eqn:Ec; [|discriminate]. intros H. injection H as <- <-.
  split; [symmetry; exact (take_drop isHex (c :: r))|]. split; [reflexivity|].
  cbn [takeWhile]. rewrite Ec. now exists c, (takeWhile isHex r).
Qed.

Lemma hexAt_prefixed (p s digits t : jsstring) :
  startsWith p s = true -> hexAt (skipn (length p) s) = Some (digits, t) ->
  firstn (length s - length t) s = p ++ digits.
Proof.
  intros Hp Hh. apply startsWith_length in Hp. destruct Hp as [_ Hp].
  apply hexAt_spec in Hh. destruct Hh as [Hh _].
  rewrite Hp, Hh, app_assoc. apply firstn_app_length.
Qed.

(** What the pattern finds is what [parseUnicode] describes. *)
Lemma exec_unicodeRegex (prev : option N) (s : jsstring) :
  exec unicodeRegex prev s =
  match parseUnicode s with
  | Some (mt, digits, t) => Some (mt, [digits], t)
  | None => None
  end.
Proof.
  unfold exec, unicodeRegex, parseUnicode, opt.
  rewrite run_seq, run_alt, run_alt, !run_str.
  change (run Eps ?st ?k) with (k st). cbv beta.
  rewrite !run_hexGroup.
  destruct (startsWith (lit "U+") s) eqn:E1.
  - destruct (hexAt (skipn (length (lit "U+")) s)) as [[d t]|] eqn:Eh.
    + change (skipn 2 s) with (skipn (length (lit "U+")) s). rewrite Eh.
      cbn [rest caps app]. now rewrite (hexAt_prefixed _ _ _ _ E1 Eh).
    + change (skipn 2 s) with (skipn (length (lit "U+")) s). rewrite Eh.
      assert (E2 : startsWith (lit "0x") s = false).
      { destruct s as [|c s]; [reflexivity|].
        change (startsWith (lit "U+") (c :: s))
          with (N.eqb 85 c && startsWith (lit "+") s) in E1.
        change (startsWith (lit "0x") (c :: s))
          with (N.eqb 48 c && startsWith (lit "x") s).
        destruct (N.eqb_spec 85 c) as [<-|]; [reflexivity | discriminate E1]. }
      rewrite E2.
      assert (Eh' : hexAt s = None).
      { destruct s as [|c s]; [reflexivity|].
        change (startsWith (lit "U+") (c :: s))
          with (N.eqb 85 c && startsWith (lit "+") s) in E1.
        unfold hexAt.
        destruct (N.eqb_spec 85 c) as [<-|]; [reflexivity | discriminate E1]. }
      now rewrite Eh'.
  - destruct (startsWith (lit "0x") s) eqn:E2.
    + destruct (hexAt (skipn (length (lit "0x")) s)) as [[d t]|] eqn:Eh.
      * change (skipn 2 s) with (skipn (length (lit "0x")) s). rewrite Eh.
        cbn [rest caps app]. now rewrite (hexAt_prefixed _ _ _ _ E2 Eh).
      * change (skipn 2 s) with (skipn (length (lit "0x")) s). rewrite Eh.
        destruct (hexAt s) as [[d t]|] eqn:Eh'; [|reflexivity].
        cbn [rest caps app].
        now rewrite (hexAt_prefixed [] s d t (startsWith_nil s) Eh').
    + destruct (hexAt s) as [[d t]|] eqn:Eh'; [|reflexivity].
      cbn [rest caps app].
      now rewrite (hexAt_prefixed [] s d t (startsWith_nil s) Eh').
Qed.

Lemma parseUnicode_hex (c : N) (r : jsstring) :
  isHex c = true -> parseUnicode (c :: r) <> None.
Proof.
  intros Hc. unfold parseUnicode.
  destruct (if startsWith (lit "U+") (c :: r) then _ else _) as [[d t]|];
    [discriminate|].
  destruct (if startsWith (lit "0x") (c :: r) then _ else _) as [[d t]|];
    [discriminate|].
  unfold hexAt. rewrite Hc. discriminate.
Qed.

Lemma existsb_skipn (p : N -> bool) (n : nat) (s : jsstring) :
  existsb p (skipn n s) = true -> existsb p s = true.
Proof.
  intros H. rewrite <- (firstn_skipn n s), existsb_app, H. apply orb_true_r.
Qed.

Lemma hexAt_exists (s digits t : jsstring) :
  hexAt s = Some (digits, t) -> existsb isHex s = true.
Proof.
  unfold hexAt. destruct s as [|c r]; [discriminate|].
  destruct (isHex c) eqn:Ec; [|discriminate]. intros _. cbn [existsb]. now rewrite Ec.
Qed.

Lemma parseUnicode_exists (s mt digits t : jsstring) :
  parseUnicode s = Some (mt, digits, t) -> existsb isHex s = true.
Proof.
  unfold parseUnicode.
  destruct (startsWith (lit "U+") s).
  - destruct (hexAt (skipn 2 s)) as [[d1 t1]|] eqn:E1.
    + intros _. apply (existsb_skipn isHex 2). now apply hexAt_exists in E1.
    + destruct (startsWith (lit "0x") s).
      * destruct (hexAt s) as [[d t']|] eqn:E; [|discriminate].
        intros _. now apply hexAt_exists in E.
      * destruct (hexAt s) as [[d t']|] eqn:E; [|discriminate].
        intros _. now apply hexAt_exists in E.
  - destruct (startsWith (lit "0x") s).
    + destruct (hexAt (skipn 2 s)) as [[d1 t1]|] eqn:E1.
      * intros _. apply (existsb_skipn isHex 2). now apply hexAt_exists in E1.
      * destruct (hexAt s) as [[d t']|] eqn:E; [|discriminate].
        intros _. now apply hexAt_exists in E.
    + destruct (hexAt s) as [[d t']|] eqn:E; [|discriminate].
      intros _. now apply hexAt_exists in E.
Qed.

Lemma search_fail (r : regex) (s : jsstring) :
  forall prev,
    (forall x1 x2, s = x1 ++ x2 -> exec r (lastOr prev x1) x2 = None) ->
    search r prev s = None.
Proof.
  induction s as [|c s IH]; intros prev H; cbn [search].
  - pose proof (H [] [] eq_refl) as H0. change (lastOr prev []) with prev in H0.
    now rewrite H0.
  - pose proof (H [] (c :: s) eq_refl) as H0. change (lastOr prev []) with prev in H0.
    rewrite H0. rewrite IH; [reflexivity|].
    intros x1 x2 ->. rewrite <- (lastOr_cons prev c x1). now apply (H (c :: x1) x2).
Qed.

Lemma existsb_split (p : N -> bool) (s : jsstring) :
  existsb p s = true -> exists x c r, s = x ++ c :: r /\ p c = true.
Proof.
  intros H. apply existsb_exists in H. destruct H as (c & Hin & Hc).
  apply in_split in Hin. destruct Hin as (x & r & ->). now exists x, c, r.
Qed.

Lemma fromCodePoint_error (cp : N) (e : jsstring) :
  fromCodePoint cp = Throw e -> e = lit "RangeError: Invalid code point".
Proof.
  unfold fromCodePoint. destruct (N.leb cp 65535); [discriminate|].
  destruct (N.leb cp 1114111); [discriminate|]. now intros [= <-].
Qed.

(** X9.  [fromUnicode] raises its own error, Invalid Unicode code point,
    exactly on a string without a hexadecimal digit; on any other string
    it returns [String.fromCodePoint] of a number, or raises the
    [RangeError] of [String.fromCodePoint]. *)
Theorem fromUnicode_invalid_iff (code : jsstring) :
  (fromUnicode code = Throw (lit "Error: Invalid Unicode code point: " ++ code) <->
   existsb isHex code = false) /\
  (existsb isHex code = true -> exists cp, fromUnicode code = fromCodePoint cp).
Proof.
  assert (Hsome : existsb isHex code = true ->
            exists cp, fromUnicode code = fromCodePoint cp).
  { intros H. apply existsb_split in H. destruct H as (x & c & r & -> & Hc).
    unfold fromUnicode.
    destruct (search unicodeRegex None (x ++ c :: r)) as [[[[pre mt] cs] tl]|] eqn:E.
    - apply search_sound in E. destruct E as [_ E]. rewrite exec_unicodeRegex in E.
      destruct (parseUnicode (mt ++ tl)) as [[[m d] t]|] eqn:Ep; [|discriminate].
      injection E as _ <- _. cbn [nth].
      assert (Hd : exists c' r', d = c' :: r' /\ isHex c' = true).
      { unfold parseUnicode in Ep.
        repeat match type of Ep with
               | match (if ?b then _ else _) with _ => _ end = _ => destruct b
               | match hexAt ?u with _ => _ end = _ =>
                   let E := fresh "E" in
                   destruct (hexAt u) as [[? ?]|] eqn:E;
                   [injection Ep as _ <- _; now apply hexAt_spec in E|]
               | None = Some _ => discriminate Ep
               | match None with _ => _ end = _ => cbv iota in Ep
               end. }
      destruct Hd as (c' & r' & -> & Hc'). unfold parseInt16. rewrite Hc'.
      now eexists.
    - exfalso. apply (search_none unicodeRegex x None (c :: r)) in E.
      rewrite exec_unicodeRegex in E.
      pose proof (parseUnicode_hex c r Hc) as Hp.
      destruct (parseUnicode (c :: r)) as [[[m d] t]|]; [discriminate | contradiction]. }
  split; [|exact Hsome]. split.
  - intros H. destruct (existsb isHex code) eqn:E; [|reflexivity].
    destruct (Hsome eq_refl) as [cp Hcp]. rewrite Hcp in H.
    apply fromCodePoint_error in H. discriminate H.
  - intros H. unfold fromUnicode. rewrite search_fail; [reflexivity|].
    intros x1 x2 ->. rewrite exec_unicodeRegex.
    destruct (parseUnicode x2) as [[[m d] t]|] eqn:Ep; [|reflexivity].
    apply parseUnicode_exists in Ep.
    rewrite existsb_app, Ep, orb_true_r in H. discriminate H.
Qed.

(** *** The digits of a number *)

Lemma hexDigit_table :
  allBelow 16 (fun d => isHex (asciiUpper (hexDigit d)) &&
                        N.eqb (hexValue (asciiUpper (hexDigit d))) d) = true.
Proof. vm_compute. reflexivity. Qed.

Lemma hexDigit_upper (d : N) :
  d < 16 ->
  isHex (asciiUpper (hexDigit d)) = true /\ hexValue (asciiUpper (hexDigit d)) = d.
Proof.
  intros H. pose proof (allBelow_spec _ _ hexDigit_table d H) as E.
  apply andb_true_iff in E. destruct E as [E1 E2]. split; [assumption|].
  now apply N.eqb_eq.
Qed.

Lemma parseHexFrom_app (a b : jsstring) :
  forall v, forallb isHex a = true ->
  parseHexFrom v (a ++ b) = parseHexFrom (parseHexFrom v a) b.
Proof.
  induction a as [|c a IH]; intros v H; [reflexivity|].
  cbn [forallb] in H. apply andb_true_iff in H. destruct H as [Hc Ha].
  cbn [app parseHexFrom]. rewrite Hc. now apply IH.
Qed.

Lemma toString16_aux_acc (f : nat) :
  forall n acc, toString16_aux f n acc = toString16_aux f n [] ++ acc.
Proof.
  induction f as [|f IH]; intros n acc; [reflexivity|].
  cbn [toString16_aux]. destruct (N.eqb (N.div n 16) 0); [reflexivity|].
  rewrite (IH _ (hexDigit (N.modulo n 16) :: acc)), (IH _ [hexDigit (N.modulo n 16)]).
  now rewrite <- app_assoc.
Qed.

Lemma toString16_aux_ok (f : nat) :
  forall n, n < 2 ^ N.of_nat f ->
  forallb isHex (toUpperCase (toString16_aux f n [])) = true /\
  parseHexFrom 0 (toUpperCase (toString16_aux f n [])) = n.
Proof.
  induction f as [|f IH]; intros n Hn.
  - cbn in Hn. assert (n = 0) by lia. subst n. now split.
  - cbn [toString16_aux].
    assert (Hm : N.modulo n 16 < 16) by (apply N.mod_lt; discriminate).
    destruct (hexDigit_upper _ Hm) as [Hh Hv].
    destruct (N.eqb_spec (N.div n 16) 0) as [E|E].
    + cbn [toUpperCase map forallb parseHexFrom]. rewrite Hh, Hv. split; [reflexivity|].
      pose proof (N.div_mod n 16). lia.
    + rewrite toString16_aux_acc. unfold toUpperCase. rewrite map_app.
      fold (toUpperCase (toString16_aux f (N.div n 16) [])).
      assert (Hd : N.div n 16 < 2 ^ N.of_nat f).
      { apply N.Div0.div_lt_upper_bound.
        rewrite Nat2N.inj_succ, N.pow_succ_r' in Hn. lia. }
      destruct (IH _ Hd) as [H1 H2]. split.
      * rewrite forallb_app, H1. cbn [map forallb]. now rewrite Hh.
      * rewrite parseHexFrom_app by assumption. rewrite H2.
        cbn [map parseHexFrom]. rewrite Hh, Hv.
        pose proof (N.div_mod n 16). lia.
Qed.

Lemma pos_size_bound (p : positive) : N.pos p < 2 ^ N.of_nat (Pos.size_nat p).
Proof.
  induction p as [p IH|p IH|]; cbn [Pos.size_nat];
    rewrite ?Nat2N.inj_succ, ?N.pow_succ_r'; [| |reflexivity]; lia.
Qed.

Lemma toString16_nonempty (n : N) : toString16 n <> [].
Proof.
  unfold toString16. cbn [toString16_aux].
  destruct (N.eqb (N.div n 16) 0); [discriminate|].
  rewrite toString16_aux_acc. now destruct (toString16_aux _ _ []).
Qed.

Lemma toString16_ok (n : N) :
  forallb isHex (toUpperCase (toString16 n)) = true /\
  parseHexFrom 0 (toUpperCase (toString16 n)) = n.
Proof.
  apply toString16_aux_ok.
  destruct n as [|p]; [reflexivity|]. cbn [N.size_nat].
  pose proof (pos_size_bound p) as H.
  rewrite Nat2N.inj_succ, N.pow_succ_r'. lia.
Qed.

Lemma unicodeDigits_ok (cp : N) :
  forallb isHex (unicodeDigits cp) = true /\
  parseHexFrom 0 (unicodeDigits cp) = cp /\
  exists c r, unicodeDigits cp = c :: r.
Proof.
  destruct (toString16_ok cp) as [H1 H2].
  unfold unicodeDigits, padStart.
  set (ds := toUpperCase (toString16 cp)) in *.
  set (k := (4 - length ds)%nat).
  assert (Hz : forallb isHex (repeat 48 k) = true /\ parseHexFrom 0 (repeat 48 k) = 0).
  { clear. induction k as [|k [IH1 IH2]]; [now split|].
    cbn [repeat forallb parseHexFrom]. change (isHex 48) with true. cbn [andb].
    now split. }
  destruct Hz as [Hz1 Hz2]. split; [|split].
  - now rewrite forallb_app, Hz1, H1.
  - now rewrite parseHexFrom_app, Hz2 by assumption.
  - destruct (repeat 48 k ++ ds) as [|c r] eqn:E; [|now exists c, r].
    apply app_eq_nil in E. destruct E as [_ E]. exfalso.
    unfold ds, toUpperCase in E. apply map_eq_nil in E.
    now apply toString16_nonempty in E.
Qed.

(** The digits are read back whole. *)
Lemma hexAt_digits (d : jsstring) :
  forallb isHex d = true -> d <> [] -> hexAt d = Some (d, []).
Proof.
  intros H Hne. unfold hexAt. destruct d as [|c r]; [contradiction|].
  pose proof H as H'. cbn [forallb] in H'. apply andb_true_iff in H'.
  destruct H' as [Hc _]. rewrite Hc.
  now destruct (takeWhile_all isHex (c :: r) H) as [-> ->].
Qed.

Lemma digits_no_prefix (d : jsstring) :
  forallb isHex d = true ->
  startsWith (lit "U+") d = false /\ startsWith (lit "0x") d = false.
Proof.
  intros H. destruct d as [|a [|b d]]; try (split; reflexivity).
  - cbn [forallb] in H. apply andb_true_iff in H. destruct H as [Ha _].
    split.
    + change (startsWith (lit "U+") [a]) with (N.eqb 85 a && false).
      apply andb_false_r.
    + change (startsWith (lit "0x") [a]) with (N.eqb 48 a && false).
      apply andb_false_r.
  - cbn [forallb] in H. apply andb_true_iff in H. destruct H as [Ha H].
    apply andb_true_iff in H. destruct H as [Hb _]. split.
    + change (startsWith (lit "U+") (a :: b :: d))
        with (N.eqb 85 a && (N.eqb 43 b && true)).
      destruct (N.eqb_spec 85 a) as [<-|]; [discriminate Ha | reflexivity].
    + change (startsWith (lit "0x") (a :: b :: d))
        with (N.eqb 48 a && (N.eqb 120 b && true)).
      destruct (N.eqb_spec 120 b) as [<-|]; [discriminate Hb | apply andb_false_r].
Qed.

Lemma fromUnicode_parse (code mt digits tl : jsstring) :
  parseUnicode code = Some (mt, digits, tl) ->
  fromUnicode code =
  match parseInt16 digits with
  | Some codePoint => fromCodePoint codePoint
  | None => Throw (lit "RangeError: Invalid code point")
  end.
Proof.
  intros H. unfold fromUnicode.
  rewrite (search_hit unicodeRegex None code mt tl [digits]); [reflexivity|].
  now rewrite exec_unicodeRegex, H.
Qed.

(** X10.  The forms the source names are read alike: the digits
    [getUnicode] writes for a number, alone, after [U+] or after [0x], give
    [String.fromCodePoint] of the number. *)
Theorem fromUnicode_forms (cp : N) :
  fromUnicode (lit "U+" ++ unicodeDigits cp) = fromCodePoint cp /\
  fromUnicode (lit "0x" ++ unicodeDigits cp) = fromCodePoint cp /\
  fromUnicode (unicodeDigits cp) = fromCodePoint cp.
Proof.
  destruct (unicodeDigits_ok cp) as (Hh & Hv & c & r & Hd).
  assert (Hne : unicodeDigits cp <> []) by (rewrite Hd; discriminate).
  pose proof (hexAt_digits _ Hh Hne) as Hat.
  assert (Hp : parseInt16 (unicodeDigits cp) = Some cp).
  { unfold parseInt16. rewrite Hd. rewrite Hd in Hh. cbn [forallb] in Hh.
    apply andb_true_iff in Hh. destruct Hh as [-> _]. now rewrite <- Hd, Hv. }
  repeat split.
  - rewrite (fromUnicode_parse _ (lit "U+" ++ unicodeDigits cp) (unicodeDigits cp) []).
    + now rewrite Hp.
    + unfold parseUnicode. rewrite startsWith_app.
      change (skipn 2 (lit "U+" ++ unicodeDigits cp)) with (unicodeDigits cp).
      now rewrite Hat.
  - rewrite (fromUnicode_parse _ (lit "0x" ++ unicodeDigits cp) (unicodeDigits cp) []).
    + now rewrite Hp.
    + unfold parseUnicode.
      change (startsWith (lit "U+") (lit "0x" ++ unicodeDigits cp)) with false.
      rewrite startsWith_app.
      change (skipn 2 (lit "0x" ++ unicodeDigits cp)) with (unicodeDigits cp).
      now rewrite Hat.
  - rewrite (fromUnicode_parse _ (unicodeDigits cp) (unicodeDigits cp) []).
    + now rewrite Hp.
    + unfold parseUnicode. destruct (digits_no_prefix _ Hh) as [-> ->].
      now rewrite Hat.
Qed.

(** *** Characters *)

Lemma stringIterator_chars (s : jsstring) :
  forall char, In char (stringIterator s) ->
    (exists c, char = [c] /\ In c s) \/
    (exists c d, char = [c; d] /\ isHighSurrogate c = true /\
                 isLowSurrogate d = true).
Proof.
  assert (G : forall n s, (length s <= n)%nat ->
            forall char, In char (stringIterator s) ->
              (exists c, char = [c] /\ In c s) \/
              (exists c d, char = [c; d] /\ isHighSurrogate c = true /\
                           isLowSurrogate d = true)).
  { clear. induction n as [|n IH]; intros s Hs char Hin.
    - destruct s; [destruct Hin | cbn in Hs; lia].
    - destruct s as [|c [|d s]]; [destruct Hin | |].
      + destruct Hin as [<-|[]]. left. exists c. split; [reflexivity | now left].
      + cbn [stringIterator] in Hin.
        destruct (isHighSurrogate c && isLowSurrogate d) eqn:E.
        * destruct Hin as [<-|Hin].
          -- right. apply andb_true_iff in E. now exists c, d.
          -- apply (IH s) in Hin; [|cbn in Hs; lia].
             destruct Hin as [(x & -> & Hx)|H]; [|now right].
             left. exists x. split; [reflexivity | right; now right].
        * destruct Hin as [<-|Hin].
          -- left. exists c. split; [reflexivity | now left].
          -- apply (IH (d :: s)) in Hin; [|cbn in Hs |- *; lia].
             destruct Hin as [(x & -> & Hx)|H]; [|now right].
             left. exists x. split; [reflexivity | now right]. }
  intros char. now apply (G (length s) s).
Qed.

Lemma fromCodePoint_codePointAt0 (s char : jsstring) :
  isString s = true -> In char (stringIterator s) ->
  fromCodePoint (codePointAt0 char) = Ok char.
Proof.
  intros Hs Hin. apply stringIterator_chars in Hin.
  destruct Hin as [(c & -> & Hc)|(c & d & -> & Hh & Hl)].
  - unfold isString in Hs. rewrite forallb_forall in Hs. apply Hs in Hc.
    apply N.ltb_lt in Hc. cbn [codePointAt0]. unfold fromCodePoint.
    now rewrite (proj2 (N.leb_le c 65535)) by lia.
  - cbn [codePointAt0]. rewrite Hh, Hl. cbn [andb].
    unfold isHighSurrogate, isLowSurrogate, inRange in Hh, Hl.
    apply andb_true_iff in Hh, Hl. destruct Hh as [Hh1 Hh2]. destruct Hl as [Hl1 Hl2].
    apply N.leb_le in Hh1, Hh2, Hl1, Hl2.
    unfold fromCodePoint.
    set (cp := 65536 + (c - 55296) * 1024 + (d - 56320)).
    assert (E : cp - 65536 = (c - 55296) * 1024 + (d - 56320)) by (unfold cp; lia).
    rewrite (proj2 (N.leb_gt cp 65535)) by (unfold cp; lia).
    rewrite (proj2 (N.leb_le cp 1114111)) by (unfold cp; lia).
    rewrite E.
    rewrite (N.div_add_l (c - 55296) 1024 (d - 56320)) by discriminate.
    rewrite (N.div_small (d - 56320) 1024) by lia.
    rewrite N.add_comm with (n := (c - 55296) * 1024).
    rewrite N.Div0.mod_add, (N.mod_small (d - 56320) 1024) by lia.
    do 2 f_equal; [lia | f_equal; lia].
Qed.

(** X11.  For every character the scan of a string yields, [fromUnicode]
    gives the character back from the code point [getUnicode] writes. *)
Theorem fromUnicode_getUnicode (s char : jsstring) :
  isString s = true -> In char (stringIterator s) ->
  fromUnicode (getUnicode char) = Ok char.
Proof.
  intros Hs Hin.
  change (getUnicode char) with (lit "U+" ++ unicodeDigits (codePointAt0 char)).
  destruct (fromUnicode_forms (codePointAt0 char)) as [-> _].
  now apply (fromCodePoint_codePointAt0 s).
Qed.

End UnicodeFacts.

(** An emoji between two ASCII letters. *)
Lemma fromUnicode_getUnicode_sample :
  Worker.fromUnicode (Worker.getUnicode [55357; 56832]) = Ok [55357; 56832].
Proof.
  exact (fromUnicode_getUnicode [97; 55357; 56832; 98] [55357; 56832]
           eq_refl (or_intror (or_introl eq_refl))).
Defined.

(** ** The document handed to the engine *)

Section AssemblyFacts.
Import Regex Worker.

(** No match begins before the one a search finds. *)
Lemma search_first (r : regex) (s : jsstring) :
  forall prev pre mt cs tl,
    search r prev s = Some (pre, mt, cs, tl) ->
    forall x1 x2, pre = x1 ++ x2 -> x2 <> [] ->
      exec r (lastOr prev x1) (x2 ++ mt ++ tl) = None.
Proof.
  induction s as [|c s IH]; intros prev pre mt cs tl H x1 x2 Hp Hne; cbn [search] in H.
  - destruct (exec r prev []) as [[[m0 c0] t0]|]; [|discriminate].
    injection H as <- _ _ _. symmetry in Hp. apply app_eq_nil in Hp.
    destruct Hp as [_ ->]. contradiction.
  - destruct (exec r prev (c :: s)) as [[[m0 c0] t0]|] eqn:E.
    + injection H as <- _ _ _. symmetry in Hp. apply app_eq_nil in Hp.
      destruct Hp as [_ ->]. contradiction.
    + destruct (search r (Some c) s) as [[[[p1 m1] c1] t1]|] eqn:Es; [|discriminate].
      injection H as <- <- <- <-.
      pose proof (search_sound _ _ _ _ _ _ _ Es) as [Hs _].
      destruct x1 as [|y x1].
      * cbn [app] in Hp. subst x2. change (lastOr prev []) with prev.
        cbn [app]. now rewrite <- Hs.
      * cbn [app] in Hp. injection Hp as <- Hp.
        rewrite (lastOr_cons prev c x1). now apply (IH (Some c) p1 m1 c1 t1).
Qed.

(** X12.  The second variant hands the engine the synthesized preamble
    followed by the filtered input, whole and in order, with at most one
    line added: the [tikz-cd] fix, which goes right before the first
    [\begin{document}] of the input; an input without [\begin{document}]
    is wrapped in a document environment. *)
Theorem assemble_keeps_input (texPackages : list (jsstring * jsstring))
    (d : dataset) (input : jsstring) :
  let text := SecondVariant.filterLines input in
  exists head body extra,
    SecondVariant.assemble texPackages d input =
      preamble texPackages d (findNotSupportedChars text) ++ head ++ extra ++ body /\
    (extra = [] \/ extra = tikzcdFix) /\
    ((head ++ body = text /\
      (exists mt cs tl, exec beginDocumentRegex (lastOr None head) body = Some (mt, cs, tl)) /\
      (forall x1 x2, head = x1 ++ x2 -> x2 <> [] ->
         exec beginDocumentRegex (lastOr None x1) (x2 ++ body) = None)) \/
     (head = [] /\ body = wrapDocument text /\
      isMatch beginDocumentRegex text = false)).
Proof.
  intros text. unfold SecondVariant.assemble. fold text. cbv zeta.
  set (pre := preamble texPackages d (findNotSupportedChars text)).
  unfold isMatch at 2.
  destruct (search beginDocumentRegex None text) as [[[[b m] cs] a]|] eqn:E.
  - exists b, (m ++ a).
    exists (if isMatch tikzcdRegex (pre ++ b) then tikzcdFix else []).
    split; [|split].
    + destruct (isMatch tikzcdRegex (pre ++ b)); unfold tikzcdFix;
        now rewrite <- ?app_assoc.
    + destruct (isMatch tikzcdRegex (pre ++ b)); auto.
    + left. pose proof E as E'. apply search_sound in E'. destruct E' as [Es Ee].
      split; [now symmetry|]. split.
      * now exists m, cs, a.
      * intros x1 x2 Hb Hne. now apply (search_first _ _ _ _ _ _ _ E).
  - exists [], (wrapDocument text).
    exists (if isMatch tikzcdRegex (pre ++ []) then tikzcdFix else []).
    split; [|split].
    + destruct (isMatch tikzcdRegex (pre ++ [])); unfold tikzcdFix;
        now rewrite <- ?app_assoc.
    + destruct (isMatch tikzcdRegex (pre ++ [])); auto.
    + right. auto.
Qed.

(** *** The [tikz-cd] fix *)

Lemma usePackages_concat (texPackages : list (jsstring * jsstring)) :
  usePackages texPackages = concat (map usePackageLine texPackages).
Proof.
  exact (fold_left_app_concat _ usePackageLine texPackages []).
Qed.

Lemma lastOr_app_cons (pre : option N) (a : jsstring) (c : N) :
  lastOr pre (a ++ [c]) = Some c.
Proof. unfold lastOr. now rewrite rev_app_distr. Qed.

Lemma lastOr_lines (tp : list (jsstring * jsstring)) :
  lastOr None (concat (map usePackageLine tp)) = None \/
  lastOr None (concat (map usePackageLine tp)) = Some 10.
Proof.
  induction tp as [|p tp _] using rev_ind; [now left|]. right.
  rewrite map_app, concat_app. cbn [map concat]. rewrite app_nil_r.
  unfold usePackageLine, newline. rewrite !app_assoc. apply lastOr_app_cons.
Qed.

Lemma run_ws_stop (c : N) (s : jsstring) (pre : option N) (cs : list jsstring)
    (k : cont) :
  isWhiteSpace c = false ->
  run (Star true (Chr isWhiteSpace)) (MState pre (c :: s) cs) k =
  k (MState pre (c :: s) cs).
Proof. intros H. now rewrite run_star_class, H. Qed.

(** The pattern matches at the line the package option writes for
    [tikz-cd]. *)
Lemma run_tikzcd_line (opts t : jsstring) (pre : option N) :
  pre = None \/ pre = Some 10 ->
  existsb (N.eqb 93) opts = false ->
  exists r,
    run tikzcdRegex (MState pre (usePackageLine (lit "tikz-cd", opts) ++ t) []) Some =
    Some r.
Proof.
  intros Hpre Ho. unfold tikzcdRegex. rewrite run_seq.
  assert (Hbol : forall st k, before st = pre -> run Bol st k = k st).
  { intros st k Hb. cbn [run]. rewrite Hb. now destruct Hpre as [-> | ->]. }
  rewrite Hbol by reflexivity. rewrite run_seq, run_star. cbv zeta.
  match goal with
  | |- exists r, match ?x with _ => _ end = _ =>
      assert (Hk : exists r, x = Some r);
      [|destruct Hk as [r ->]; now exists r]
  end.
  unfold usePackageLine. cbn [fst snd]. rewrite <- !app_assoc.
  rewrite run_seq, run_strI_self. unfold opt. rewrite run_seq, run_alt.
  assert (Htail : forall pre' cs u,
            exists r,
              run (Star true (Chr isWhiteSpace) ;; chr 123 ;;
                   Star true (Chr isWhiteSpace) ;; strI (lit "tikz-cd") ;;
                   Star true (Chr isWhiteSpace) ;; chr 125)
                  (MState pre' (lit "{" ++ lit "tikz-cd" ++ lit "}" ++ u) cs) Some =
              Some r).
  { intros pre' cs u. change (lit "{") with [123]. cbn [app].
    rewrite run_seq, run_ws_stop by reflexivity.
    rewrite run_seq. unfold chr at 1. rewrite run_chr_cons. cbn [N.eqb Pos.eqb].
    rewrite run_seq.
    change (lit "tikz-cd" ++ lit "}" ++ u) with (116 :: lit "ikz-cd" ++ lit "}" ++ u).
    rewrite run_ws_stop by reflexivity.
    change (116 :: lit "ikz-cd" ++ lit "}" ++ u) with (lit "tikz-cd" ++ lit "}" ++ u).
    rewrite run_seq, run_strI_self.
    change (lit "}" ++ u) with (125 :: u).
    rewrite run_seq, run_ws_stop by reflexivity.
    unfold chr. rewrite run_chr_cons. cbn [N.eqb Pos.eqb]. now eexists. }
  destruct (truthy opts) eqn:Et.
  - rewrite <- !app_assoc. change (lit "[") with [91]. cbn [app].
    rewrite run_seq. unfold chr at 1. rewrite run_chr_cons. cbn [N.eqb Pos.eqb].
    change (lit "]") with [93]. cbn [app].
    rewrite run_until_end, splitAt_app by assumption.
    destruct (Htail (Some 93) [] (newline ++ t)) as [r Hr].
    rewrite Hr. now exists r.
  - cbn [app].
    destruct (Htail (lastOr pre (lit "\usepackage")) [] (newline ++ t)) as [r Hr].
    change (run Eps ?st ?k) with (k st). cbv beta. rewrite Hr.
    match goal with |- exists r0, match ?x with _ => _ end = _ => destruct x end;
      now eexists.
Qed.

(** X13.  When the package option names [tikz-cd], with options that hold
    no closing bracket, the second variant adds the [tikz-cd] fix to the
    document. *)
Theorem tikzcd_package_gets_fix (texPackages : list (jsstring * jsstring))
    (d : dataset) (input opts : jsstring) :
  In (lit "tikz-cd", opts) texPackages ->
  existsb (N.eqb 93) opts = false ->
  exists head body,
    SecondVariant.assemble texPackages d input = head ++ tikzcdFix ++ body.
Proof.
  intros Hin Ho.
  unfold SecondVariant.assemble. cbv zeta.
  set (text := SecondVariant.filterLines input).
  set (pre := preamble texPackages d (findNotSupportedChars text)).
  assert (Hm : forall h, isMatch tikzcdRegex (pre ++ h) = true).
  { intros h. apply in_split in Hin. destruct Hin as (tp1 & tp2 & Htp).
    unfold pre, preamble. rewrite usePackages_concat, Htp, map_app, concat_app.
    cbn [map concat]. rewrite <- !app_assoc.
    destruct (run_tikzcd_line opts
                (concat (map usePackageLine tp2) ++
                 (if isSet d "tikzLibraries"
                  then lit "\usetikzlibrary{" ++ orEmpty d "tikzLibraries" ++ lit "}" ++ newline
                  else []) ++
                 orEmpty d "addToPreamble" ++
                 (if Nat.ltb 0 (length (findNotSupportedChars text))
                  then lit "\usepackage{newunicodechar}" ++ newline else []) ++
                 fallbackDirectives (findNotSupportedChars text) ++ h)
                (lastOr None (concat (map usePackageLine tp1)))
                (lastOr_lines tp1) Ho) as [r Hr].
    unfold isMatch.
    match goal with
    | |- match search ?rx None (?x ++ ?t) with _ => _ end = true =>
        pose proof (search_complete rx x None t) as Hc
    end.
    unfold exec in Hc. rewrite Hr in Hc.
    match goal with
    | |- match ?u with _ => _ end = true => destruct u as [res|]
    end; [reflexivity|].
    exfalso. now apply (Hc _ eq_refl). }
  destruct (search beginDocumentRegex None text) as [[[[b m] cs] a]|].
  - rewrite Hm. exists (pre ++ b), (m ++ a). unfold tikzcdFix.
    now rewrite <- !app_assoc.
  - rewrite Hm. exists (pre ++ []), (wrapDocument text). unfold tikzcdFix.
    now rewrite <- !app_assoc.
Qed.

End AssemblyFacts.

(** The package option of a commutative diagram. *)
Lemma tikzcd_package_gets_fix_sample :
  exists head body,
    Worker.SecondVariant.assemble [(lit "tikz-cd", [])] []
      (lit "\begin{tikzcd} A \arrow[r] & B \end{tikzcd}") =
    head ++ tikzcdFix ++ body.
Proof.
  exact (tikzcd_package_gets_fix [(lit "tikz-cd", [])] []
           (lit "\begin{tikzcd} A \arrow[r] & B \end{tikzcd}") []
           (or_introl eq_refl) eq_refl).
Defined.

(** ** Font embedding *)

Section FontFacts.
Import Regex Fonts.

Variable urlRoot : jsstring.
Variable loadFont : jsstring -> option jsstring.

(** *** Captures *)

Lemma star_loop_caps (ma : mstate -> cont -> option mstate) (g : bool) (k : cont) :
  (forall st k' res, ma st k' = Some res ->
     exists st', k' st' = Some res /\ caps st' = caps st) ->
  forall fuel st res, star_loop ma g k fuel st = Some res ->
    exists st', k st' = Some res /\ caps st' = caps st.
Proof.
  intros Hma. induction fuel as [|f IH]; intros st res H; [discriminate|].
  cbn [star_loop] in H.
  set (again := fun st' => if Nat.ltb (length (rest st')) (length (rest st))
                           then star_loop ma g k f st' else None) in *.
  assert (Hagain : forall r, ma st again = Some r ->
            exists st', k st' = Some r /\ caps st' = caps st).
  { intros r Hr. apply Hma in Hr. destruct Hr as (st1 & H1 & Hc1).
    unfold again in H1. destruct (Nat.ltb _ _); [|discriminate].
    apply IH in H1. destruct H1 as (st2 & H2 & Hc2).
    exists st2. split; [exact H2 | congruence]. }
  destruct g.
  - destruct (ma st again) as [r|] eqn:E.
    + injection H as <-. now apply Hagain.
    + now exists st.
  - destruct (k st) as [r|] eqn:E.
    + injection H as <-. now exists st.
    + now apply Hagain.
Qed.

(** A pattern without a group hands the captures on as it got them. *)
Lemma run_caps (r : regex) :
  groupFree r = true ->
  forall st k res, run r st k = Some res ->
    exists st', k st' = Some res /\ caps st' = caps st.
Proof.
  induction r as [|p|a IHa b IHb|a IHa b IHb|g a IHa|a IHa| | |a IHa];
    intros Hg st k res H; cbn [run] in H; cbn [groupFree] in Hg.
  - now exists st.
  - destruct (rest st) as [|c cs] eqn:E; [discriminate|].
    destruct (p c); [|discriminate]. now exists (MState (Some c) cs (caps st)).
  - apply andb_true_iff in Hg. destruct Hg as [Ha Hb].
    apply (IHa Ha) in H. destruct H as (st1 & H1 & Hc1).
    apply (IHb Hb) in H1. destruct H1 as (st2 & H2 & Hc2).
    exists st2. split; [exact H2 | congruence].
  - apply andb_true_iff in Hg. destruct Hg as [Ha Hb].
    destruct (run a st k) as [r|] eqn:E.
    + injection H as <-. now apply (IHa Ha).
    + now apply (IHb Hb).
  - now apply (star_loop_caps (run a) g k (IHa Hg)) in H.
  - destruct (run a st Some); [discriminate|]. now exists st.
  - destruct (xorb _ _); [|discriminate]. now exists st.
  - exists st. split; [|reflexivity].
    destruct (before st) as [c|]; [|exact H]. now destruct (isLineTerminator c).
  - discriminate Hg.
Qed.

(** What a greedy class passes is made of members of the class. *)
Lemma run_star_class_inv (p : N -> bool) (s : jsstring) :
  forall pre cs k res,
    run (Star true (Chr p)) (MState pre s cs) k = Some res ->
    exists w t pre', s = w ++ t /\ forallb p w = true /\
                     k (MState pre' t cs) = Some res.
Proof.
  induction s as [|c s IH]; intros pre cs k res H; rewrite run_star_class in H.
  - now exists [], [], pre.
  - destruct (p c) eqn:Ec; [|now exists [], (c :: s), pre].
    destruct (run (Star true (Chr p)) (MState (Some c) s cs) k) as [r|] eqn:E.
    + injection H as <-. apply IH in E. destruct E as (w & t & pre' & -> & Hw & Hk).
      exists (c :: w), t, pre'. cbn [forallb]. now rewrite Ec.
    + now exists [], (c :: s), pre.
Qed.

(** The capture of a group over a class is made of members of the class. *)
Lemma run_group_class (p : N -> bool) (st : mstate) (k : cont) (res : mstate) :
  run (Group (plus (Chr p))) st k = Some res ->
  exists st' w, k st' = Some res /\ caps st' = caps st ++ [w] /\
                forallb p w = true.
Proof.
  rewrite run_group. unfold plus. rewrite run_seq. destruct st as [pre s cs].
  destruct s as [|c s]; [discriminate|].
  rewrite run_chr_cons. destruct (p c) eqn:Ec; [|discriminate]. intros H.
  apply run_star_class_inv in H. destruct H as (w & t & pre' & -> & Hw & Hk).
  cbn [before rest caps] in Hk.
  eexists. exists (c :: w). split; [exact Hk|]. cbn [caps]. split.
  - do 2 f_equal.
    change (c :: w ++ t) with ((c :: w) ++ t). apply firstn_app_length.
  - cbn [forallb]. now rewrite Ec.
Qed.

Lemma exec_fontFamilyRegex (prev : option N) (s mt tl : jsstring) (cs : list jsstring) :
  exec fontFamilyRegex prev s = Some (mt, cs, tl) ->
  exists w, cs = [w] /\ forallb isFamilyUnit w = true.
Proof.
  unfold exec, fontFamilyRegex.
  destruct (run _ (MState prev s []) Some) as [res|] eqn:E; [|discriminate].
  intros H. injection H as _ <- _.
  rewrite run_seq in E. apply run_caps in E; [|clear; vm_compute; reflexivity].
  destruct E as (st1 & E & C1).
  rewrite run_seq in E. apply run_caps in E; [|reflexivity].
  destruct E as (st2 & E & C2).
  rewrite run_seq in E. apply run_caps in E; [|reflexivity].
  destruct E as (st3 & E & C3).
  rewrite run_seq in E. apply run_caps in E; [|reflexivity].
  destruct E as (st4 & E & C4).
  rewrite run_seq in E. apply run_caps in E; [|reflexivity].
  destruct E as (st5 & E & C5).
  rewrite run_seq in E. apply run_group_class in E.
  destruct E as (st6 & w & E & C6 & Hw).
  apply run_caps in E; [|reflexivity].
  destruct E as (st7 & E & C7). injection E as <-.
  exists w. split; [|exact Hw].
  rewrite C7, C6, C5, C4, C3, C2, C1. reflexivity.
Qed.

(** *** Family names *)

Lemma forallb_trimStart (p : N -> bool) (s : jsstring) :
  forallb p s = true -> forallb p (trimStart s) = true.
Proof.
  induction s as [|c s IH]; [trivial|]. intros H. cbn [trimStart].
  destruct (isWhiteSpace c); [|exact H].
  cbn [forallb] in H. apply andb_true_iff in H. now apply IH.
Qed.

Lemma forallb_rev (p : N -> bool) (s : jsstring) :
  forallb p s = true -> forallb p (rev s) = true.
Proof.
  intros H. apply forallb_forall. intros x Hx. apply in_rev in Hx.
  rewrite forallb_forall in H. now apply H.
Qed.

Lemma forallb_trim (p : N -> bool) (s : jsstring) :
  forallb p s = true -> forallb p (trim s) = true.
Proof.
  intros H. unfold trim.
  apply forallb_rev, forallb_trimStart, forallb_rev, forallb_trimStart, H.
Qed.

(** A family name holds neither a semicolon nor a quotation mark. *)
Lemma familyNames_units (html f : jsstring) :
  In f (familyNames html) -> forallb isFamilyUnit f = true.
Proof.
  unfold familyNames, scan. intros H. apply in_flat_map in H.
  destruct H as ([c|mt cs] & Hin & Hf); [destruct Hf|].
  destruct Hf as [<-|[]].
  apply pieces_hits in Hin. destruct Hin as (prev' & s' & t & E).
  apply exec_fontFamilyRegex in E. destruct E as (w & -> & Hw).
  cbn [nth]. now apply forallb_trim.
Qed.

Lemma existsb_jseqb (x : jsstring) (l : list jsstring) :
  existsb (jseqb x) l = true <-> In x l.
Proof.
  rewrite existsb_exists. split.
  - intros (y & Hy & E). unfold jseqb in E.
    destruct (list_eq_dec N.eq_dec x y) as [->|]; [assumption | discriminate].
  - intros H. exists x. split; [assumption|]. unfold jseqb.
    now destruct (list_eq_dec N.eq_dec x x).
Qed.

Lemma distinct_from (items : list jsstring) :
  forall seen,
    NoDup seen ->
    let out := fold_left
                 (fun seen item =>
                    if existsb (jseqb item) seen then seen else seen ++ [item])
                 items seen in
    NoDup out /\ forall x, In x out <-> In x seen \/ In x items.
Proof.
  induction items as [|y items IH]; intros seen Hs; cbn [fold_left].
  - split; [assumption|]. intros x. cbn [In]. tauto.
  - destruct (existsb (jseqb y) seen) eqn:E.
    + destruct (IH seen Hs) as [H1 H2]. split; [exact H1|].
      intros x. rewrite H2. apply existsb_jseqb in E. cbn [In].
      split; [tauto|]. intros [H|[<-|H]]; auto.
    + assert (Hn : ~ In y seen).
      { intros Hin. apply existsb_jseqb in Hin. congruence. }
      assert (Hs' : NoDup (seen ++ [y])).
      { apply NoDup_app; [assumption | repeat constructor; intros [] |].
        intros x Hx [<-|[]]. contradiction. }
      destruct (IH (seen ++ [y]) Hs') as [H1 H2]. split; [exact H1|].
      intros x. rewrite H2, in_app_iff. cbn [In]. tauto.
Qed.

Lemma distinct_spec (items : list jsstring) :
  NoDup (distinct items) /\ forall x, In x (distinct items) <-> In x items.
Proof.
  destruct (distinct_from items [] (NoDup_nil _)) as [H1 H2].
  split; [exact H1|]. intros x. unfold distinct. rewrite H2. cbn [In]. tauto.
Qed.

Lemma familyUnit_no_quote (f : jsstring) :
  forallb isFamilyUnit f = true -> existsb (N.eqb 34) f = false.
Proof.
  induction f as [|c f IH]; [reflexivity|]. cbn [forallb existsb]. intros H.
  apply andb_true_iff in H. destruct H as [Hc Hf]. rewrite (IH Hf), orb_false_r.
  unfold isFamilyUnit in Hc. rewrite (N.eqb_sym 34 c).
  destruct (N.eqb c 34); [|reflexivity].
  rewrite andb_false_r in Hc. discriminate Hc.
Qed.

(** The rule names its family. *)
Lemma fontFaceCSS_family (f f' b b' : jsstring) :
  existsb (N.eqb 34) f = false -> existsb (N.eqb 34) f' = false ->
  fontFaceCSS f b = fontFaceCSS f' b' -> f = f'.
Proof.
  intros Hf Hf' H. unfold fontFaceCSS in H.
  apply app_inv_head in H. apply app_inv_head in H. apply app_inv_head in H.
  assert (E : splitAt 34 (f ++ [34] ++ lit "; src:url(data:font/woff2;base64," ++ b ++
                                lit ") format('woff2'); }") =
              splitAt 34 (f' ++ [34] ++ lit "; src:url(data:font/woff2;base64," ++ b' ++
                                 lit ") format('woff2'); }")) by now rewrite H.
  cbn [app] in E. rewrite !splitAt_app in E by assumption. now injection E.
Qed.

Lemma NoDup_faces (l : list jsstring) :
  NoDup l -> (forall f, In f l -> existsb (N.eqb 34) f = false) ->
  NoDup (fontFaces urlRoot loadFont l).
Proof.
  induction 1 as [|f l Hn Hl IH]; intros Hq; [constructor|].
  cbn [fontFaces flat_map]. fold (fontFaces urlRoot loadFont l).
  assert (IH' : NoDup (fontFaces urlRoot loadFont l)).
  { apply IH. intros g Hg. apply Hq. now right. }
  destruct (loadFont (fontUrl urlRoot f)) as [b|]; [|exact IH'].
  cbn [app]. constructor; [|exact IH'].
  intros Hin. unfold fontFaces in Hin. apply in_flat_map in Hin.
  destruct Hin as (g & Hg & Hin).
  destruct (loadFont (fontUrl urlRoot g)) as [b'|]; [|destruct Hin].
  destruct Hin as [Hin|[]].
  apply fontFaceCSS_family in Hin.
  - subst g. contradiction.
  - apply Hq. now right.
  - apply Hq. now left.
Qed.

(** X15.  [embedFonts] asks for each font family of the markup once,
    however often the markup names it, and no two rules of the style
    element are the same: the families are the distinct trimmed values of
    the [font-family] attributes, and the rules written for them are
    pairwise different. *)
Theorem fonts_are_embedded_once (html : jsstring) :
  NoDup (fontFamilies html) /\
  (forall f, In f (fontFamilies html) <-> In f (familyNames html)) /\
  NoDup (fontFaces urlRoot loadFont (fontFamilies html)).
Proof.
  destruct (distinct_spec (familyNames html)) as [H1 H2].
  split; [exact H1|]. split; [exact H2|].
  apply NoDup_faces; [exact H1|].
  intros f Hf. apply familyUnit_no_quote, (familyNames_units html). now apply H2.
Qed.

(** *** The style element *)

Lemma exec_svgOpenTagRegex (prev : option N) (s : jsstring) :
  exec svgOpenTagRegex prev s =
  match parseOpenTag s with
  | Some (attrs, t) => Some (lit "<svg" ++ attrs ++ [62], [], t)
  | None => None
  end.
Proof.
  unfold exec, svgOpenTagRegex, parseOpenTag. rewrite run_seq, run_str.
  destruct (startsWith (lit "<svg") s) eqn:E; [|reflexivity].
  apply startsWith_length in E. destruct E as [_ E].
  change (length (lit "<svg")) with 4%nat in *.
  rewrite run_until_end.
  destruct (splitAt 62 (skipn 4 s)) as [[a t]|] eqn:Ea; [|reflexivity].
  cbn [rest caps]. do 2 f_equal. f_equal.
  apply splitAt_spec in Ea. destruct Ea as [Ea _].
  rewrite E, Ea.
  replace (lit "<svg" ++ a ++ 62 :: t) with ((lit "<svg" ++ a ++ [62]) ++ t)
    by (now rewrite <- !app_assoc).
  apply firstn_app_length.
Qed.

Lemma splitAt_some (d : N) (s : jsstring) : In d s -> splitAt d s <> None.
Proof.
  induction s as [|c s IH]; [intros []|]. intros H. cbn [splitAt].
  destruct (N.eqb_spec c d) as [->|Hne]; [discriminate|].
  destruct H as [H|H]; [contradiction|]. apply IH in H.
  now destruct (splitAt d s) as [[a t]|].
Qed.

(** X14.  [embedFonts] returns the markup as it is, or the markup with one
    style element put right behind its first [<svg ...>] opening tag and
    nothing else changed; the style element holds the rules of the
    families whose fonts loaded, of which there is at least one. *)
Theorem embedFonts_inserts_style (html : jsstring) :
  embedFonts urlRoot loadFont html = html \/
  exists pre attrs tl faces,
    html = pre ++ lit "<svg" ++ attrs ++ [62] ++ tl /\
    existsb (N.eqb 62) attrs = false /\
    (forall x1 x2, pre = x1 ++ x2 -> x2 <> [] ->
       startsWith (lit "<svg") (x2 ++ lit "<svg" ++ attrs ++ [62] ++ tl) = false) /\
    faces = fontFaces urlRoot loadFont (fontFamilies html) /\ faces <> [] /\
    embedFonts urlRoot loadFont html =
      pre ++ lit "<svg" ++ attrs ++ [62] ++ styleTag faces ++ tl.
Proof.
  unfold embedFonts. cbv zeta.
  destruct (fontFamilies html) as [|f0 fs] eqn:Ef; [now left|].
  destruct (fontFaces urlRoot loadFont (f0 :: fs)) as [|c0 cs0] eqn:Ec; [now left|].
  destruct (search svgOpenTagRegex None html) as [[[[pre mt] cs] tl]|] eqn:E; [|now left].
  right. pose proof (search_sound _ _ _ _ _ _ _ E) as [Eh Ee].
  rewrite exec_svgOpenTagRegex in Ee.
  destruct (parseOpenTag (mt ++ tl)) as [[attrs t]|] eqn:Ep; [|discriminate].
  injection Ee as <- _ <-. unfold parseOpenTag in Ep.
  destruct (startsWith (lit "<svg") _); [|discriminate].
  apply splitAt_spec in Ep. destruct Ep as [_ Hq].
  change (60 :: 115 :: 118 :: 103 :: attrs ++ [62])
    with (lit "<svg" ++ attrs ++ [62]) in *.
  exists pre, attrs, t, (c0 :: cs0). repeat split.
  - rewrite Eh. now rewrite <- !app_assoc.
  - exact Hq.
  - intros x1 x2 Hp Hne.
    pose proof (search_first _ _ _ _ _ _ _ E x1 x2 Hp Hne) as Hx.
    rewrite exec_svgOpenTagRegex in Hx. unfold parseOpenTag in Hx.
    rewrite <- !app_assoc in Hx. cbn [app] in Hx |- *.
    destruct (startsWith (lit "<svg") (x2 ++ lit "<svg" ++ attrs ++ 62 :: t)) eqn:Es;
      [|reflexivity].
    exfalso.
    assert (Hin : In 62 (skipn 4 (x2 ++ lit "<svg" ++ attrs ++ 62 :: t))).
    { replace (x2 ++ lit "<svg" ++ attrs ++ 62 :: t)
        with ((x2 ++ lit "<svg" ++ attrs) ++ 62 :: t) by (now rewrite <- !app_assoc).
      rewrite skipn_app. apply in_or_app. right.
      replace (4 - length (x2 ++ lit "<svg" ++ attrs))%nat with 0%nat.
      - now left.
      - rewrite !length_app. change (length (lit "<svg")) with 4%nat.
        destruct x2; [contradiction | cbn [length]; lia]. }
    apply splitAt_some in Hin.
    now destruct (splitAt 62 (skipn 4 (x2 ++ lit "<svg" ++ attrs ++ 62 :: t))) as [[? ?]|].
  - discriminate.
  - now rewrite <- !app_assoc.
Qed.

End FontFacts.

(** ** Composition on any markup *)

Section CompositionShape.
Import Regex Worker Fonts.

(** X16.  On any markup [composeToSVG] returns the empty string, exactly
    when its pattern finds no container, or else one container: the opening
    tag of the first container found, the bodies of all containers found,
    in order, and one closing tag.  The second [return ''] of the source is
    never taken. *)
Theorem composeToSVG_shape (html : jsstring) :
  (svgMatches html = [] /\ composeToSVG html = []) \/
  exists a b more,
    svgMatches html = (container a b, b) :: more /\ attrsOk a = true /\
    composeToSVG html = container a (concat (b :: map snd more)).
Proof.
  unfold composeToSVG.
  destruct (svgMatches html) as [|[mt b] more] eqn:E; [now left|]. right.
  destruct (svgMatches_sound html mt b) as (a & -> & Ha & _).
  { rewrite E. now left. }
  exists a, b, more. split; [reflexivity|]. split; [assumption|].
  cbv beta iota zeta. cbn [fst].
  rewrite (search_hit _ _ _ _ _ _ (exec_openTagRegex _ _ _ Ha)).
  unfold container. cbn [map snd]. now rewrite <- !app_assoc.
Qed.

Variable urlRoot : jsstring.
Variable loadFont : jsstring -> option jsstring.

Lemma parseOpenTag_container (a b : jsstring) :
  attrsOk a = true -> parseOpenTag (container a b) = Some (a, b ++ closeTag).
Proof.
  unfold attrsOk. rewrite andb_true_iff, !negb_true_iff. intros [Ha _].
  unfold parseOpenTag, container. rewrite startsWith_app.
  change (skipn 4 (lit "<svg" ++ a ++ lit ">" ++ b ++ closeTag))
    with (a ++ 62 :: b ++ closeTag).
  now apply splitAt_app.
Qed.

(** X17.  Fonts are embedded into the composed markup right behind the
    opening tag of the one container it consists of: [embedFonts] after
    [composeToSVG] gives the composed markup as it is, or the container
    with the style element as the first thing of its body. *)
Theorem embedFonts_after_composeToSVG (html : jsstring) :
  embedFonts urlRoot loadFont (composeToSVG html) = composeToSVG html \/
  exists a body faces,
    composeToSVG html = container a body /\
    faces = fontFaces urlRoot loadFont (fontFamilies (composeToSVG html)) /\
    faces <> [] /\
    embedFonts urlRoot loadFont (composeToSVG html) =
      container a (styleTag faces ++ body).
Proof.
  destruct (svgMatches html) as [|[mt b] more] eqn:E.
  - left. assert (H : composeToSVG html = []) by (unfold composeToSVG; now rewrite E).
    rewrite H. reflexivity.
  - destruct (svgMatches_sound html mt b) as (a & -> & Ha & _).
    { rewrite E. now left. }
    assert (H : composeToSVG html = container a (concat (b :: map snd more))).
    { unfold composeToSVG. rewrite E. cbv beta iota zeta. cbn [fst].
      rewrite (search_hit _ _ _ _ _ _ (exec_openTagRegex _ _ _ Ha)).
      unfold container. cbn [map snd]. now rewrite <- !app_assoc. }
    rewrite H. set (body := concat (b :: map snd more)).
    unfold embedFonts. cbv zeta.
    destruct (fontFamilies (container a body)) as [|f0 fs]; [now left|].
    destruct (fontFaces urlRoot loadFont (f0 :: fs)) as [|c0 cs0] eqn:Ec; [now left|].
    right. exists a, body, (c0 :: cs0).
    split; [reflexivity|]. split; [reflexivity|]. split; [discriminate|].
    rewrite (search_hit svgOpenTagRegex None (container a body)
               (lit "<svg" ++ a ++ [62]) (body ++ closeTag) []).
    + unfold container. cbn [app]. now rewrite <- !app_assoc.
    + now rewrite exec_svgOpenTagRegex, parseOpenTag_container.
Qed.

End CompositionShape.

(** ** The queue never gets stuck *)

Section ProgressFacts.
Import Page Trace Stage Queue Progress.

Variable outerHTML : element -> jsstring -> jsstring.















(** *** Bounded work *)






(** *** Settling *)





End ProgressFacts.




(** ** The input of a fingerprint determines the element *)

Section FingerprintInput.
Import Worker Page.

Lemma escapeOk_units : allBelow 65536 escapeOk = true.
Proof. vm_compute. reflexivity. Qed.

Lemma unquoteFrom_plain (c : N) (tl acc : jsstring) :
  c <> 34 -> c <> 92 -> unquoteFrom (c :: tl) acc = unquoteFrom tl (c :: acc).
Proof.
  intros H1 H2. cbn [unquoteFrom].
  destruct (N.eqb_spec c 34); [contradiction|].
  destruct (N.eqb_spec c 92); [contradiction|]. reflexivity.
Qed.

Lemma unquoteFrom_unit (c : N) (tl acc : jsstring) :
  unquoteFrom (jsonEscape [c] ++ tl) acc = unquoteFrom tl (c :: acc).
Proof.
  unfold jsonEscape.
  repeat match goal with
         | |- context [N.eqb c ?k] => destruct (N.eqb_spec c k) as [->|?]; [reflexivity|]
         end.
  destruct (N.ltb c 32 || isHighSurrogate c || isLowSurrogate c) eqn:E.
  - assert (Hc : c < 65536).
    { unfold isHighSurrogate, isLowSurrogate, inRange in E.
      destruct (N.ltb_spec c 32); [lia|]. cbn [orb] in E.
      apply orb_true_iff in E. destruct E as [E|E];
        apply andb_true_iff in E; destruct E as [_ E]; apply N.leb_le in E; lia. }
    pose proof (allBelow_spec _ _ escapeOk_units c Hc) as T. unfold escapeOk in T.
    destruct (padStart 4 48 (toString16 c)) as [|h1 [|h2 [|h3 [|h4 [|x l]]]]];
      try discriminate T.
    apply N.eqb_eq in T.
    change (unquoteFrom (92 :: 117 :: h1 :: h2 :: h3 :: h4 :: tl) acc
            = unquoteFrom tl (c :: acc)).
    cbn [unquoteFrom]. cbn [N.eqb Pos.eqb]. now rewrite T.
  - cbn [app]. now apply unquoteFrom_plain.
Qed.

Lemma surrogate_plain (c : N) :
  isHighSurrogate c || isLowSurrogate c = true -> c <> 34 /\ c <> 92.
Proof.
  unfold isHighSurrogate, isLowSurrogate, inRange. intros E.
  apply orb_true_iff in E. destruct E as [E|E];
    apply andb_true_iff in E; destruct E as [E _]; apply N.leb_le in E; lia.
Qed.

Lemma unquoteFrom_escaped (rest : jsstring) :
  forall n s acc, (length s <= n)%nat ->
    unquoteFrom (concat (map jsonEscape (stringIterator s)) ++ 34 :: rest) acc
    = Some (rev acc ++ s, rest).
Proof.
  induction n as [|n IH]; intros s acc Hn.
  - destruct s; [|cbn in Hn; lia]. cbn. now rewrite app_nil_r.
  - destruct s as [|c [|d s2]].
    + cbn. now rewrite app_nil_r.
    + cbn [stringIterator map concat]. rewrite app_nil_r, unquoteFrom_unit.
      reflexivity.
    + cbn [stringIterator].
      destruct (isHighSurrogate c && isLowSurrogate d) eqn:E.
      * apply andb_true_iff in E. destruct E as [Ec Ed].
        cbn [map concat]. change (jsonEscape [c; d]) with [c; d]. cbn [app].
        destruct (surrogate_plain c) as [? ?]; [now rewrite Ec|].
        destruct (surrogate_plain d) as [? ?]; [rewrite Ed; apply orb_true_r|].
        rewrite 2 unquoteFrom_plain by assumption.
        assert (Hl : (length s2 <= n)%nat) by (cbn [length] in Hn; lia).
        etransitivity; [exact (IH s2 (d :: c :: acc) Hl)|].
        cbn [rev]. now rewrite <- !app_assoc.
      * cbn [map concat]. rewrite <- app_assoc, unquoteFrom_unit.
        assert (Hl : (length (d :: s2) <= n)%nat) by (cbn [length] in Hn |- *; lia).
        etransitivity; [exact (IH (d :: s2) (c :: acc) Hl)|].
        cbn [rev]. now rewrite <- app_assoc.
Qed.

Lemma unquote_quoted (s rest : jsstring) :
  unquote (quoteJSONString s ++ rest) = Some (s, rest).
Proof.
  unfold quoteJSONString. rewrite <- !app_assoc. cbn [app unquote N.eqb Pos.eqb].
  apply (unquoteFrom_escaped rest (length s) s []). apply le_n.
Qed.

Lemma quoteJSONString_inj (a b r1 r2 : jsstring) :
  quoteJSONString a ++ r1 = quoteJSONString b ++ r2 -> a = b /\ r1 = r2.
Proof.
  intros H. pose proof (unquote_quoted a r1) as Ha.
  rewrite H, unquote_quoted in Ha. injection Ha as -> ->. now split.
Qed.

Lemma quoted_head (s : jsstring) : exists tl, quoteJSONString s = 34 :: tl.
Proof. unfold quoteJSONString. eexists. reflexivity. Qed.

Lemma join_cons (sep p q : jsstring) (ps : list jsstring) :
  join sep (p :: q :: ps) = p ++ sep ++ join sep (q :: ps).
Proof. reflexivity. Qed.

Lemma join_members (d : dataset) (text : jsstring) :
  forall kv,
    join (lit ",")
      (map (fun kv0 => quoteJSONString (fst kv0) ++ lit ":" ++ quoteJSONString (snd kv0))
         (kv :: d)) ++ lit "}" ++ text
    = (quoteJSONString (fst kv) ++ lit ":" ++ quoteJSONString (snd kv)) ++
      membersTail d text.
Proof.
  set (member := fun kv0 : jsstring * jsstring =>
                   quoteJSONString (fst kv0) ++ lit ":" ++ quoteJSONString (snd kv0)).
  induction d as [|kv' d IH]; intros kv.
  - reflexivity.
  - change (map member (kv :: kv' :: d)) with (member kv :: member kv' :: map member d).
    rewrite join_cons, <- !app_assoc.
    change (member kv' :: map member d) with (map member (kv' :: d)).
    rewrite (IH kv'). cbn [membersTail]. unfold member. now rewrite <- !app_assoc.
Qed.

Lemma stringify_members (d : dataset) (text : jsstring) :
  JSON_stringify d ++ text =
  match d with
  | [] => lit "{}" ++ text
  | kv :: d' =>
      lit "{" ++ quoteJSONString (fst kv) ++ lit ":" ++ quoteJSONString (snd kv) ++
      membersTail d' text
  end.
Proof.
  unfold JSON_stringify. destruct d as [|kv d]; [reflexivity|].
  rewrite <- !app_assoc, join_members, <- !app_assoc. reflexivity.
Qed.

Lemma membersTail_inj (d1 : dataset) :
  forall d2 t1 t2, membersTail d1 t1 = membersTail d2 t2 -> d1 = d2 /\ t1 = t2.
Proof.
  induction d1 as [|[k1 v1] d1 IH]; intros [|[k2 v2] d2] t1 t2 H; cbn [membersTail fst snd] in H.
  - injection H as ->. now split.
  - discriminate H.
  - discriminate H.
  - apply app_inv_head in H. apply quoteJSONString_inj in H. destruct H as [-> H].
    apply app_inv_head in H. apply quoteJSONString_inj in H. destruct H as [-> H].
    apply IH in H. destruct H as [-> ->]. now split.
Qed.

(** X21.  The string an element's fingerprint is taken of determines the
    element's data attributes (names, values and order) and its text: two
    elements hash the same string exactly when they agree on both, so an
    attribute is never taken for a part of the text, nor one attribute for
    another. *)
Theorem fingerprint_input_injective (d1 d2 : dataset) (t1 t2 : jsstring) :
  JSON_stringify d1 ++ t1 = JSON_stringify d2 ++ t2 <-> d1 = d2 /\ t1 = t2.
Proof.
  split; [|now intros [-> ->]].
  rewrite !stringify_members.
  destruct d1 as [|[k1 v1] d1], d2 as [|[k2 v2] d2]; cbn [fst snd]; intros H.
  - injection H as ->. now split.
  - destruct (quoted_head k2) as [tl E]. rewrite E in H. discriminate H.
  - destruct (quoted_head k1) as [tl E]. rewrite E in H. discriminate H.
  - apply app_inv_head in H. apply quoteJSONString_inj in H. destruct H as [-> H].
    apply app_inv_head in H. apply quoteJSONString_inj in H. destruct H as [-> H].
    apply membersTail_inj in H. destruct H as [-> ->]. now split.
Qed.

End FingerprintInput.
